(** * The mutation pipeline of myAIDE, embedded in Rocq

    A shallow embedding of the implementer's mutation-application code
    ([src/tools/filesystem.ts], [src/agents/implementer-agent.ts] and the
    rollback of [src/ui/App.tsx]) together with the properties the
    specification states about it.

    Conventions.
    - A JavaScript string is the list of its UTF-16 code units ([list N]).
    - The file system is a finite map from absolute paths (lists of path
      segments) to the texts of the regular files; a directory is a path
      with entries below it.
    - Code that throws returns [Throw e]; code that touches the disk is a
      function from the file system to an outcome and a file system.
    - Node and library functions the repository calls but does not define
      ([RegExp], [JSON.parse], [jsonrepair], the [diff] package) are
      interfaces (type classes); [path] and [fs] are modelled on POSIX. *)

From Stdlib Require Import ZArith Lia String Ascii List Permutation.
From stdpp Require Import gmap list.

Set Default Proof Using "Type".
Local Open Scope nat_scope.

(** ** JavaScript strings *)

Abbreviation str := (list N).

(** [js "abc"] is the JavaScript string with the ASCII text [abc]. *)
Definition js (s : string) : str :=
  (fun a => N_of_ascii a) <$> list_ascii_of_string s.
Arguments js _%_string.

(** [jq] reads an apostrophe as a double quote, so that JSON texts can be
    written down: [jq "{'a':1}"] is the text [{"a":1}]. *)
Definition jq (s : string) : str :=
  (fun c => if N.eqb c 39 then 34%N else c) <$> js s.
Arguments jq _%_string.

Module JsString.

Definition CR : N := 13.
Definition LF : N := 10.

(** [s.startsWith(p)] *)
Fixpoint startsWith (s p : str) {struct p} : bool :=
  match p, s with
  | [], _ => true
  | _ :: _, [] => false
  | c :: p', d :: s' => N.eqb c d && startsWith s' p'
  end.

(** [s.endsWith(p)] *)
Definition endsWith (s p : str) : bool := startsWith (rev s) (rev p).

Definition eqb (a b : str) : bool := bool_decide (a = b).

(** [s.indexOf(p)], with [None] for [-1]. *)
Fixpoint indexOfFrom (s p : str) (i : nat) : option nat :=
  if startsWith s p then Some i
  else match s with
       | [] => None
       | _ :: s' => indexOfFrom s' p (S i)
       end.

Definition indexOf (s p : str) : option nat := indexOfFrom s p 0.

(** [s.lastIndexOf(p)], with [None] for [-1]. *)
Fixpoint lastIndexOfFrom (s p : str) (i : nat) : option nat :=
  match s with
  | [] => if startsWith s p then Some i else None
  | _ :: s' =>
      match lastIndexOfFrom s' p (S i) with
      | Some j => Some j
      | None => if startsWith s p then Some i else None
      end
  end.

Definition lastIndexOf (s p : str) : option nat := lastIndexOfFrom s p 0.

(** [s.includes(p)] *)
Definition includes (s p : str) : bool :=
  match indexOf s p with Some _ => true | None => false end.

(** [s.slice(a, b)] and [s.slice(a)] for indices within the string. *)
Definition slice (s : str) (a b : nat) : str := take (b - a) (drop a s).
Definition sliceFrom (s : str) (a : nat) : str := drop a s.

(** White space as [String.prototype.trim] and the regular expression
    class [\s] see it: WhiteSpace and LineTerminator of ECMAScript. *)
Definition isWhiteSpace (c : N) : bool :=
  ((9 <=? c) && (c <=? 13) || (c =? 32) || (c =? 160) || (c =? 5760)
   || ((8192 <=? c) && (c <=? 8202)) || (c =? 8232) || (c =? 8233)
   || (c =? 8239) || (c =? 8287) || (c =? 12288) || (c =? 65279))%N.

Fixpoint trimStart (s : str) : str :=
  match s with
  | c :: s' => if isWhiteSpace c then trimStart s' else s
  | [] => []
  end.

Definition trimEnd (s : str) : str := rev (trimStart (rev s)).

(** [s.trim()] *)
Definition trim (s : str) : str := trimEnd (trimStart s).

(** [/\r\n/.test(s)] *)
Fixpoint hasCRLF (s : str) : bool :=
  match s with
  | c :: ((d :: _) as s') => (N.eqb c CR && N.eqb d LF) || hasCRLF s'
  | _ => false
  end.

(** [s.replace(/\r\n/g, "\n")] *)
Fixpoint crlfToLf (s : str) : str :=
  match s with
  | c :: s' =>
      match s' with
      | d :: s'' =>
          if N.eqb c CR && N.eqb d LF then LF :: crlfToLf s''
          else c :: crlfToLf s'
      | [] => [c]
      end
  | [] => []
  end.

(** [s.replace(/\n/g, "\r\n")] *)
Fixpoint lfToCrlf (s : str) : str :=
  match s with
  | c :: s' => if N.eqb c LF then CR :: LF :: lfToCrlf s' else c :: lfToCrlf s'
  | [] => []
  end.

(** [s.toWellFormed()]: every lone surrogate becomes U+FFFD. This is
    what is left of a string that is encoded as UTF-8 and decoded
    again. *)
Definition isHighSurrogate (c : N) : bool := ((55296 <=? c) && (c <=? 56319))%N.
Definition isLowSurrogate (c : N) : bool := ((56320 <=? c) && (c <=? 57343))%N.

Fixpoint toWellFormed (s : str) : str :=
  match s with
  | c :: s' =>
      if isHighSurrogate c then
        match s' with
        | d :: s'' =>
            if isLowSurrogate d then c :: d :: toWellFormed s''
            else 65533%N :: toWellFormed s'
        | [] => [65533%N]
        end
      else if isLowSurrogate c then 65533%N :: toWellFormed s'
      else c :: toWellFormed s'
  | [] => []
  end.

(** [s.split(c)] for a one-character separator: never the empty list. *)
Fixpoint split (c : N) (s : str) : list str :=
  match s with
  | [] => [[]]
  | x :: s' =>
      if N.eqb x c then [] :: split c s'
      else match split c s' with
           | seg :: rest => (x :: seg) :: rest
           | [] => [[x]]
           end
  end.

(** [l.join(sep)] *)
Fixpoint join (sep : str) (l : list str) : str :=
  match l with
  | [] => []
  | [a] => a
  | a :: l' => a ++ sep ++ join sep l'
  end.

End JsString.

(** ** [node:path] on POSIX

    Node's [path] functions scan their argument character by character;
    what they compute is a function of the [/]-separated segments, and
    that is how they are written here. *)

Module Path.
Import JsString.

Definition sep : N := 47.
Definition dot : str := js ".".
Definition dotdot : str := js "..".

Definition isAbsolute (p : str) : bool :=
  match p with c :: _ => N.eqb c sep | [] => false end.

Definition segments (p : str) : list str := split sep p.

(** One step of [normalizeString]: [res] is the stack of segments kept
    so far, last one first. Empty segments and [.] are skipped; [..]
    pops a segment that is not itself [..], and is kept only above the
    root of a relative path. *)
Definition normalizeStep (allowAboveRoot : bool) (res : list str) (seg : str)
  : list str :=
  if eqb seg [] || eqb seg dot then res
  else if eqb seg dotdot then
    match res with
    | top :: rest =>
        if eqb top dotdot then (if allowAboveRoot then dotdot :: res else res)
        else rest
    | [] => if allowAboveRoot then [dotdot] else []
    end
  else seg :: res.

Definition normalizeSegments (allowAboveRoot : bool) (segs : list str)
  : list str :=
  rev (fold_left (normalizeStep allowAboveRoot) segs []).

Definition normalizeString (p : str) (allowAboveRoot : bool) : str :=
  join [sep] (normalizeSegments allowAboveRoot (segments p)).

(** [path.normalize(p)] *)
Definition normalize (p : str) : str :=
  match p with
  | [] => dot
  | _ =>
      let isAbs := isAbsolute p in
      let trailingSeparator := endsWith p [sep] in
      let body := normalizeString p (negb isAbs) in
      match body with
      | [] => if isAbs then [sep]
              else if trailingSeparator then js "./" else dot
      | _ =>
          let body := if trailingSeparator then body ++ [sep] else body in
          if isAbs then sep :: body else body
      end
  end.

(** [path.join(...args)] *)
Definition join (args : list str) : str :=
  match filter (fun a => a <> []) args with
  | [] => dot
  | parts => normalize (JsString.join [sep] parts)
  end.

(** The loop of [path.resolve]: arguments from the right, then the
    working directory, until an absolute one has been prepended. *)
Fixpoint resolveLoop (argsRev : list str) (cwd : str) (resolvedPath : str)
  : str * bool :=
  match argsRev with
  | [] =>
      match cwd with
      | [] => (resolvedPath, false)
      | _ => (cwd ++ [sep] ++ resolvedPath, isAbsolute cwd)
      end
  | [] :: rest => resolveLoop rest cwd resolvedPath
  | p :: rest =>
      let resolvedPath := p ++ [sep] ++ resolvedPath in
      if isAbsolute p then (resolvedPath, true)
      else resolveLoop rest cwd resolvedPath
  end.

(** [path.resolve(...args)], with [process.cwd()] as [cwd]. *)
Definition resolve (cwd : str) (args : list str) : str :=
  let '(resolvedPath, resolvedAbsolute) := resolveLoop (rev args) cwd [] in
  let body := normalizeString resolvedPath (negb resolvedAbsolute) in
  if resolvedAbsolute then sep :: body
  else match body with [] => dot | _ => body end.

(** The segments two lists do not share at their start. *)
Fixpoint dropCommon (a b : list str) : list str * list str :=
  match a, b with
  | x :: a', y :: b' => if eqb x y then dropCommon a' b' else (a, b)
  | _, _ => (a, b)
  end.

(** [path.relative(from, to)]: one [..] for each segment of [from]
    below the common directory, then what is left of [to]. *)
Definition relative (cwd : str) (from to : str) : str :=
  if eqb from to then []
  else
    let from := resolve cwd [from] in
    let to := resolve cwd [to] in
    if eqb from to then []
    else
      let '(up, down) :=
        dropCommon (filter (fun s => s <> []) (segments from))
                   (filter (fun s => s <> []) (segments to)) in
      JsString.join [sep] (replicate (length up) dotdot ++ down).

(** [path.dirname(p)] of an absolute path. *)
Definition dirname (p : str) : str :=
  sep :: JsString.join [sep]
           (removelast (filter (fun s => s <> []) (segments p))).

End Path.

(** ** Errors and effects *)

Inductive OsErrorCode := ENOENT | EISDIR | ENOTDIR | EEXIST.

(** Every [throw] of the embedded code, by the message it carries. *)
Inductive Error :=
| PathEscapesWorkspace (targetPath : str)
| FailedToRead (targetPath : str) (code : OsErrorCode)
| OsError (code : OsErrorCode) (path : list str)
| ActionMissingPath
| WriteFileMissingContent
| AnchorMissing (path : str)
| ReplacementMissing
| SnippetMissing
| UnableToLocateAnchor (path : str)
| UnknownMode
| PostConditionNotMet (path : str)
| ReferencedMissingFile (path : str) (cause : Error)
| FailedToApplyPatch (path : str)
| MissingInstructions
| UnsupportedActionType (type : str)
| InvalidJsonAfterRepair (rawLength : nat)
| MissingActionsArray
| TypeErrorOnNull.

Inductive Outcome (A : Type) :=
| Return (a : A)
| Throw (e : Error).
Arguments Return {A} a.
Arguments Throw {A} e.

#[global] Instance Outcome_ret : MRet Outcome := fun A a => Return a.
#[global] Instance Outcome_bind : MBind Outcome := fun A B f m =>
  match m with
  | Return a => f a
  | Throw e => Throw e
  end.

(** The disk: regular files by absolute path. A file is held as the
    text its bytes decode to as UTF-8; a lone surrogate in it stands
    for a part of the file that is not valid UTF-8, which a read
    returns as U+FFFD and which no write can produce. *)
Abbreviation FS := (gmap (list str) str).

(** A computation that may read and write the disk and may throw. *)
Definition IO (A : Type) : Type := FS -> Outcome A * FS.

#[global] Instance IO_ret : MRet IO := fun A a fs => (Return a, fs).
#[global] Instance IO_bind : MBind IO := fun A B f m fs =>
  match m fs with
  | (Return a, fs') => f a fs'
  | (Throw e, fs') => (Throw e, fs')
  end.

Definition throw {A} (e : Error) : IO A := fun fs => (Throw e, fs).

(** [try { m } catch (e) { h(e) }] *)
Definition tryCatch {A} (m : IO A) (h : Error -> IO A) : IO A := fun fs =>
  match m fs with
  | (Return a, fs') => (Return a, fs')
  | (Throw e, fs') => h e fs'
  end.

Definition liftOutcome {A} (o : Outcome A) : IO A := fun fs => (o, fs).

(** ** [node:fs] on POSIX

    The kernel resolves a path segment by segment from the root. A path
    is a regular file when the map holds it, a directory when the map
    holds a path strictly below it (the root always is one); directories
    without entries are not represented, so [mkdir] changes nothing and
    only fails: the disk of this model is the regular files, and what is
    said of it is said of them. The errors are those of a path that
    runs through a regular file or names a directory; a path that ends
    with a separator names a directory. Texts are written and read as
    UTF-8. *)

Module Fs.

Definition key (p : str) : list str :=
  Path.normalizeSegments false (Path.segments p).

Definition isFile (fs : FS) (k : list str) : bool :=
  bool_decide (is_Some (fs !! k)).

Definition strictlyBelow (k k' : list str) : Prop :=
  k `prefix_of` k' /\ k <> k'.

Definition isDirectory (fs : FS) (k : list str) : bool :=
  bool_decide (k = []) ||
  bool_decide (map_Exists (fun k' _ => strictlyBelow k k') fs).

(** Some directory on the way to [k] is a regular file. *)
Definition ancestorIsFile (fs : FS) (k : list str) : bool :=
  existsb (fun n => isFile fs (take n k)) (seq 0 (length k)).

(** The path ends with a separator. *)
Definition namesDirectory (p : str) : bool := JsString.endsWith p [Path.sep].

(** The path runs through a regular file: a directory on the way to it
    is one, or it ends with a separator and is one itself. *)
Definition throughFile (fs : FS) (p : str) : bool :=
  ancestorIsFile fs (key p) || (namesDirectory p && isFile fs (key p)).

(** [fs.readFile(p, "utf8")]: the decoding replaces what is not valid
    UTF-8. *)
Definition readFile (p : str) : IO str := fun fs =>
  match fs !! key p with
  | Some stored =>
      if namesDirectory p then (Throw (OsError ENOTDIR (key p)), fs)
      else (Return (JsString.toWellFormed stored), fs)
  | None =>
      (Throw (OsError (if ancestorIsFile fs (key p) then ENOTDIR
                       else if isDirectory fs (key p) then EISDIR
                       else ENOENT)
                      (key p)), fs)
  end.

(** [fs.mkdir(p, { recursive: true })] *)
Definition mkdir (p : str) : IO unit := fun fs =>
  if ancestorIsFile fs (key p) then (Throw (OsError ENOTDIR (key p)), fs)
  else if isFile fs (key p) then (Throw (OsError EEXIST (key p)), fs)
  else (Return tt, fs).

(** [fs.writeFile(p, content, "utf8")], the directory of [p] existing:
    the encoding replaces every lone surrogate. *)
Definition writeFile (p content : str) : IO unit := fun fs =>
  if throughFile fs p then (Throw (OsError ENOTDIR (key p)), fs)
  else if namesDirectory p || isDirectory fs (key p)
  then (Throw (OsError EISDIR (key p)), fs)
  else (Return tt, <[key p := JsString.toWellFormed content]> fs).

(** [fs.rm(p, { recursive: true, force: true })]: the file, or the
    directory with all that is below it; nothing for a missing path.
    [force] forgives a missing path only: a path that runs through a
    regular file is an error. *)
Definition rmRecursive (p : str) : IO unit := fun fs =>
  if throughFile fs p then (Throw (OsError ENOTDIR (key p)), fs)
  else (Return tt, filter (fun kv => ~ key p `prefix_of` kv.1) fs).

(** [fs.rm(p, { force: true })]: a directory is refused. The rollback,
    which alone calls it, passes a resolved path and ignores the error:
    a path that runs through a regular file, where there is nothing to
    remove and the call is refused as well, is not told apart from a
    missing one. *)
Definition rm (p : str) : IO unit := fun fs =>
  if isDirectory fs (key p) then (Throw (OsError EISDIR (key p)), fs)
  else (Return tt, delete (key p) fs).

End Fs.

(** ** FileSystemTool ([src/tools/filesystem.ts]) *)

Inductive MutationAction := MWrite | MDelete.

Record PendingMutation := {
  p_action : MutationAction;
  p_path : str;
  p_preview : option str;
  p_before : option str;
  p_after : option str
}.

Record FileMutation := {
  action : MutationAction;
  path : str;
  preview : option str;
  before : option str;
  after : option str;
  applied : bool;
  reason : option str
}.

(** [{ ...pending, applied, reason }] *)
Definition settle (p : PendingMutation) (applied : bool) (reason : option str)
  : FileMutation :=
  {| action := p_action p; path := p_path p; preview := p_preview p;
     before := p_before p; after := p_after p;
     applied := applied; reason := reason |}.

Record FileSystemTool := {
  root : str;
  dryRun : bool;
  confirm : option (PendingMutation -> bool)
}.

Module FileSystemTool.
Import JsString.

Section Process.
(** [process.cwd()] *)
Variable cwd : str.

(** [new FileSystemTool(options)] *)
Definition new (optionsRoot : str) (optionsDryRun : bool)
    (optionsConfirm : option (PendingMutation -> bool)) : FileSystemTool :=
  {| root := Path.resolve cwd [optionsRoot];
     dryRun := optionsDryRun;
     confirm := optionsConfirm |}.

Definition candidate (t : FileSystemTool) (targetPath : str) : str :=
  if Path.isAbsolute targetPath then targetPath
  else Path.join [root t; targetPath].

Definition resolve (t : FileSystemTool) (targetPath : str) : Outcome str :=
  let normalized := Path.normalize (candidate t targetPath) in
  let relative := Path.relative cwd (root t) normalized in
  if startsWith relative (js "..") || Path.isAbsolute relative
  then Throw (PathEscapesWorkspace targetPath)
  else Return normalized.

Definition read (t : FileSystemTool) (targetPath : str) : IO str :=
  resolved ← liftOutcome (resolve t targetPath);
  tryCatch (Fs.readFile resolved)
    (fun error =>
       throw (FailedToRead targetPath
                match error with OsError c _ => c | _ => ENOENT end)).

(** [try { x = await fs.readFile(resolved) } catch { x = undefined }] *)
Definition readOrUndefined (resolved : str) : IO (option str) :=
  tryCatch (content ← Fs.readFile resolved; mret (Some content))
           (fun _ => mret None).

Definition declines (t : FileSystemTool) (pending : PendingMutation) : bool :=
  match confirm t with
  | Some ask => negb (ask pending)
  | None => false
  end.

Definition write (t : FileSystemTool) (targetPath content : str)
  : IO FileMutation :=
  resolved ← liftOutcome (resolve t targetPath);
  previousContent ← readOrUndefined resolved;
  let pending :=
    {| p_action := MWrite;
       p_path := Path.relative cwd (root t) resolved;
       p_preview := Some (slice content 0 500);
       p_before := previousContent;
       p_after := Some content |} in
  if dryRun t then mret (settle pending false (Some (js "dry-run")))
  else if declines t pending
  then mret (settle pending false (Some (js "declined")))
  else
    _ ← Fs.mkdir (Path.dirname resolved);
    _ ← Fs.writeFile resolved content;
    mret (settle pending true None).

Definition delete (t : FileSystemTool) (targetPath : str) : IO FileMutation :=
  resolved ← liftOutcome (resolve t targetPath);
  existingContent ← readOrUndefined resolved;
  let pending :=
    {| p_action := MDelete;
       p_path := Path.relative cwd (root t) resolved;
       p_preview := None;
       p_before := existingContent;
       p_after := None |} in
  if dryRun t then mret (settle pending false (Some (js "dry-run")))
  else if declines t pending
  then mret (settle pending false (Some (js "declined")))
  else
    _ ← Fs.rmRecursive resolved;
    mret (settle pending true None).

End Process.
End FileSystemTool.

(** ** What the repository calls and does not define

    [RegExp], [JSON.parse], the [jsonrepair] package and the [diff]
    package are interfaces: the embedded code is written against them,
    and what is proved of it holds for every implementation. *)

(** [new RegExp(source, flags).exec(input)]: the constructor may throw
    a [SyntaxError]; [exec] finds no match or the leftmost one, of which
    the code reads [index] and [match[0]]. *)
Inductive RegExpExec :=
| RegExpSyntaxError
| RegExpNoMatch
| RegExpMatch (index : nat) (text : str).

Class RegExpEngine := regExpExec : str -> str -> str -> RegExpExec.

(** A parsed JSON text. A number keeps its lexeme; an object keeps its
    members in the order their keys first appeared. *)
#[warnings="-register-all"]
Inductive json :=
| JNull
| JBool (b : bool)
| JNumber (lexeme : str)
| JString (s : str)
| JArray (items : list json)
| JObject (members : list (str * json)).

(** [JSON.parse(text)]: [None] for a [SyntaxError]. *)
Class JsonParser := jsonParse : str -> option json.

(** [jsonrepair(text)]: [None] when it throws. *)
Class JsonRepair := jsonrepair : str -> option str.

(** A hunk and a file of a parsed unified diff, as [parsePatch] of the
    [diff] package returns them. *)
Record Hunk := {
  oldStart : Z;
  oldLines : Z;
  newStart : Z;
  newLines : Z;
  lines : list str
}.

Record ParsedDiff := {
  oldFileName : option str;
  newFileName : option str;
  hunks : list Hunk
}.

(** [applyPatch(source, patch, { fuzzFactor })]: the patched text,
    [false], or an exception. *)
Inductive PatchResult :=
| Patched (text : str)
| PatchRejected
| PatchThrew (message : str).

Class DiffLibrary := {
  applyPatchString : str -> str -> nat -> PatchResult;
  applyPatchObject : str -> ParsedDiff -> nat -> PatchResult;
  parsePatch : str -> option (list ParsedDiff)
}.

(** ** Anchors ([src/agents/implementer-agent.ts]) *)

Record AnchorSpec := {
  anchor_exact : option str;
  anchor_regex : option str;
  anchor_description : option str
}.

Inductive ActionType :=
| WriteFile
| ModifyFile
| DeletePath
| OtherType (name : str).

Inductive Mode :=
| Replace
| InsertAfter
| InsertBefore
| OtherMode (name : str).

Record ImplementationAction := {
  action_type : ActionType;
  action_path : str;
  action_content : option str;
  action_patch : option str;
  action_patches : option (list str);
  action_mode : option Mode;
  action_anchor : option AnchorSpec;
  action_replacement : option str;
  action_snippet : option str;
  action_ensure : option str
}.

Record ImplementationPayload := {
  actions : list ImplementationAction;
  notes : option str
}.

(** A span [{ start, end }] of the content. *)
Record Span := { span_start : nat; span_end : nat }.

(** JavaScript's truthiness of an optional string: present and not
    empty. *)
Definition truthy (s : option str) : bool :=
  match s with Some (_ :: _) => true | _ => false end.

(** [typeof s === "string"] *)
Definition isString (s : option str) : bool :=
  match s with Some _ => true | None => false end.

(** [s ?? ""] *)
Definition orEmpty (s : option str) : str :=
  match s with Some x => x | None => [] end.

Module Anchor.
Import JsString.

(** The characters of [/[-/\\^$*+?.()|[\]{}]/]. *)
Definition isRegexMeta (c : N) : bool :=
  bool_decide (c ∈ js "-/\^$*+?.()|[]{}").

(** [input.replace(/[-/\\^$*+?.()|[\]{}]/g, "\\$&")] *)
Definition escapeForRegex (input : str) : str :=
  flat_map (fun c => if isRegexMeta c then [92%N; c] else [c]) input.

(** [s.replace(/\s+/g, "\\s+")] *)
Fixpoint collapseWhiteSpace (s : str) : str :=
  match s with
  | [] => []
  | c :: s' =>
      if isWhiteSpace c
      then match s' with
           | d :: _ => if isWhiteSpace d then collapseWhiteSpace s'
                       else js "\s+" ++ collapseWhiteSpace s'
           | [] => js "\s+"
           end
      else c :: collapseWhiteSpace s'
  end.

(** [buildLooseRegex(snippet)]: [None] for [null]. *)
Definition buildLooseRegex (snippet : str) : option str :=
  match trim snippet with
  | [] => None
  | trimmed => Some (collapseWhiteSpace (escapeForRegex trimmed))
  end.

Section Locate.
Context {re : RegExpEngine}.

(** [match && match[0]] turned into a span. *)
Definition matchSpan (r : RegExpExec) : option Span :=
  match r with
  | RegExpMatch index (c :: text) =>
      Some {| span_start := index; span_end := index + length (c :: text) |}
  | _ => None
  end.

Definition locateByRegex (content : str) (anchor : AnchorSpec) : option Span :=
  match anchor_regex anchor with
  | Some (c :: r) => matchSpan (regExpExec (c :: r) (js "m") content)
  | _ => None
  end.

Definition locateTrimmed (content exact : str) : option Span :=
  let trimmed := trim exact in
  if negb (eqb trimmed []) && negb (eqb trimmed exact)
  then match indexOf content trimmed with
       | Some index =>
           Some {| span_start := index; span_end := index + length trimmed |}
       | None => None
       end
  else None.

Definition locateLoose (content exact : str) : option Span :=
  match buildLooseRegex exact with
  | Some pattern => matchSpan (regExpExec pattern (js "mi") content)
  | None => None
  end.

Definition locateByExact (content : str) (anchor : AnchorSpec) : option Span :=
  match anchor_exact anchor with
  | Some (c :: e) =>
      let exact := c :: e in
      match indexOf content exact with
      | Some index =>
          Some {| span_start := index; span_end := index + length exact |}
      | None =>
          match locateTrimmed content exact with
          | Some span => Some span
          | None => locateLoose content exact
          end
      end
  | _ => None
  end.

(** [locateAnchor(content, anchor)]: [None] for [null]. *)
Definition locateAnchor (content : str) (anchor : AnchorSpec) : option Span :=
  match locateByRegex content anchor with
  | Some span => Some span
  | None => locateByExact content anchor
  end.

End Locate.
End Anchor.

(** ** Text normalisation and patch sanitation *)

Module Text.
Import JsString.

(** [normalizeJsonText(input, trim)]: the chain of [replace] calls, in
    the order of the source. *)
Definition replaceChar (isOld : N -> bool) (new : N) (s : str) : str :=
  (fun c => if isOld c then new else c) <$> s.

Definition removeChars (isOld : N -> bool) (s : str) : str :=
  filter (fun c => isOld c = false) s.

Definition isDoubleQuoteMark (c : N) : bool := ((c =? 8220) || (c =? 8221))%N.
Definition isSingleQuoteMark (c : N) : bool := ((c =? 8216) || (c =? 8217))%N.
Definition isDash (c : N) : bool := ((c =? 8211) || (c =? 8212))%N.
Definition isZeroWidth (c : N) : bool :=
  ((8203 <=? c) && (c <=? 8205) || (c =? 65279))%N.
Definition isControl (c : N) : bool :=
  ((c <=? 8) || (c =? 11) || (c =? 12) || ((14 <=? c) && (c <=? 31)))%N.

Definition normalizeJsonText (input : str) (trimIt : bool) : str :=
  let cleaned :=
    replaceChar (N.eqb 160) 32
      (replaceChar (N.eqb 9) 32
         (removeChars isControl
            (removeChars isZeroWidth
               (crlfToLf
                  (replaceChar isDash 45
                     (replaceChar isSingleQuoteMark 39
                        (replaceChar isDoubleQuoteMark 34 input))))))) in
  if trimIt then trim cleaned else cleaned.

(** [normalized.length <= maxLength ? normalized : normalized.slice(0, maxLength) + "…"] *)
Definition truncateForError (text : str) (maxLength : nat) : str :=
  let normalized := normalizeJsonText text true in
  if length normalized <=? maxLength then normalized
  else slice normalized 0 maxLength ++ [8230%N].

Definition PATCH_HEADER_PREFIXES : list str :=
  [js "diff --git"; js "index "; js "---"; js "+++"; js "Binary files";
   js "new file mode"; js "deleted file mode"; js "rename from";
   js "rename to"; js "old mode"; js "new mode"].

(** The test of the source's debris pattern: one or more characters,
    each a quote, an apostrophe, a comma, a bracket or a brace. *)
Definition isJsonDebris (s : str) : bool :=
  negb (eqb s []) && forallb (fun c => bool_decide (c ∈ jq "',[]{}" ++ [39%N])) s.

Definition isDiffMarker (c : N) : bool :=
  bool_decide (c ∈ js "+- @\").

Definition hasHeaderPrefix (s : str) : bool :=
  existsb (fun prefix => startsWith s prefix) PATCH_HEADER_PREFIXES.

Definition isQuoted (s : str) : bool :=
  (startsWith s [34%N] && endsWith s [34%N])
  || (startsWith s [39%N] && endsWith s [39%N]).

(** What one line of the patch becomes: dropped, or kept as [text]. *)
Definition sanitizeLine (line : str) : option str :=
  match line with
  | [] => Some line
  | l0 :: _ =>
      let normalizedLine := normalizeJsonText line false in
      let trimmed := trim normalizedLine in
      if isJsonDebris trimmed || eqb trimmed [34%N]
         || eqb trimmed (js "',") || eqb trimmed (jq "',")
      then None
      else
        let firstChar := match normalizedLine with c :: _ => c | [] => l0 end in
        if eqb trimmed [] then
          Some (if startsWith normalizedLine (js " ") then normalizedLine else js " ")
        else if isDiffMarker firstChar then
          Some (firstChar :: sliceFrom normalizedLine 1)
        else if hasHeaderPrefix normalizedLine then Some normalizedLine
        else
          let fallThrough :=
            if bool_decide (trimmed ∈ [js ","; js "["; js "]"; js "{"; js "}"])
            then None
            else Some (if startsWith normalizedLine (js " ") then normalizedLine
                       else js " " ++ normalizedLine) in
          if isQuoted normalizedLine then
            match slice normalizedLine 1 (length normalizedLine - 1) with
            | [] => None
            | (u0 :: _) as unquoted =>
                if isDiffMarker u0 || hasHeaderPrefix unquoted then Some unquoted
                else if isJsonDebris (trim unquoted) then None
                else fallThrough
            end
          else fallThrough
  end.

(** [sanitizePatchArtifacts(patch)]: [changed] is set when a line is
    dropped or differs from what was read. *)
Definition sanitizePatchArtifacts (patch : str) : str :=
  let lines := split LF patch in
  let cleaned := omap sanitizeLine lines in
  let changed :=
    existsb (fun line => match sanitizeLine line with
                         | Some kept => negb (eqb kept line)
                         | None => true
                         end) lines in
  if changed then join [LF] cleaned else patch.

End Text.

(** ** Manual hunk splicing *)

(** What [applyPatchManually] passes to its [log] callback. *)
Inductive ManualLog :=
| LogProcessing (hunkCount : nat)
| LogPositional (oldStart : Z) (index : nat)
| LogCompleted.

Module ManualPatch.
Import JsString.

(** [Math.max(0, Math.min(length, z))] *)
Definition clampIndex (len : nat) (z : Z) : nat :=
  Z.to_nat (Z.max 0 (Z.min (Z.of_nat len) z)).

(** [lines.filter(l => l.startsWith(p1) || l.startsWith(p2)).map(l => l.slice(1))] *)
Definition linesMarked (markers : str) (hunkLines : list str) : list str :=
  (fun line => sliceFrom line 1)
    <$> filter (fun line => existsb (fun m => startsWith line [m]) markers = true)
               hunkLines.

Definition targetLinesOf (h : Hunk) : list str := linesMarked (js " -") (lines h).
Definition replacementLinesOf (h : Hunk) : list str := linesMarked (js " +") (lines h).
Definition removedLinesOf (h : Hunk) : list str := linesMarked (js "-") (lines h).
Definition contextLinesOf (h : Hunk) : list str := linesMarked (js " ") (lines h).

Definition lineEq (useTrimmed : bool) (hay need : str) : bool :=
  if useTrimmed then eqb (trim hay) (trim need) else eqb hay need.

(** [matchesAt(haystack, needle, index, useTrimmed)] *)
Definition matchesAt (haystack needle : list str) (index : nat) (useTrimmed : bool)
  : bool :=
  if length haystack <? index + length needle then false
  else forallb (fun '(hay, need) => lineEq useTrimmed hay need)
               (zip (drop index haystack) needle).

(** The [while] loop of [matchesPartial]: the needle is found, in
    order, among the lines from [j] on. *)
Fixpoint partialLoop (useTrimmed : bool) (needle hay : list str) {struct hay}
  : bool :=
  match needle with
  | [] => true
  | need :: needle' =>
      match hay with
      | [] => false
      | h :: hay' =>
          if lineEq useTrimmed h need then partialLoop useTrimmed needle' hay'
          else partialLoop useTrimmed needle hay'
      end
  end.

(** [matchesPartial(haystack, needle, index, useTrimmed)] *)
Definition matchesPartial (haystack needle : list str) (index : nat)
    (useTrimmed : bool) : bool :=
  match needle with
  | [] => false
  | _ =>
      if length haystack <=? index then false
      else partialLoop useTrimmed needle (drop index haystack)
  end.

(** The loop that fills [candidates]: the indices around [approx],
    nearest first. *)
Fixpoint candidateLoop (rounds delta approx len : nat) (candidates : list nat)
  : list nat :=
  match rounds with
  | 0 => candidates
  | S rounds' =>
      let candidates :=
        if approx + delta <? len then candidates ++ [approx + delta]
        else candidates in
      let candidates :=
        if negb (delta =? 0) && (delta <=? approx)
        then candidates ++ [approx - delta] else candidates in
      if len <? length candidates then candidates
      else candidateLoop rounds' (S delta) approx len candidates
  end.

Definition candidateIndices (approx len : nat) : list nat :=
  candidateLoop (S len) 0 approx len [].

(** [findBestSequenceIndex]: [None] for [-1]. *)
Definition findBestSequenceIndex (haystack needle removed context : list str)
    (oldStart offset : Z) : option nat :=
  let approx := clampIndex (length haystack) (oldStart - 1 + offset) in
  match needle with
  | [] => Some approx
  | _ =>
      let candidates := candidateIndices approx (length haystack) in
      match find (fun c => matchesAt haystack needle c false) candidates with
      | Some c => Some c
      | None =>
      match find (fun c => matchesAt haystack needle c true) candidates with
      | Some c => Some c
      | None =>
      let removedSequence := filter (fun line => trim line <> []) removed in
      match find (fun c => matchesPartial haystack removedSequence c true)
                 candidates with
      | Some c => Some c
      | None =>
      let contextSequence := take (Nat.min (length context) 3) context in
      find (fun c => matchesPartial haystack contextSequence c true) candidates
      end end end
  end.

(** [working.splice(index, deleteCount, ...items)] *)
Definition splice (working : list str) (index deleteCount : nat) (items : list str)
  : list str :=
  take index working ++ items ++ drop (index + deleteCount) working.

(** The state of the splicing loop: the lines, the running offset and
    what was logged. *)
Record ManualState := {
  working : list str;
  offset : Z;
  logged : list ManualLog
}.

(** One turn of the loop over [patch.hunks]. *)
Definition applyHunk (st : ManualState) (hunk : Hunk) : ManualState :=
  let targetLines := targetLinesOf hunk in
  let replacementLines := replacementLinesOf hunk in
  let positional :=
    clampIndex (length (working st)) (oldStart hunk - 1 + offset st) in
  let found :=
    match targetLines with
    | [] => Some positional
    | _ => findBestSequenceIndex (working st) targetLines (removedLinesOf hunk)
             (contextLinesOf hunk) (oldStart hunk) (offset st)
    end in
  let index := match found with Some i => i | None => positional end in
  {| working := splice (working st) index (length targetLines) replacementLines;
     offset := offset st + Z.of_nat (length replacementLines)
               - Z.of_nat (length targetLines);
     logged := logged st ++ match found with
                            | Some _ => []
                            | None => [LogPositional (oldStart hunk) positional]
                            end |}.

(** One turn of the loop over [patches]: the offset starts at zero. *)
Definition applyParsedDiff (st : ManualState) (patch : ParsedDiff) : ManualState :=
  let st' :=
    fold_left applyHunk (hunks patch)
      {| working := working st; offset := 0;
         logged := logged st ++ [LogProcessing (length (hunks patch))] |} in
  {| working := working st'; offset := offset st; logged := logged st' |}.

(** [applyPatchManually(original, patches, log)]: the text ([None] for
    [null]) and the log. *)
Definition applyPatchManually (original : str) (patches : list ParsedDiff)
  : option str * list ManualLog :=
  match patches with
  | [] => (None, [])
  | _ =>
      let st := fold_left applyParsedDiff patches
                  {| working := split LF original; offset := 0; logged := [] |} in
      (Some (join [LF] (working st)), logged st ++ [LogCompleted])
  end.

End ManualPatch.

(** ** The Diff Applier *)

(** One entry of [attempts]. *)
Record Attempt := {
  attempt_source : str;
  attempt_patchString : option str;
  attempt_patchObjects : option (list ParsedDiff);
  attempt_restoreCRLF : bool;
  attempt_fuzz : nat
}.

Module DiffApplier.
Import JsString.

Section WithDiff.
Context {diff : DiffLibrary}.

Definition stringAttempt (source patchString : str) (restoreCRLF : bool) (fuzz : nat)
  : Attempt :=
  {| attempt_source := source; attempt_patchString := Some patchString;
     attempt_patchObjects := None; attempt_restoreCRLF := restoreCRLF;
     attempt_fuzz := fuzz |}.

Definition objectAttempt (source : str) (patchObjects : list ParsedDiff)
    (restoreCRLF : bool) (fuzz : nat) : Attempt :=
  {| attempt_source := source; attempt_patchString := None;
     attempt_patchObjects := Some patchObjects; attempt_restoreCRLF := restoreCRLF;
     attempt_fuzz := fuzz |}.

(** [parsePatch(normalizedVariant)] when it returns a non-empty array. *)
Definition parsedObjects (normalizedVariant : str) : option (list ParsedDiff) :=
  match parsePatch normalizedVariant with
  | Some (p :: ps) => Some (p :: ps)
  | _ => None
  end.

(** The attempts one variant of the patch adds. *)
Definition attemptsFor (original normalizedLFSource : str) (hasCR : bool)
    (variant : str) : list Attempt :=
  let normalizedVariant := if hasCRLF variant then crlfToLf variant else variant in
  [stringAttempt original variant false 0;
   stringAttempt original variant false 2;
   stringAttempt original variant false 4;
   stringAttempt normalizedLFSource normalizedVariant hasCR 0;
   stringAttempt normalizedLFSource normalizedVariant hasCR 2;
   stringAttempt normalizedLFSource normalizedVariant hasCR 4]
  ++ match parsedObjects normalizedVariant with
     | Some patchObjects =>
         [objectAttempt normalizedLFSource patchObjects hasCR 0;
          objectAttempt normalizedLFSource patchObjects hasCR 2;
          objectAttempt normalizedLFSource patchObjects hasCR 4]
     | None => []
     end.

(** The loop over [attempt.patchObjects]: the patched text when every
    object applied, else the error to remember, if one was thrown. *)
Fixpoint applyObjects (result : str) (patchObjects : list ParsedDiff) (fuzz : nat)
  : str + option str :=
  match patchObjects with
  | [] => inl result
  | patchObj :: rest =>
      match applyPatchObject result patchObj fuzz with
      | Patched applied => applyObjects applied rest fuzz
      | PatchRejected => inr None
      | PatchThrew message => inr (Some message)
      end
  end.

Definition restore (restoreCRLF : bool) (text : str) : str :=
  if restoreCRLF then lfToCrlf text else text.

(** The loop over [attempts]: the first text an attempt yields, or the
    last error thrown. *)
Fixpoint runAttempts (attempts : list Attempt) (lastError : option str)
  : str + option str :=
  match attempts with
  | [] => inr lastError
  | attempt :: rest =>
      match attempt_patchString attempt, attempt_patchObjects attempt with
      | Some (c :: p), _ =>
          match applyPatchString (attempt_source attempt) (c :: p)
                  (attempt_fuzz attempt) with
          | Patched applied => inl (restore (attempt_restoreCRLF attempt) applied)
          | PatchRejected => runAttempts rest lastError
          | PatchThrew message => runAttempts rest (Some message)
          end
      | _, Some (o :: os) =>
          match applyObjects (attempt_source attempt) (o :: os)
                  (attempt_fuzz attempt) with
          | inl result => inl (restore (attempt_restoreCRLF attempt) result)
          | inr None => runAttempts rest lastError
          | inr (Some message) => runAttempts rest (Some message)
          end
      | _, _ => runAttempts rest lastError
      end
  end.

(** The last value of [lastPatchObjects] after the loop over the
    variants. *)
Definition lastParsed (variants : list str) : option (list ParsedDiff) :=
  last (omap (fun variant =>
                parsedObjects (if hasCRLF variant then crlfToLf variant else variant))
             variants).

(** [applyUnifiedDiff(original, patch, pathLabel)] *)
Definition applyUnifiedDiff (original patch pathLabel : str) : Outcome str :=
  let trimmed := trim patch in
  let baseNormalized :=
    if startsWith trimmed (js "---") then trimmed
    else js "--- " ++ pathLabel ++ [LF] ++ js "+++ " ++ pathLabel ++ [LF] ++ trimmed in
  let sanitized := Text.sanitizePatchArtifacts baseNormalized in
  let variantSet :=
    if eqb sanitized baseNormalized then [baseNormalized]
    else [baseNormalized; sanitized] in
  let hasCR := hasCRLF original in
  let normalizedLFSource := if hasCR then crlfToLf original else original in
  let attempts := flat_map (attemptsFor original normalizedLFSource hasCR) variantSet in
  match runAttempts attempts None with
  | inl text => Return text
  | inr lastError =>
      match lastParsed variantSet with
      | Some lastPatchObjects =>
          match ManualPatch.applyPatchManually normalizedLFSource lastPatchObjects with
          | (Some manualResult, _) => Return (restore hasCR manualResult)
          | (None, _) => Throw (FailedToApplyPatch pathLabel)
          end
      | None => Throw (FailedToApplyPatch pathLabel)
      end
  end.

End WithDiff.
End DiffApplier.

(** ** The Mutation Orchestrator *)

Inductive AgentStatus := Success | Failure | Skipped.

(** The fields of [AgentResult] the implementer fills in. *)
Record AgentResult := {
  result_agent : str;
  result_status : AgentStatus;
  result_summary : Error + str;
  result_mutations : option (list FileMutation)
}.

Module ImplementerAgent.
Import JsString.

Section WithTools.
Context {re : RegExpEngine} {diff : DiffLibrary}.
Variable cwd : str.
Variable fsTool : FileSystemTool.

(** [action.mode ?? (action.replacement ? "replace" : "insert_after")] *)
Definition modeOf (action : ImplementationAction) : Mode :=
  match action_mode action with
  | Some mode => mode
  | None => if truthy (action_replacement action) then Replace else InsertAfter
  end.

Definition isReplace (mode : Mode) : bool :=
  match mode with Replace => true | _ => false end.

(** The edit of [applyAnchoredModification] at a located span. *)
Definition editAt (original : str) (span : Span) (mode : Mode)
    (action : ImplementationAction) : Outcome str :=
  match mode with
  | Replace =>
      Return (slice original 0 (span_start span)
              ++ orEmpty (action_replacement action)
              ++ sliceFrom original (span_end span))
  | InsertAfter =>
      Return (slice original 0 (span_end span)
              ++ orEmpty (action_snippet action)
              ++ sliceFrom original (span_end span))
  | InsertBefore =>
      Return (slice original 0 (span_start span)
              ++ orEmpty (action_snippet action)
              ++ sliceFrom original (span_start span))
  | OtherMode _ => Throw UnknownMode
  end.

Definition applyAnchoredModification (action : ImplementationAction)
  : IO FileMutation :=
  match action_anchor action with
  | None => throw (AnchorMissing (action_path action))
  | Some anchor =>
      let mode := modeOf action in
      if isReplace mode && negb (isString (action_replacement action))
      then throw ReplacementMissing
      else if negb (isReplace mode) && negb (isString (action_snippet action))
      then throw SnippetMissing
      else
        originalRaw ← FileSystemTool.read cwd fsTool (action_path action);
        let hadCRLF := hasCRLF originalRaw in
        let original := if hadCRLF then crlfToLf originalRaw else originalRaw in
        match Anchor.locateAnchor original anchor with
        | None => throw (UnableToLocateAnchor (action_path action))
        | Some span =>
            updated ← liftOutcome (editAt original span mode action);
            if truthy (action_ensure action)
               && negb (includes updated (orEmpty (action_ensure action)))
            then throw (PostConditionNotMet (action_path action))
            else
              let finalContent := if hadCRLF then lfToCrlf updated else updated in
              FileSystemTool.write cwd fsTool (action_path action) finalContent
        end
  end.

Definition applyPatch (targetPath patch : str) : IO FileMutation :=
  existing ← tryCatch (FileSystemTool.read cwd fsTool targetPath)
                (fun error => throw (ReferencedMissingFile targetPath error));
  updated ← liftOutcome (DiffApplier.applyUnifiedDiff existing patch targetPath);
  FileSystemTool.write cwd fsTool targetPath updated.

(** [typeof action.patch === "string" && action.patch.trim()] *)
Definition patchGiven (action : ImplementationAction) : option str :=
  match action_patch action with
  | Some patch => if eqb (trim patch) [] then None else Some patch
  | None => None
  end.

Definition hasAnchor (action : ImplementationAction) : bool :=
  match action_anchor action with
  | Some anchor => truthy (anchor_exact anchor) || truthy (anchor_regex anchor)
  | None => false
  end.

Definition hasAnchorContent (action : ImplementationAction) : bool :=
  isString (action_snippet action) || isString (action_replacement action).

(** One turn of the loop of [applyActions]: the mutation it pushes. *)
Definition applyAction (action : ImplementationAction) : IO FileMutation :=
  match action_path action with
  | [] => throw ActionMissingPath
  | _ =>
      match action_type action with
      | WriteFile =>
          match action_content action with
          | Some content =>
              FileSystemTool.write cwd fsTool (action_path action) content
          | None => throw WriteFileMissingContent
          end
      | ModifyFile =>
          if hasAnchor action && hasAnchorContent action then
            tryCatch (applyAnchoredModification action)
              (fun anchorError =>
                 match patchGiven action with
                 | Some patch =>
                     tryCatch (applyPatch (action_path action) patch)
                              (fun patchError => throw anchorError)
                 | None => throw anchorError
                 end)
          else
            match patchGiven action with
            | Some patch => applyPatch (action_path action) patch
            | None =>
                match action_content action with
                | Some content =>
                    FileSystemTool.write cwd fsTool (action_path action) content
                | None => throw MissingInstructions
                end
            end
      | DeletePath => FileSystemTool.delete cwd fsTool (action_path action)
      | OtherType name => throw (UnsupportedActionType name)
      end
  end.

(** [applyActions(actions, fsTool)]: [mutations] grows by one entry for
    each action; the first action that throws ends the loop. *)
Fixpoint applyActionsFrom (mutations : list FileMutation)
    (actions : list ImplementationAction) : IO (list FileMutation) :=
  match actions with
  | [] => mret mutations
  | action :: rest =>
      mutation ← applyAction action;
      applyActionsFrom (mutations ++ [mutation]) rest
  end.

Definition applyActions (actions : list ImplementationAction)
  : IO (list FileMutation) :=
  applyActionsFrom [] actions.

(** [run], from the parsed payload on: the actions are applied inside
    the [try]; the [catch] turns an exception into a failed result. *)
Definition runFromPayload (payload : ImplementationPayload)
  : FS -> AgentResult * FS := fun fs =>
  match applyActions (actions payload) fs with
  | (Return mutations, fs') =>
      ({| result_agent := js "implementer";
          result_status := Success;
          result_summary :=
            inr (default (js "Applied implementation actions.") (notes payload));
          result_mutations := Some mutations |}, fs')
  | (Throw error, fs') =>
      ({| result_agent := js "implementer";
          result_status := Failure;
          result_summary := inl error;
          result_mutations := None |}, fs')
  end.

End WithTools.
End ImplementerAgent.

(** ** The Rollback Protocol ([src/ui/App.tsx]) *)

Module Rollback.
Import JsString.

(** [map.set(key, value)] on a [Map], whose entries keep the order in
    which their keys were first set. *)
Fixpoint mapSet (entries : list (str * FileMutation)) (key : str)
    (value : FileMutation) : list (str * FileMutation) :=
  match entries with
  | [] => [(key, value)]
  | (k, v) :: rest =>
      if eqb k key then (k, value) :: rest
      else (k, v) :: mapSet rest key value
  end.

Definition latestByPath (mutations : list FileMutation)
  : list (str * FileMutation) :=
  fold_left (fun entries mutation => mapSet entries (path mutation) mutation)
            mutations [].

(** [Array.from(latestByPath.values()).reverse()] *)
Definition ordered (mutations : list FileMutation) : list FileMutation :=
  rev (snd <$> latestByPath mutations).

Section Process.
Variable cwd : str.

Definition targetOf (workspaceRoot : str) (mutation : FileMutation) : str :=
  Path.resolve cwd [workspaceRoot; path mutation].

Definition restoreFile (target content : str) : IO unit :=
  _ ← Fs.mkdir (Path.dirname target);
  Fs.writeFile target content.

(** The body of the [try] for one mutation. *)
Definition undo (workspaceRoot : str) (mutation : FileMutation) : IO unit :=
  let target := targetOf workspaceRoot mutation in
  match action mutation, before mutation with
  | MWrite, Some content => restoreFile target content
  | MWrite, None => Fs.rm target
  | MDelete, Some content => restoreFile target content
  | MDelete, None => mret tt
  end.

(** One turn of the loop: a failure is logged and the loop goes on. *)
Definition rollbackOne (workspaceRoot : str) (mutation : FileMutation) : IO unit :=
  tryCatch (undo workspaceRoot mutation) (fun error => mret tt).

Fixpoint rollbackAll (workspaceRoot : str) (mutations : list FileMutation)
  : IO unit :=
  match mutations with
  | [] => mret tt
  | mutation :: rest =>
      _ ← rollbackOne workspaceRoot mutation;
      rollbackAll workspaceRoot rest
  end.

(** [rollbackMutations(workspaceRoot, mutations)] *)
Definition rollbackMutations (workspaceRoot : str) (mutations : list FileMutation)
  : IO unit :=
  rollbackAll workspaceRoot (ordered mutations).

(** The end of [runPipeline]: when not in a dry run and the validator
    failed, the applied mutations of all results are rolled back. *)
Definition rollbackAfterValidation (workspaceRoot : str) (dryRun : bool)
    (results : list AgentResult) : IO unit :=
  if dryRun then mret tt
  else
    match find (fun res => eqb (result_agent res) (js "validator")
                           && match result_status res with
                              | Failure => true
                              | _ => false
                              end) results with
    | None => mret tt
    | Some failure =>
        let appliedMutations :=
          filter (fun mutation => applied mutation = true)
            (flat_map (fun res => match result_mutations res with
                                  | Some ms => ms
                                  | None => []
                                  end) results) in
        match appliedMutations with
        | [] => mret tt
        | _ => rollbackMutations workspaceRoot appliedMutations
        end
    end.

End Process.
End Rollback.

(** ** The JSON Recovery Engine *)

(** The state of the bracket scans: inside a string, after a backslash,
    and the brackets still open (the innermost first). *)
Record ScanState := {
  inString : bool;
  escaped : bool;
  stack : list N
}.

(** An attempt of [parseWithRepair]: [JSON.parse(text)] or
    [JSON.parse(jsonrepair(text))]. *)
Inductive ParseAttempt :=
| Direct (text : str)
| Repaired (text : str).

Module JsonRecovery.
Import JsString.

Definition quote : N := 34.
Definition backslash : N := 92.
Definition openBrace : N := 123.
Definition closeBrace : N := 125.
Definition openBracket : N := 91.
Definition closeBracket : N := 93.

Definition closerOf (ch : N) : N :=
  if N.eqb ch openBrace then closeBrace else closeBracket.

(** One turn of the loop of [balanceJson]. *)
Definition scanStep (st : ScanState) (ch : N) : ScanState :=
  if escaped st then
    {| inString := inString st; escaped := false; stack := stack st |}
  else if N.eqb ch backslash then
    {| inString := inString st; escaped := true; stack := stack st |}
  else if N.eqb ch quote then
    {| inString := negb (inString st); escaped := false; stack := stack st |}
  else if inString st then st
  else if N.eqb ch openBrace || N.eqb ch openBracket then
    {| inString := false; escaped := false; stack := ch :: stack st |}
  else if N.eqb ch closeBrace || N.eqb ch closeBracket then
    match stack st with
    | [] => st
    | top :: rest =>
        if (N.eqb top openBrace && N.eqb ch closeBrace)
           || (N.eqb top openBracket && N.eqb ch closeBracket)
        then {| inString := false; escaped := false; stack := rest |}
        else st
    end
  else st.

Definition scanStart : ScanState :=
  {| inString := false; escaped := false; stack := [] |}.

Definition scan (input : str) : ScanState := fold_left scanStep input scanStart.

(** [balanceJson(input)] *)
Definition balanceJson (input : str) : str :=
  match stack (scan input) with
  | [] => input
  | open => input ++ (closerOf <$> open)
  end.

(** The inner loop of [extractBestEffortJson] and of
    [extractJsonCandidates]: the number of characters up to and with
    the brace that brings [depth] back to zero. *)
Fixpoint braceSpan (s : str) (depth : Z) (inStr esc : bool) (seen : nat)
  : option nat :=
  match s with
  | [] => None
  | ch :: s' =>
      if esc then braceSpan s' depth inStr false (S seen)
      else if N.eqb ch backslash then braceSpan s' depth inStr true (S seen)
      else if N.eqb ch quote then braceSpan s' depth (negb inStr) false (S seen)
      else if inStr then braceSpan s' depth inStr false (S seen)
      else if N.eqb ch openBrace then braceSpan s' (depth + 1) inStr false (S seen)
      else if N.eqb ch closeBrace then
        if (depth - 1 =? 0)%Z then Some (S seen)
        else braceSpan s' (depth - 1) inStr false (S seen)
      else braceSpan s' depth inStr false (S seen)
  end.

(** [extractBestEffortJson(raw)]: [None] for [null]. *)
Definition extractBestEffortJson (raw : str) : option str :=
  match indexOf raw [openBrace] with
  | None => None
  | Some start =>
      match braceSpan (drop start raw) 0 false false 0 with
      | Some n => Some (slice raw start (start + n))
      | None => None
      end
  end.

(** The outer loop of [extractJsonCandidates], over the suffixes of
    [raw]. *)
Fixpoint candidatesFrom (s : str) : list str :=
  match s with
  | [] => []
  | ch :: s' =>
      (if N.eqb ch openBrace then
         match braceSpan s 0 false false 0 with
         | Some n =>
             let snippet := take n s in
             if includes snippet (jq "'actions'") then [trim snippet] else []
         | None => []
         end
       else []) ++ candidatesFrom s'
  end.

(** [Array.from(new Set(results))]: the first of equal entries stays. *)
Fixpoint unique (seen results : list str) : list str :=
  match results with
  | [] => []
  | r :: rest =>
      if bool_decide (r ∈ seen) then unique seen rest
      else r :: unique (r :: seen) rest
  end.

(** [sort((a, b) => b.length - a.length)]: longest first, stable. *)
Fixpoint insertByLength (x : str) (sorted : list str) : list str :=
  match sorted with
  | [] => [x]
  | y :: rest =>
      if length y <? length x then x :: sorted
      else y :: insertByLength x rest
  end.

Definition sortByLength (l : list str) : list str :=
  fold_left (fun sorted x => insertByLength x sorted) l [].

Definition extractJsonCandidates (raw : str) : list str :=
  sortByLength (unique [] (candidatesFrom raw)).

(** The fence pattern of [sanitizeJson], three backticks, an optional
    [json] in any case, white space, the captured body and three
    backticks at the end: the body when the text matches. *)
Definition fence : str := js "```".

Definition lower (c : N) : N :=
  if ((65 <=? c) && (c <=? 90))%N then (c + 32)%N else c.

Definition fenceBody (trimmed : str) : option str :=
  if startsWith trimmed fence && endsWith trimmed fence && (6 <=? length trimmed)
  then
    let rest := drop 3 trimmed in
    let rest := if eqb (lower <$> take 4 rest) (js "json") then drop 4 rest else rest in
    let rest := trimStart rest in
    Some (take (length rest - 3) rest)
  else None.

Definition sanitizeJson (raw : str) : str :=
  let trimmed := Text.normalizeJsonText raw true in
  let trimmed :=
    if startsWith trimmed fence
    then match fenceBody trimmed with Some body => body | None => trimmed end
    else trimmed in
  let trimmed :=
    if startsWith trimmed [openBrace] then trimmed
    else match indexOf trimmed [openBrace], lastIndexOf trimmed [closeBrace] with
         | Some first, Some last =>
             if first <=? last then slice trimmed first (last + 1) else trimmed
         | _, _ => trimmed
         end in
  Text.normalizeJsonText trimmed true.

Section WithJson.
Context {parser : JsonParser} {repair : JsonRepair}.

Definition runAttempt (attempt : ParseAttempt) : option json :=
  match attempt with
  | Direct text => jsonParse text
  | Repaired text =>
      match jsonrepair text with
      | Some repaired => jsonParse repaired
      | None => None
      end
  end.

Definition fourAttempts (text : str) : list ParseAttempt :=
  [Direct text; Repaired text; Direct (balanceJson text);
   Repaired (balanceJson text)].

(** The attempts for the entries of [extractJsonCandidates(raw)] that
    [candidateSet] does not hold yet. *)
Fixpoint additionalAttempts (candidateSet items : list str) : list ParseAttempt :=
  match items with
  | [] => []
  | item :: rest =>
      if bool_decide (item ∈ candidateSet)
      then additionalAttempts candidateSet rest
      else fourAttempts item
           ++ additionalAttempts (candidateSet ++ [item; balanceJson item]) rest
  end.

Definition attemptsOf (candidate raw : str) : list ParseAttempt :=
  let balancedCandidate := balanceJson candidate in
  let balancedRaw := balanceJson raw in
  [Direct candidate; Direct balancedCandidate; Repaired candidate;
   Repaired balancedCandidate; Repaired raw; Repaired balancedRaw]
  ++ match extractBestEffortJson raw with
     | Some (c :: e) => fourAttempts (c :: e)
     | _ => []
     end
  ++ additionalAttempts
       ([candidate; balancedCandidate]
        ++ match extractBestEffortJson raw with
           | Some (c :: e) => [c :: e; balanceJson (c :: e)]
           | _ => []
           end)
       (extractJsonCandidates raw).

(** The loop over [attempts]: the first that does not throw. *)
Fixpoint firstParsed (attempts : list ParseAttempt) : option json :=
  match attempts with
  | [] => None
  | attempt :: rest =>
      match runAttempt attempt with
      | Some parsed => Some parsed
      | None => firstParsed rest
      end
  end.

(** [parseWithRepair(candidate, raw)] *)
Definition parseWithRepair (candidate raw : str) : Outcome json :=
  match firstParsed (attemptsOf candidate raw) with
  | Some parsed => Return parsed
  | None => Throw (InvalidJsonAfterRepair (length raw))
  end.

(** [o[key]] of a parsed value: [None] for [undefined]. *)
Definition member (v : json) (key : str) : option json :=
  match v with
  | JObject members => snd <$> find (fun kv => eqb kv.1 key) members
  | _ => None
  end.

(** [{ ...o, [key]: value }] *)
Fixpoint withMember (members : list (str * json)) (key : str) (value : json)
  : list (str * json) :=
  match members with
  | [] => [(key, value)]
  | (k, v) :: rest =>
      if eqb k key then (k, value) :: rest
      else (k, v) :: withMember rest key value
  end.

(** [normalizeAction(action)]: reading [patches] of [null] throws. *)
Definition normalizeAction (action : json) : Outcome (list json) :=
  match action with
  | JNull => Throw TypeErrorOnNull
  | JObject members =>
      match member action (js "patches") with
      | Some (JArray (p :: ps)) =>
          Return ((fun patch => JObject (withMember members (js "patch") patch))
                    <$> (p :: ps))
      | _ => Return [action]
      end
  | _ => Return [action]
  end.

Fixpoint flatMapActions (items : list json) : Outcome (list json) :=
  match items with
  | [] => Return []
  | item :: rest =>
      expanded ← normalizeAction item;
      others ← flatMapActions rest;
      mret (expanded ++ others)
  end.

(** [parsePayload(raw)], on the parsed value. *)
Definition parsePayload (raw : str) : Outcome json :=
  let sanitized := sanitizeJson raw in
  parsed ← parseWithRepair sanitized raw;
  match parsed with
  | JNull => Throw TypeErrorOnNull
  | JObject members =>
      match member parsed (js "actions") with
      | Some (JArray items) =>
          expanded ← flatMapActions items;
          mret (JObject (withMember members (js "actions") (JArray expanded)))
      | _ => Throw MissingActionsArray
      end
  | _ => Throw MissingActionsArray
  end.

End WithJson.
End JsonRecovery.

(** ** The tokens of a JSON text

    A JSON text (ECMA-404) is a sequence of tokens with white space
    (space, tab, line feed, carriage return) allowed between them: the
    six structural characters, strings, and numbers and literal names.
    The lexer below cuts any text into such tokens: a string runs from
    its quote to the next quote that no backslash escapes, and a run of
    other characters is one word. *)

Module JsonText.

Inductive Token :=
| Punct (c : N)
| Str (body : str) (closed : bool)
| Word (text : str).

#[global] Instance Token_eq_dec : EqDecision Token.
Proof. solve_decision. Defined.

Definition isSpace (c : N) : bool :=
  ((c =? 32) || (c =? 9) || (c =? 10) || (c =? 13))%N.

Definition isPunct (c : N) : bool := bool_decide (c ∈ js "{}[]:,").

Inductive Mode := Between | InWord | InString | InEscape.

(** The tokens a character completes, and where the lexer is after
    it. *)
Definition lexStep (mode : Mode) (acc : str) (c : N) : list Token * Mode * str :=
  match mode with
  | Between =>
      if isSpace c then ([], Between, [])
      else if isPunct c then ([Punct c], Between, [])
      else if (c =? 34)%N then ([], InString, [])
      else ([], InWord, [c])
  | InWord =>
      if isSpace c then ([Word acc], Between, [])
      else if isPunct c then ([Word acc; Punct c], Between, [])
      else if (c =? 34)%N then ([Word acc], InString, [])
      else ([], InWord, acc ++ [c])
  | InString =>
      if (c =? 34)%N then ([Str acc true], Between, [])
      else if (c =? 92)%N then ([], InEscape, acc ++ [c])
      else ([], InString, acc ++ [c])
  | InEscape => ([], InString, acc ++ [c])
  end.

(** What the end of the text completes. *)
Definition lexEnd (mode : Mode) (acc : str) : list Token :=
  match mode with
  | Between => []
  | InWord => [Word acc]
  | InString | InEscape => [Str acc false]
  end.

Fixpoint lexFrom (mode : Mode) (acc : str) (s : str) : list Token :=
  match s with
  | [] => lexEnd mode acc
  | c :: s' =>
      let '(out, mode', acc') := lexStep mode acc c in
      out ++ lexFrom mode' acc' s'
  end.

Definition lex (s : str) : list Token := lexFrom Between [] s.

End JsonText.

(** ** Reference implementations of the interfaces

    [JSON.parse] after ECMA-404, a parser of the tokens of the text,
    and [RegExp] for the patterns made of literal characters, escaped
    punctuation and [\s+] (the patterns [buildLooseRegex] produces).
    They let the embedded code run on concrete inputs. *)

Module Reference.
Import JsString.

(** *** [JSON.parse] *)

Definition isDigit (c : N) : bool := ((48 <=? c) && (c <=? 57))%N.

Definition hexValue (c : N) : option N :=
  if isDigit c then Some (c - 48)%N
  else if ((97 <=? c) && (c <=? 102))%N then Some (c - 87)%N
  else if ((65 <=? c) && (c <=? 70))%N then Some (c - 55)%N
  else None.

Definition hex4 (a b c d : N) : option N :=
  match hexValue a, hexValue b, hexValue c, hexValue d with
  | Some x, Some y, Some z, Some w => Some (((x * 16 + y) * 16 + z) * 16 + w)%N
  | _, _, _, _ => None
  end.

(** The character an escape stands for. *)
Definition unescape (e : N) : option N :=
  if (e =? 34)%N then Some 34%N
  else if (e =? 92)%N then Some 92%N
  else if (e =? 47)%N then Some 47%N
  else if (e =? 98)%N then Some 8%N
  else if (e =? 102)%N then Some 12%N
  else if (e =? 110)%N then Some 10%N
  else if (e =? 114)%N then Some 13%N
  else if (e =? 116)%N then Some 9%N
  else None.

(** A string, from after its opening quote: its value and the rest. *)
Fixpoint parseStringBody (s : str) (acc : str) : option (str * str) :=
  match s with
  | [] => None
  | c :: s' =>
      if (c =? 34)%N then Some (rev acc, s')
      else if (c =? 92)%N then
        match s' with
        | e :: s'' =>
            if (e =? 117)%N then
              match s'' with
              | h1 :: h2 :: h3 :: h4 :: s3 =>
                  match hex4 h1 h2 h3 h4 with
                  | Some v => parseStringBody s3 (v :: acc)
                  | None => None
                  end
              | _ => None
              end
            else match unescape e with
                 | Some v => parseStringBody s'' (v :: acc)
                 | None => None
                 end
        | [] => None
        end
      else if (c <? 32)%N then None
      else parseStringBody s' (c :: acc)
  end.

Fixpoint takeDigits (s : str) : str * str :=
  match s with
  | c :: s' =>
      if isDigit c then let '(ds, r) := takeDigits s' in (c :: ds, r) else ([], s)
  | [] => ([], [])
  end.

(** A number: its lexeme and the rest. *)
Definition parseNumber (s : str) : option (str * str) :=
  let '(sign, s1) :=
    match s with
    | 45%N :: r => ([45%N], r)
    | _ => ([], s)
    end in
  let '(int, s2) := takeDigits s1 in
  match int with
  | [] => None
  | d :: ds =>
      if (d =? 48)%N && negb (eqb ds []) then None
      else
        let '(frac, s3) :=
          match s2 with
          | 46%N :: r => let '(fs, r') := takeDigits r in (46%N :: fs, r')
          | _ => ([], s2)
          end in
        if eqb frac [46%N] then None
        else
          let '(exp, s4) :=
            match s3 with
            | e :: r =>
                if ((e =? 101) || (e =? 69))%N then
                  let '(sg, r1) :=
                    match r with
                    | x :: r' => if ((x =? 43) || (x =? 45))%N then ([x], r')
                                 else ([], r)
                    | [] => ([], r)
                    end in
                  let '(es, r2) := takeDigits r1 in
                  (e :: sg ++ es, match es with [] => [] | _ => r2 end)
                else ([], s3)
            | [] => ([], s3)
            end in
          match exp with
          | [_] | [_; 43%N] | [_; 45%N] => None
          | _ => Some (sign ++ int ++ frac ++ exp, s4)
          end
  end.

(** [o[key] = value] on the members read so far. *)
Fixpoint setMember (members : list (str * json)) (key : str) (value : json)
  : list (str * json) :=
  match members with
  | [] => [(key, value)]
  | (k, v) :: rest =>
      if eqb k key then (k, value) :: rest
      else (k, v) :: setMember rest key value
  end.

Fixpoint parseValue (fuel : nat) (toks : list JsonText.Token)
  : option (json * list JsonText.Token) :=
  match fuel with
  | 0 => None
  | S fuel =>
      match toks with
      | JsonText.Punct c :: r =>
          if (c =? 123)%N then
            match r with
            | JsonText.Punct 125%N :: r' => Some (JObject [], r')
            | _ => parseMembers fuel r []
            end
          else if (c =? 91)%N then
            match r with
            | JsonText.Punct 93%N :: r' => Some (JArray [], r')
            | _ => parseElements fuel r []
            end
          else None
      | JsonText.Str body true :: r =>
          match parseStringBody (body ++ [34%N]) [] with
          | Some (v, []) => Some (JString v, r)
          | _ => None
          end
      | JsonText.Word w :: r =>
          if eqb w (js "true") then Some (JBool true, r)
          else if eqb w (js "false") then Some (JBool false, r)
          else if eqb w (js "null") then Some (JNull, r)
          else match parseNumber w with
               | Some (lexeme, []) => Some (JNumber lexeme, r)
               | _ => None
               end
      | _ => None
      end
  end
with parseElements (fuel : nat) (toks : list JsonText.Token) (acc : list json)
  : option (json * list JsonText.Token) :=
  match fuel with
  | 0 => None
  | S fuel =>
      match parseValue fuel toks with
      | Some (v, r) =>
          match r with
          | JsonText.Punct 44%N :: r' => parseElements fuel r' (v :: acc)
          | JsonText.Punct 93%N :: r' => Some (JArray (rev (v :: acc)), r')
          | _ => None
          end
      | None => None
      end
  end
with parseMembers (fuel : nat) (toks : list JsonText.Token)
    (acc : list (str * json)) : option (json * list JsonText.Token) :=
  match fuel with
  | 0 => None
  | S fuel =>
      match toks with
      | JsonText.Str body true :: JsonText.Punct 58%N :: r2 =>
          match parseStringBody (body ++ [34%N]) [] with
          | Some (key, []) =>
              match parseValue fuel r2 with
              | Some (v, r3) =>
                  match r3 with
                  | JsonText.Punct 44%N :: r4 =>
                      parseMembers fuel r4 (setMember acc key v)
                  | JsonText.Punct 125%N :: r4 =>
                      Some (JObject (setMember acc key v), r4)
                  | _ => None
                  end
              | None => None
              end
          | _ => None
          end
      | _ => None
      end
  end.

(** Each recursive call reads at least one token, so the number of
    tokens bounds the depth of the recursion. *)
Definition parseTokens (toks : list JsonText.Token) : option json :=
  match parseValue (length toks + 2) toks with
  | Some (v, []) => Some v
  | _ => None
  end.

Definition parseJson (text : str) : option json :=
  parseTokens (JsonText.lex text).

Definition JsonParse : JsonParser := parseJson.

(** *** [RegExp] on literal patterns *)

Inductive Token :=
| TChar (c : N)
| TSpaces.

(** The tokens of a pattern, when it is made of literal ASCII
    characters, escaped punctuation and [\s+] only. *)
Fixpoint tokens (pattern : str) : option (list Token) :=
  match pattern with
  | [] => Some []
  | c :: p =>
      if (c =? 92)%N then
        match p with
        | e :: p' =>
            if Anchor.isRegexMeta e then cons (TChar e) <$> tokens p'
            else if (e =? 115)%N then
              match p' with
              | 43%N :: p'' => cons TSpaces <$> tokens p''
              | _ => None
              end
            else None
        | [] => None
        end
      else if Anchor.isRegexMeta c && negb (bool_decide (c ∈ js "-/")) then None
      else if (128 <=? c)%N then None
      else cons (TChar c) <$> tokens p
  end.

Definition upper (c : N) : N :=
  if ((97 <=? c) && (c <=? 122))%N then (c - 32)%N else c.

Definition charEq (ignoreCase : bool) (a b : N) : bool :=
  if ignoreCase then (upper a =? upper b)%N else (a =? b)%N.

(** The length of the match of [toks] at the start of [s], the white
    space runs as long as the rest of the pattern allows. *)
Fixpoint matchHere (ignoreCase : bool) (toks : list Token) (s : str) : option nat :=
  match toks with
  | [] => Some 0
  | TChar c :: toks' =>
      match s with
      | x :: s' => if charEq ignoreCase c x then S <$> matchHere ignoreCase toks' s'
                   else None
      | [] => None
      end
  | TSpaces :: toks' =>
      (fix spaces (s : str) : option nat :=
         match s with
         | x :: s' =>
             if isWhiteSpace x then
               match spaces s' with
               | Some n => Some (S n)
               | None => S <$> matchHere ignoreCase toks' s'
               end
             else None
         | [] => None
         end) s
  end.

Fixpoint execFrom (ignoreCase : bool) (toks : list Token) (s : str) (index : nat)
  : RegExpExec :=
  match matchHere ignoreCase toks s with
  | Some n => RegExpMatch index (take n s)
  | None =>
      match s with
      | [] => RegExpNoMatch
      | _ :: s' => execFrom ignoreCase toks s' (S index)
      end
  end.

(** Patterns outside the fragment are answered as patterns that do not
    compile; nothing below runs the engine on one. *)
Definition literalExec (source flags input : str) : RegExpExec :=
  match tokens source with
  | Some toks => execFrom (bool_decide (105%N ∈ flags)) toks input 0
  | None => RegExpSyntaxError
  end.

Definition LiteralRegExp : RegExpEngine := literalExec.

End Reference.

(** ** The other agents, as far as they touch the disk or the rollback *)

(** [ValidatorAgent.run] when the validation command fails: the result
    its [catch] returns, with the error message as summary. *)
Definition validatorFailure (summary : str) : AgentResult :=
  {| result_agent := js "validator"; result_status := Failure;
     result_summary := inr summary; result_mutations := None |}.

(** ** The test generator ([src/agents/test-generator-agent.ts]) *)

Record TestSpec := {
  spec_path : str;
  spec_content : str;
  spec_framework : str;
  spec_coverage : list str
}.

Record TestPayload := {
  tests : list TestSpec;
  summary : str
}.

(** A number in a template string: its decimal digits. *)
Fixpoint digits (d : Decimal.uint) : str :=
  match d with
  | Decimal.Nil => []
  | Decimal.D0 d => 48%N :: digits d
  | Decimal.D1 d => 49%N :: digits d
  | Decimal.D2 d => 50%N :: digits d
  | Decimal.D3 d => 51%N :: digits d
  | Decimal.D4 d => 52%N :: digits d
  | Decimal.D5 d => 53%N :: digits d
  | Decimal.D6 d => 54%N :: digits d
  | Decimal.D7 d => 55%N :: digits d
  | Decimal.D8 d => 56%N :: digits d
  | Decimal.D9 d => 57%N :: digits d
  end.

Definition decimal (n : nat) : str := digits (Nat.to_uint n).

Module TestGeneratorAgent.

Section WithTool.
Variable cwd : str.
Variable fsTool : FileSystemTool.

(** The body of the loop over [payload.tests]: a write that throws is
    reported with [console.warn] and the loop goes on. *)
Definition writeTest (test : TestSpec) : IO unit :=
  tryCatch (_ ← FileSystemTool.write cwd fsTool (spec_path test) (spec_content test);
            mret tt)
           (fun error => mret tt).

Fixpoint writeTests (tests : list TestSpec) : IO unit :=
  match tests with
  | [] => mret tt
  | test :: rest =>
      _ ← writeTest test;
      writeTests rest
  end.

(** [run], from the parsed payload on: the test files are written and
    a result without mutations is returned. *)
Definition runFromPayload (payload : TestPayload) : FS -> AgentResult * FS :=
  fun fs =>
    let '(_, fs') := writeTests (tests payload) fs in
    ({| result_agent := js "test-generator";
        result_status := Success;
        result_summary :=
          inr (js "Generated " ++ decimal (length (tests payload))
               ++ js " test file(s): " ++ summary payload);
        result_mutations := None |}, fs').

End WithTool.
End TestGeneratorAgent.

(** ** Sample workspace *)

Definition ws : FileSystemTool := FileSystemTool.new (js "/") (js "/w") false None.
Definition disk0 : FS := {[ [js "w"; js "a.txt"] := js "hello" ]}.

Definition written (p : str) (old : option str) (new : str) : FileMutation :=
  {| action := MWrite; path := p; preview := Some new; before := old;
     after := Some new; applied := true; reason := None |}.

Definition deleted (p : str) (old : option str) : FileMutation :=
  {| action := MDelete; path := p; preview := None; before := old;
     after := None; applied := true; reason := None |}.

(** An anchored edit of [a.txt] whose anchor is not in the file. *)
Definition anchorEdit : ImplementationAction :=
  {| action_type := ModifyFile; action_path := js "a.txt";
     action_content := None; action_patch := None; action_patches := None;
     action_mode := Some Replace;
     action_anchor := Some {| anchor_exact := Some (js "goodbye");
                              anchor_regex := None;
                              anchor_description := None |};
     action_replacement := Some (js "bye");
     action_snippet := None; action_ensure := None |}.

(** A [diff] package that applies nothing, for actions without a patch. *)
Definition noDiff : DiffLibrary :=
  {| applyPatchString := fun _ _ _ => PatchRejected;
     applyPatchObject := fun _ _ _ => PatchRejected;
     parsePatch := fun _ => None |}.

(** A plain write of a new file. *)
Definition writeB : ImplementationAction :=
  {| action_type := WriteFile; action_path := js "b.txt";
     action_content := Some (js "x"); action_patch := None;
     action_patches := None; action_mode := None; action_anchor := None;
     action_replacement := None; action_snippet := None;
     action_ensure := None |}.


Example path_join_escape :
  Path.join [js "/w"; js "../outside.txt"] = js "/outside.txt".
Proof. reflexivity. Qed.

Example path_relative_sibling :
  Path.relative (js "/") (js "/root") (js "/root2/a") = js "../root2/a".
Proof. reflexivity. Qed.

Example path_relative_inside :
  Path.relative (js "/") (js "/w") (js "/w/src/a.ts") = js "src/a.ts".
Proof. reflexivity. Qed.

Example path_normalize_trailing :
  Path.normalize (js "/w//a/./b/../c/") = js "/w/a/c/".
Proof. reflexivity. Qed.

Example path_resolve_relative :
  Path.resolve (js "/home/u") [js "ws"; js "a/../b.txt"] = js "/home/u/ws/b.txt".
Proof. reflexivity. Qed.

(** * Properties

    ** Strings *)

Import JsString.

Lemma startsWith_spec (s p : str) : startsWith s p = true <-> exists r, s = p ++ r.
Proof.
  revert s; induction p as [|c p IH]; intros s; simpl.
  - split; [eauto | done].
  - destruct s as [|d s]; simpl.
    + split; [done | intros [r Hr]; done].
    + rewrite andb_true_iff, IH, N.eqb_eq. split.
      * intros [-> [r ->]]. eauto.
      * intros [r Hr]. injection Hr as -> ->. eauto.
Qed.

Lemma eqb_true (a b : str) : eqb a b = true <-> a = b.
Proof. unfold eqb. apply bool_decide_eq_true. Qed.

Lemma eqb_false (a b : str) : eqb a b = false <-> a <> b.
Proof. unfold eqb. apply bool_decide_eq_false. Qed.

Lemma eqb_refl (a : str) : eqb a a = true.
Proof. by apply eqb_true. Qed.

Lemma split_nonempty c s : split c s <> [].
Proof.
  destruct s as [|x s]; simpl; [done|].
  destruct (N.eqb x c); [done|]. by destruct (split c s).
Qed.

Lemma split_app c (a b : str) : split c (a ++ c :: b) = split c a ++ split c b.
Proof.
  induction a as [|x a IH]; simpl.
  - by rewrite N.eqb_refl.
  - destruct (N.eqb x c); [by rewrite IH|].
    rewrite IH. pose proof (split_nonempty c a).
    by destruct (split c a).
Qed.

Lemma split_sepfree c (a : str) : c ∉ a -> split c a = [a].
Proof.
  induction a as [|x a IH]; simpl; [done|].
  intros Hn. apply not_elem_of_cons in Hn as [Hx Ha].
  destruct (N.eqb_spec x c); [congruence|]. by rewrite IH.
Qed.

Lemma split_sepfree_all c s : Forall (fun seg => c ∉ seg) (split c s).
Proof.
  induction s as [|x s IH]; simpl.
  - repeat constructor. by apply not_elem_of_nil.
  - destruct (N.eqb_spec x c).
    + constructor; [apply not_elem_of_nil | done].
    + destruct (split c s) as [|seg rest]; simpl.
      * repeat constructor. by apply not_elem_of_cons; split; [congruence | apply not_elem_of_nil].
      * inversion IH; subst. constructor; [|done].
        apply not_elem_of_cons. split; [congruence | done].
Qed.

Lemma split_join c (segs : list str) :
  segs <> [] -> Forall (fun seg => c ∉ seg) segs -> split c (join [c] segs) = segs.
Proof.
  induction segs as [|a segs IH]; [done|]. intros _ Hall.
  inversion Hall as [|? ? Ha Hrest]; subst.
  destruct segs as [|b segs].
  - simpl. by apply split_sepfree.
  - change (join [c] (a :: b :: segs)) with (a ++ c :: join [c] (b :: segs)).
    rewrite split_app, split_sepfree by done. simpl. f_equal. by apply IH.
Qed.

(** ** Paths *)

(** A segment of a normalized absolute path. *)
Definition cleanSeg (s : str) : Prop :=
  s <> [] /\ s <> Path.dot /\ s <> Path.dotdot /\ Path.sep ∉ s.

(** An absolute path in normal form, without a trailing separator. *)
Definition canonical (p : str) : Prop :=
  exists segs, Forall cleanSeg segs /\ p = Path.sep :: join [Path.sep] segs.

Lemma normalizeStep_clean seg res :
  Path.sep ∉ seg -> Forall cleanSeg res ->
  Forall cleanSeg (Path.normalizeStep false res seg).
Proof.
  intros Hsep Hres. unfold Path.normalizeStep.
  destruct (eqb seg []) eqn:E1; simpl; [done|].
  destruct (eqb seg Path.dot) eqn:E2; simpl; [done|].
  destruct (eqb seg Path.dotdot) eqn:E3.
  - destruct res as [|top rest]; [done|].
    destruct (eqb top Path.dotdot); [done|]. by inversion Hres.
  - constructor; [|done].
    apply eqb_false in E1, E2, E3. done.
Qed.

Lemma normalize_fold_clean segs res :
  Forall (fun s => Path.sep ∉ s) segs -> Forall cleanSeg res ->
  Forall cleanSeg (fold_left (Path.normalizeStep false) segs res).
Proof.
  revert res; induction segs as [|s segs IH]; intros res Hs Hres; simpl; [done|].
  inversion Hs; subst. apply IH; [done|]. by apply normalizeStep_clean.
Qed.

Lemma normalizeSegments_clean segs :
  Forall (fun s => Path.sep ∉ s) segs ->
  Forall cleanSeg (Path.normalizeSegments false segs).
Proof.
  intros H. unfold Path.normalizeSegments. apply Forall_rev.
  by apply normalize_fold_clean.
Qed.

Lemma key_clean p : Forall cleanSeg (Fs.key p).
Proof. apply normalizeSegments_clean, split_sepfree_all. Qed.

Lemma normalizeStep_id b seg res :
  cleanSeg seg -> Path.normalizeStep b res seg = seg :: res.
Proof.
  intros (H1 & H2 & H3 & _). unfold Path.normalizeStep.
  apply eqb_false in H1, H2, H3. by rewrite H1, H2, H3.
Qed.

Lemma normalize_fold_id b segs res :
  Forall cleanSeg segs ->
  fold_left (Path.normalizeStep b) segs res = rev segs ++ res.
Proof.
  revert res; induction segs as [|s segs IH]; intros res Hs; simpl; [done|].
  inversion Hs; subst. rewrite normalizeStep_id, IH by done.
  by rewrite <- app_assoc.
Qed.

Lemma normalizeSegments_id b segs :
  Forall cleanSeg segs -> Path.normalizeSegments b segs = segs.
Proof.
  intros H. unfold Path.normalizeSegments.
  rewrite normalize_fold_id, app_nil_r by done. apply rev_involutive.
Qed.

Lemma normalize_fold_app b l1 l2 res :
  fold_left (Path.normalizeStep b) (l1 ++ l2) res
  = fold_left (Path.normalizeStep b) l2 (fold_left (Path.normalizeStep b) l1 res).
Proof. apply fold_left_app. Qed.

Lemma normalizeSegments_empty_r b l :
  Path.normalizeSegments b (l ++ [[]]) = Path.normalizeSegments b l.
Proof. unfold Path.normalizeSegments. by rewrite fold_left_app. Qed.

Lemma normalizeSegments_empty_l b l :
  Path.normalizeSegments b ([] :: l) = Path.normalizeSegments b l.
Proof. done. Qed.

Lemma segments_cons_sep p : Path.segments (Path.sep :: p) = [] :: Path.segments p.
Proof. done. Qed.

Lemma segments_snoc_sep p :
  Path.segments (p ++ [Path.sep]) = Path.segments p ++ [[]].
Proof. unfold Path.segments. by rewrite split_app. Qed.

Lemma segments_join (segs : list str) :
  Forall cleanSeg segs ->
  filter (fun s => s <> []) (Path.segments (join [Path.sep] segs)) = segs.
Proof.
  intros H. destruct segs as [|a segs]; [done|].
  unfold Path.segments. rewrite split_join; [|done|].
  - induction H as [|x l Hx Hl IH]; [done|].
    rewrite filter_cons_True by apply Hx. by rewrite IH.
  - eapply Forall_impl; [done|]. by intros x (_ & _ & _ & ?).
Qed.

Lemma key_canonical (segs : list str) :
  Forall cleanSeg segs -> Fs.key (Path.sep :: join [Path.sep] segs) = segs.
Proof.
  intros H. unfold Fs.key. rewrite segments_cons_sep, normalizeSegments_empty_l.
  destruct segs as [|a segs]; [done|].
  unfold Path.segments. rewrite split_join; [by apply normalizeSegments_id|done|].
  eapply Forall_impl; [done|]. by intros x (_ & _ & _ & ?).
Qed.

Lemma canonical_key p : canonical p -> p = Path.sep :: join [Path.sep] (Fs.key p).
Proof. intros (segs & H & ->). by rewrite key_canonical. Qed.

Lemma canonical_absolute p : canonical p -> Path.isAbsolute p = true.
Proof. intros (segs & H & ->). done. Qed.

Lemma isAbsolute_cons p : Path.isAbsolute p = true -> exists q, p = Path.sep :: q.
Proof.
  destruct p as [|c q]; [done|]. simpl. intros ->%N.eqb_eq. eauto.
Qed.
Lemma key_snoc_sep p : Fs.key (p ++ [Path.sep]) = Fs.key p.
Proof. unfold Fs.key. by rewrite segments_snoc_sep, normalizeSegments_empty_r. Qed.

Lemma join_nil_clean (segs : list str) :
  Forall cleanSeg segs -> join [Path.sep] segs = [] -> segs = [].
Proof.
  intros H. destruct segs as [|a segs]; [done|].
  inversion H as [|? ? (Ha & _) _]; subst.
  destruct a; [done|]. by destruct segs.
Qed.

(** [path.resolve] of one absolute path. *)
Lemma resolve_absolute cwd p :
  Path.isAbsolute p = true ->
  Path.resolve cwd [p] = Path.sep :: join [Path.sep] (Fs.key p).
Proof.
  intros Habs. unfold Path.resolve. simpl.
  destruct p as [|c q]; [done|]. simpl in Habs. simpl Path.isAbsolute.
  rewrite Habs. unfold Path.normalizeString.
  change (c :: q ++ Path.sep :: []) with ((c :: q) ++ [Path.sep]).
  by rewrite segments_snoc_sep, normalizeSegments_empty_r.
Qed.

Lemma resolve_canonical cwd r :
  Path.isAbsolute cwd = true -> canonical (Path.resolve cwd [r]).
Proof.
  intros Hcwd. unfold Path.resolve. simpl.
  destruct cwd as [|c0 cwd']; [done|]. simpl in Hcwd.
  assert (forall x, canonical (Path.sep :: Path.normalizeString x false)) as Hc.
  { intros x. eexists. split; [|done]. apply normalizeSegments_clean, split_sepfree_all. }
  destruct r as [|c q]; simpl.
  - rewrite Hcwd. apply Hc.
  - destruct (N.eqb c Path.sep); [apply Hc|]. rewrite Hcwd. apply Hc.
Qed.

(** [path.normalize] keeps an absolute path absolute and leaves the
    file it names unchanged. *)
Lemma normalize_absolute p :
  Path.isAbsolute p = true ->
  exists tail, (tail = [] \/ tail = [Path.sep]) /\
    Path.normalize p = Path.sep :: join [Path.sep] (Fs.key p) ++ tail.
Proof.
  intros Habs. unfold Path.normalize.
  destruct p as [|c q]; [done|]. rewrite Habs. simpl negb.
  unfold Path.normalizeString. fold (Fs.key (c :: q)).
  destruct (join [Path.sep] (Fs.key (c :: q))) as [|b body] eqn:E.
  - exists []. split; [by left|]. done.
  - destruct (endsWith (c :: q) [Path.sep]).
    + exists [Path.sep]. split; [by right|]. done.
    + exists []. split; [by left|]. by rewrite app_nil_r.
Qed.

Lemma normalize_absolute_abs p :
  Path.isAbsolute p = true -> Path.isAbsolute (Path.normalize p) = true.
Proof. intros H. by destruct (normalize_absolute p H) as (tail & _ & ->). Qed.

Lemma key_normalize p :
  Path.isAbsolute p = true -> Fs.key (Path.normalize p) = Fs.key p.
Proof.
  intros H. destruct (normalize_absolute p H) as (tail & [-> | ->] & ->).
  - rewrite app_nil_r. apply key_canonical, key_clean.
  - change (Path.sep :: join [Path.sep] (Fs.key p) ++ [Path.sep])
      with ((Path.sep :: join [Path.sep] (Fs.key p)) ++ [Path.sep]).
    rewrite key_snoc_sep. apply key_canonical, key_clean.
Qed.

Lemma dropCommon_refl a : Path.dropCommon a a = ([], []).
Proof. induction a as [|x a IH]; simpl; [done|]. by rewrite eqb_refl. Qed.

Lemma dropCommon_prefix a b up down :
  Path.dropCommon a b = (up, down) -> (up = [] <-> a `prefix_of` b).
Proof.
  revert b; induction a as [|x a IH]; intros b; simpl.
  - intros [= <- <-]. split; [intros _; apply prefix_nil | done].
  - destruct b as [|y b].
    + intros [= <- <-]. split; [done|]. intros H. by apply prefix_nil_inv in H.
    + destruct (eqb x y) eqn:E.
      * apply eqb_true in E as ->. intros H. rewrite (IH _ H).
        split; [apply prefix_cons | apply prefix_cons_inv_2].
      * apply eqb_false in E. intros [= <- <-]. split; [done|].
        intros H. by apply prefix_cons_inv_1 in H.
Qed.

Lemma dropCommon_app a b up down :
  Path.dropCommon a b = (up, down) ->
  exists common, a = common ++ up /\ b = common ++ down.
Proof.
  revert b; induction a as [|x a IH]; intros b; simpl.
  - intros [= <- <-]. by exists [].
  - destruct b as [|y b].
    + intros [= <- <-]. by exists [].
    + destruct (eqb x y) eqn:E.
      * apply eqb_true in E as ->. intros H.
        destruct (IH _ H) as (c & -> & ->). by exists (y :: c).
      * intros [= <- <-]. by exists [].
Qed.

(** [path.relative] from a canonical directory to an absolute path is
    computed on the segments of the two. *)
Lemma relative_segments cwd root n :
  canonical root -> Path.isAbsolute n = true ->
  Path.relative cwd root n =
    let '(up, down) := Path.dropCommon (Fs.key root) (Fs.key n) in
    join [Path.sep] (replicate (length up) Path.dotdot ++ down).
Proof.
  intros Hroot Hn. unfold Path.relative.
  destruct (eqb root n) eqn:E.
  { apply eqb_true in E as <-. by rewrite dropCommon_refl. }
  rewrite !resolve_absolute by (done || by apply canonical_absolute).
  destruct (eqb (Path.sep :: _) _) eqn:E2.
  { apply eqb_true in E2.
    assert (Fs.key root = Fs.key n) as ->.
    { rewrite <- (key_canonical (Fs.key root)), <- (key_canonical (Fs.key n))
        by apply key_clean. by rewrite E2. }
    by rewrite dropCommon_refl. }
  rewrite !segments_cons_sep.
  rewrite !filter_cons_False by (by intros H; apply H).
  by rewrite !segments_join by apply key_clean.
Qed.

Lemma startsWith_join_dotdot n (down : list str) :
  startsWith (join [Path.sep] (replicate (S n) Path.dotdot ++ down)) (js "..") = true.
Proof.
  simpl. by destruct (replicate n Path.dotdot ++ down).
Qed.

(** ** The Workspace Guard *)

(** The normalized target lies outside the workspace: the workspace
    root is not one of the directories on the way to it. *)
Definition outsideWorkspace (t : FileSystemTool) (targetPath : str) : Prop :=
  ~ Fs.key (root t)
      `prefix_of` Fs.key (Path.normalize (FileSystemTool.candidate t targetPath)).

Lemma join_root_absolute r p :
  Path.isAbsolute r = true -> Path.isAbsolute (Path.join [r; p]) = true.
Proof.
  intros Hr. destruct (isAbsolute_cons r Hr) as (q & ->).
  unfold Path.join. rewrite filter_cons_True by done.
  destruct p as [|c p'].
  - rewrite filter_cons_False by (by intros H; apply H). simpl filter.
    by apply normalize_absolute_abs.
  - rewrite filter_cons_True by done. by apply normalize_absolute_abs.
Qed.

Lemma candidate_absolute t p :
  canonical (root t) -> Path.isAbsolute (FileSystemTool.candidate t p) = true.
Proof.
  intros Hr. unfold FileSystemTool.candidate.
  destruct (Path.isAbsolute p) eqn:E; [done|].
  by apply join_root_absolute, canonical_absolute.
Qed.

Lemma normalized_absolute t p :
  canonical (root t) ->
  Path.isAbsolute (Path.normalize (FileSystemTool.candidate t p)) = true.
Proof. intros H. by apply normalize_absolute_abs, candidate_absolute. Qed.

Lemma resolve_outside cwd t p :
  canonical (root t) -> outsideWorkspace t p ->
  FileSystemTool.resolve cwd t p = Throw (PathEscapesWorkspace p).
Proof.
  intros Hroot Hout. unfold FileSystemTool.resolve.
  rewrite relative_segments by (done || by apply normalized_absolute).
  destruct (Path.dropCommon _ _) as [up down] eqn:E.
  destruct up as [|u up].
  - exfalso. apply Hout. by apply (dropCommon_prefix _ _ _ _ E).
  - change (length (u :: up)) with (S (length up)).
    by rewrite startsWith_join_dotdot.
Qed.

(** When the guard throws, [write], [delete] and [read] throw the same
    error and leave the disk as it was. *)
Lemma write_guarded cwd t p content fs e :
  FileSystemTool.resolve cwd t p = Throw e ->
  FileSystemTool.write cwd t p content fs = (Throw e, fs).
Proof.
  intros H. unfold FileSystemTool.write, mbind, IO_bind, liftOutcome. by rewrite H.
Qed.

Lemma delete_guarded cwd t p fs e :
  FileSystemTool.resolve cwd t p = Throw e ->
  FileSystemTool.delete cwd t p fs = (Throw e, fs).
Proof.
  intros H. unfold FileSystemTool.delete, mbind, IO_bind, liftOutcome. by rewrite H.
Qed.

Lemma read_guarded cwd t p fs e :
  FileSystemTool.resolve cwd t p = Throw e ->
  FileSystemTool.read cwd t p fs = (Throw e, fs).
Proof.
  intros H. unfold FileSystemTool.read, mbind, IO_bind, liftOutcome. by rewrite H.
Qed.

(** C1. For a workspace root resolved against an absolute working
    directory, every target whose normalized resolution lies outside
    the workspace (the root's segments are not a prefix of the target's
    segments) makes [resolve] throw the path-escape error, and [write]
    on such a target throws it with the disk untouched. *)
Theorem C1_outside_paths_escape cwd optionsRoot dry ask targetPath content fs :
  Path.isAbsolute cwd = true ->
  let t := FileSystemTool.new cwd optionsRoot dry ask in
  outsideWorkspace t targetPath ->
  FileSystemTool.resolve cwd t targetPath = Throw (PathEscapesWorkspace targetPath)
  /\ FileSystemTool.write cwd t targetPath content fs
     = (Throw (PathEscapesWorkspace targetPath), fs).
Proof.
  intros Hcwd t Hout.
  assert (FileSystemTool.resolve cwd t targetPath
          = Throw (PathEscapesWorkspace targetPath)) as H.
  { apply resolve_outside; [|done]. by apply resolve_canonical. }
  split; [done|]. by apply write_guarded.
Qed.

Lemma C1_witness :
  FileSystemTool.resolve (js "/") (FileSystemTool.new (js "/") (js "/w") false None)
    (js "../outside.txt") = Throw (PathEscapesWorkspace (js "../outside.txt"))
  /\ FileSystemTool.write (js "/") (FileSystemTool.new (js "/") (js "/w") false None)
       (js "../outside.txt") (js "x") disk0
     = (Throw (PathEscapesWorkspace (js "../outside.txt")), disk0).
Proof.
  apply (C1_outside_paths_escape (js "/") (js "/w") false None
           (js "../outside.txt") (js "x") disk0).
  - reflexivity.
  - unfold outsideWorkspace. vm_compute. intros [k Hk]. discriminate Hk.
Defined.

(** The test is on path segments: a sibling directory whose name
    extends the root's is outside. *)
Example sibling_directory_is_outside :
  FileSystemTool.resolve (js "/") (FileSystemTool.new (js "/") (js "/root") false None)
    (js "/root2/secret.txt") = Throw (PathEscapesWorkspace (js "/root2/secret.txt")).
Proof. reflexivity. Qed.
(** The target lies inside the workspace. *)
Definition insideWorkspace (t : FileSystemTool) (targetPath : str) : Prop :=
  Fs.key (root t)
    `prefix_of` Fs.key (Path.normalize (FileSystemTool.candidate t targetPath)).

(** The workspace-relative form of a target inside the workspace. *)
Definition workspaceRelative (t : FileSystemTool) (targetPath : str) : str :=
  join [Path.sep]
    (drop (length (Fs.key (root t)))
       (Fs.key (Path.normalize (FileSystemTool.candidate t targetPath)))).

Lemma join_clean_not_absolute (segs : list str) :
  Forall cleanSeg segs -> Path.isAbsolute (join [Path.sep] segs) = false.
Proof.
  intros H. destruct segs as [|a segs]; [done|].
  inversion H as [|? ? (Ha & _ & _ & Hsep) _]; subst.
  destruct a as [|c a]; [done|].
  assert (c <> Path.sep) as Hc by (intros ->; apply Hsep; left).
  apply N.eqb_neq in Hc. destruct segs; simpl; by rewrite Hc.
Qed.

Lemma relative_inside cwd t p :
  canonical (root t) -> insideWorkspace t p ->
  Path.relative cwd (root t) (Path.normalize (FileSystemTool.candidate t p))
  = workspaceRelative t p.
Proof.
  intros Hroot Hin. rewrite relative_segments by (done || by apply normalized_absolute).
  destruct (Path.dropCommon _ _) as [up down] eqn:E.
  apply (dropCommon_prefix _ _ _ _ E) in Hin as ->.
  destruct (dropCommon_app _ _ _ _ E) as (common & Hc & Hd).
  rewrite app_nil_r in Hc. subst common. unfold workspaceRelative.
  by rewrite Hd, drop_app_length.
Qed.

(** What the guard accepts: the targets inside the workspace whose
    workspace-relative form does not begin with two dots. *)
Lemma resolve_returns cwd t p :
  canonical (root t) ->
  insideWorkspace t p ->
  startsWith (workspaceRelative t p) (js "..") = false ->
  FileSystemTool.resolve cwd t p
  = Return (Path.normalize (FileSystemTool.candidate t p)).
Proof.
  intros Hroot Hin Hdots. unfold FileSystemTool.resolve.
  rewrite relative_inside, Hdots by done. unfold workspaceRelative.
  rewrite join_clean_not_absolute; [done|].
  apply Forall_drop, key_clean.
Qed.

Lemma resolve_returned cwd t p resolved :
  canonical (root t) ->
  FileSystemTool.resolve cwd t p = Return resolved ->
  resolved = Path.normalize (FileSystemTool.candidate t p)
  /\ insideWorkspace t p
  /\ startsWith (workspaceRelative t p) (js "..") = false.
Proof.
  intros Hroot H.
  destruct (decide (Fs.key (root t) `prefix_of`
    Fs.key (Path.normalize (FileSystemTool.candidate t p)))) as [Hin|Hout].
  - unfold FileSystemTool.resolve in H. rewrite relative_inside in H by done.
    destruct (startsWith _ _) eqn:E; [done|].
    simpl in H. destruct (Path.isAbsolute _); [done|]. by injection H as <-.
  - by rewrite resolve_outside in H.
Qed.

(** ** The disk *)

Lemma isDirectory_true fs k :
  Fs.isDirectory fs k = true <->
  k = [] \/ exists k' c, fs !! k' = Some c /\ Fs.strictlyBelow k k'.
Proof.
  unfold Fs.isDirectory. rewrite orb_true_iff, !bool_decide_eq_true.
  unfold map_Exists. split; (intros [H|(k' & c & H1 & H2)]; [by left | right; eauto]).
Qed.

Lemma isDirectory_false fs k :
  Fs.isDirectory fs k = false <->
  k <> [] /\ forall k' c, fs !! k' = Some c -> ~ Fs.strictlyBelow k k'.
Proof.
  rewrite <- not_true_iff_false, isDirectory_true. split.
  - intros H. split; [intros E; apply H; by left|].
    intros k' c Hk Hb. apply H. right. eauto.
  - intros [H1 H2] [E | (k' & c & Hk & Hb)]; [done|]. by apply (H2 k' c).
Qed.

Lemma ancestorIsFile_true fs k :
  Fs.ancestorIsFile fs k = true <->
  exists k', Fs.strictlyBelow k' k /\ is_Some (fs !! k').
Proof.
  unfold Fs.ancestorIsFile. rewrite existsb_exists. split.
  - intros (n & Hn & Hf). apply in_seq in Hn.
    unfold Fs.isFile in Hf. apply bool_decide_eq_true in Hf.
    exists (take n k). split; [|done]. split; [apply prefix_take|].
    intros E. apply (f_equal length) in E. rewrite length_take in E. lia.
  - intros (k' & ([r ->] & Hne) & Hf). exists (length k'). split.
    + apply in_seq. rewrite length_app. destruct r; [by rewrite app_nil_r in Hne|].
      simpl. lia.
    + unfold Fs.isFile. apply bool_decide_eq_true. by rewrite take_app_length.
Qed.

Lemma ancestorIsFile_false fs k :
  Fs.ancestorIsFile fs k = false <->
  forall k', Fs.strictlyBelow k' k -> fs !! k' = None.
Proof.
  rewrite <- not_true_iff_false, ancestorIsFile_true. split.
  - intros H k' Hk. destruct (fs !! k') eqn:E; [|done]. exfalso. apply H. eauto.
  - intros H (k' & Hk & [c Hc]). by rewrite (H k' Hk) in Hc.
Qed.

(** The operating system lets a regular file be written at [k]: [k] is
    not a directory and no directory on the way to it is a regular file. *)
Definition writable (fs : FS) (k : list str) : Prop :=
  Fs.isDirectory fs k = false /\ Fs.ancestorIsFile fs k = false.

(** Approval is granted: there is no [confirm] callback, or it accepts. *)
Definition granted (ask : option (PendingMutation -> bool)) : Prop :=
  forall f, ask = Some f -> forall pending, f pending = true.

Lemma granted_declines t pending :
  granted (confirm t) -> FileSystemTool.declines t pending = false.
Proof.
  unfold granted, FileSystemTool.declines. intros H.
  destruct (confirm t) as [f|]; [|done]. by rewrite (H f eq_refl).
Qed.

Lemma segments_canonical_tail (K : list str) tail :
  Forall cleanSeg K -> tail = [] \/ tail = [Path.sep] ->
  filter (fun s => s <> []) (Path.segments (Path.sep :: join [Path.sep] K ++ tail)) = K.
Proof.
  intros HK [-> | ->].
  - rewrite app_nil_r, segments_cons_sep.
    rewrite filter_cons_False by (by intros H; apply H). by apply segments_join.
  - change (Path.sep :: join [Path.sep] K ++ [Path.sep])
      with ((Path.sep :: join [Path.sep] K) ++ [Path.sep]).
    rewrite segments_snoc_sep, filter_app, segments_cons_sep.
    rewrite filter_cons_False by (by intros H; apply H).
    rewrite segments_join by done.
    rewrite filter_cons_False by (by intros H; apply H). apply app_nil_r.
Qed.

Lemma key_dirname p :
  Path.isAbsolute p = true ->
  Fs.key (Path.dirname (Path.normalize p)) = removelast (Fs.key p).
Proof.
  intros Habs. destruct (normalize_absolute p Habs) as (tail & Htail & ->).
  unfold Path.dirname. rewrite segments_canonical_tail by (apply key_clean || done).
  apply key_canonical. rewrite removelast_firstn_len. apply Forall_take, key_clean.
Qed.

Lemma removelast_strictlyBelow (k : list str) :
  k <> [] -> Fs.strictlyBelow (removelast k) k.
Proof.
  intros Hk. destruct (exists_last Hk) as (l & a & ->).
  rewrite removelast_last. split; [by exists [a]|].
  intros E. apply (f_equal length) in E. rewrite length_app in E. simpl in E. lia.
Qed.

Lemma strictlyBelow_trans a b c :
  Fs.strictlyBelow a b -> b `prefix_of` c -> Fs.strictlyBelow a c.
Proof.
  intros [Hab Hne] Hbc. split; [by etrans|].
  intros ->. apply Hne. by apply (anti_symm prefix).
Qed.

Lemma mkdir_dirname_ok fs p :
  Path.isAbsolute p = true -> writable fs (Fs.key p) ->
  Fs.mkdir (Path.dirname (Path.normalize p)) fs = (Return tt, fs).
Proof.
  intros Habs [Hdir Hanc]. unfold Fs.mkdir. rewrite key_dirname by done.
  apply isDirectory_false in Hdir as [Hne _].
  pose proof (removelast_strictlyBelow _ Hne) as Hrl.
  rewrite ancestorIsFile_false in Hanc.
  assert (Fs.ancestorIsFile fs (removelast (Fs.key p)) = false) as ->.
  { apply ancestorIsFile_false. intros k' Hk'. apply Hanc.
    eapply strictlyBelow_trans; [done|]. apply Hrl. }
  unfold Fs.isFile. rewrite (Hanc _ Hrl).
  by rewrite bool_decide_eq_false_2 by (by intros [? ?]).
Qed.

(** Encoding a text and decoding it again changes nothing more when it
    is done twice. *)
Lemma toWellFormed_idempotent (s : str) :
  toWellFormed (toWellFormed s) = toWellFormed s.
Proof.
  assert (forall n (s : str), length s <= n ->
            toWellFormed (toWellFormed s) = toWellFormed s) as H.
  { induction n as [|n IH]; intros [|c r] Hlen; try done; [simpl in Hlen; lia|].
    simpl in Hlen. simpl.
    destruct (isHighSurrogate c) eqn:Hh.
    - destruct r as [|d r']; [done|].
      destruct (isLowSurrogate d) eqn:Hl.
      + simpl. rewrite Hh, Hl. f_equal. f_equal. apply IH. simpl in Hlen. lia.
      + change (toWellFormed (65533%N :: toWellFormed (d :: r'))
                = 65533%N :: toWellFormed (d :: r')).
        change (toWellFormed (65533%N :: ?x)) with (65533%N :: toWellFormed x).
        f_equal. apply IH. lia.
    - destruct (isLowSurrogate c) eqn:Hl.
      + change (toWellFormed (65533%N :: ?x)) with (65533%N :: toWellFormed x).
        f_equal. apply IH. lia.
      + simpl. rewrite Hh, Hl. f_equal. apply IH. lia. }
  by apply (H (length s)).
Qed.

(** The text a read returns for the file at [p]: what [write] and
    [delete] record as the previous content. *)
Definition recorded (fs : FS) (p : str) : option str :=
  if Fs.namesDirectory p then None else toWellFormed <$> fs !! Fs.key p.

Lemma readOrUndefined_lookup p fs :
  FileSystemTool.readOrUndefined p fs = (Return (recorded fs p), fs).
Proof.
  unfold FileSystemTool.readOrUndefined, tryCatch, mbind, IO_bind, Fs.readFile.
  unfold recorded.
  destruct (fs !! Fs.key p); simpl; [by destruct (Fs.namesDirectory p)|].
  by destruct (Fs.namesDirectory p).
Qed.

Lemma throughFile_false fs p :
  Fs.namesDirectory p = false -> Fs.ancestorIsFile fs (Fs.key p) = false ->
  Fs.throughFile fs p = false.
Proof. intros Hn Ha. unfold Fs.throughFile. by rewrite Hn, Ha. Qed.

Lemma writeFile_ok fs p content :
  Fs.namesDirectory p = false -> writable fs (Fs.key p) ->
  Fs.writeFile p content fs
  = (Return tt, <[Fs.key p := toWellFormed content]> fs).
Proof.
  intros Hn [Hd Ha]. unfold Fs.writeFile.
  by rewrite throughFile_false, Hn, Hd.
Qed.

Lemma writable_insert fs k content :
  writable fs k -> writable (<[k := content]> fs) k.
Proof.
  intros [Hd Ha]. split.
  - apply isDirectory_false. apply isDirectory_false in Hd as [Hne Hd].
    split; [done|]. intros k' c Hk' Hb.
    destruct (decide (k = k')) as [<-|Hkk]; [by destruct Hb|].
    rewrite lookup_insert_ne in Hk' by done. by apply (Hd k' c).
  - apply ancestorIsFile_false. rewrite ancestorIsFile_false in Ha.
    intros k' Hb. rewrite lookup_insert_ne; [by apply Ha|].
    intros ->. by destruct Hb.
Qed.

(** A write the guard accepts, that runs for real and is approved, on a
    path the operating system lets be written. *)
Lemma write_applies cwd t p content fs resolved :
  canonical (root t) ->
  FileSystemTool.resolve cwd t p = Return resolved ->
  dryRun t = false -> granted (confirm t) ->
  Fs.namesDirectory resolved = false ->
  writable fs (Fs.key resolved) ->
  FileSystemTool.write cwd t p content fs
  = (Return {| action := MWrite;
               path := Path.relative cwd (root t) resolved;
               preview := Some (slice content 0 500);
               before := toWellFormed <$> fs !! Fs.key resolved;
               after := Some content;
               applied := true;
               reason := None |},
     <[Fs.key resolved := toWellFormed content]> fs).
Proof.
  intros Hroot Hres Hdry Hask Hn Hw.
  destruct (resolve_returned _ _ _ _ Hroot Hres) as (-> & _ & _).
  unfold FileSystemTool.write, mbind, IO_bind, liftOutcome. rewrite Hres.
  rewrite readOrUndefined_lookup, Hdry, granted_declines by done.
  unfold recorded. rewrite Hn.
  pose proof (candidate_absolute t p Hroot) as Habs.
  rewrite mkdir_dirname_ok by (by rewrite key_normalize in Hw).
  by rewrite writeFile_ok.
Qed.

(** C9, as the code has it. A write that the guard accepts, that is
    not a dry run, is approved, and whose path the operating system
    lets be written as a regular file (it does not end with a
    separator, is not a directory and runs through no regular file)
    returns an applied mutation; the same write again returns an
    applied mutation and leaves the disk as the first write left it.
    Its [after] is the content; its [before] is the content as the file
    holds it, every lone surrogate replaced by U+FFFD, so that [before]
    and [after] are equal exactly when the content holds no lone
    surrogate. *)
Theorem C9_write_twice cwd optionsRoot ask p content fs resolved :
  Path.isAbsolute cwd = true ->
  let t := FileSystemTool.new cwd optionsRoot false ask in
  granted ask ->
  FileSystemTool.resolve cwd t p = Return resolved ->
  Fs.namesDirectory resolved = false ->
  writable fs (Fs.key resolved) ->
  exists m1 m2 fs1,
    FileSystemTool.write cwd t p content fs = (Return m1, fs1)
    /\ applied m1 = true /\ after m1 = Some content
    /\ FileSystemTool.write cwd t p content fs1 = (Return m2, fs1)
    /\ applied m2 = true
    /\ before m2 = Some (toWellFormed content) /\ after m2 = Some content
    /\ (before m2 = after m2 <-> toWellFormed content = content).
Proof.
  intros Hcwd t Hask Hres Hn Hw.
  assert (canonical (root t)) as Hroot by (by apply resolve_canonical).
  eexists _, _, _. split; [by apply write_applies|].
  split; [done|]. split; [done|]. split.
  - rewrite (write_applies cwd t p content _ resolved) by
      (done || by apply writable_insert).
    by rewrite insert_insert_eq.
  - simpl. rewrite lookup_insert_eq. simpl. rewrite toWellFormed_idempotent.
    repeat split; [by intros [= ->] | by intros ->].
Qed.

Lemma C9_witness :
  exists m1 m2 fs1,
    FileSystemTool.write (js "/") ws (js "src/b.txt") (js "x") disk0 = (Return m1, fs1)
    /\ applied m1 = true /\ after m1 = Some (js "x")
    /\ FileSystemTool.write (js "/") ws (js "src/b.txt") (js "x") fs1 = (Return m2, fs1)
    /\ applied m2 = true
    /\ before m2 = Some (js "x") /\ after m2 = Some (js "x")
    /\ (before m2 = after m2 <-> js "x" = js "x").
Proof.
  apply (C9_write_twice (js "/") (js "/w") None (js "src/b.txt") (js "x") disk0
           (js "/w/src/b.txt")).
  - reflexivity.
  - intros f Hf. discriminate Hf.
  - reflexivity.
  - reflexivity.
  - split; vm_compute; reflexivity.
Defined.

(** A content with a lone surrogate: the second write records the
    replacement character as [before] and the surrogate as [after]. *)
Lemma write_twice_lone_surrogate :
  exists m1 m2 fs1,
    FileSystemTool.write (js "/") ws (js "src/b.txt") [55296%N] disk0
    = (Return m1, fs1)
    /\ FileSystemTool.write (js "/") ws (js "src/b.txt") [55296%N] fs1
       = (Return m2, fs1)
    /\ before m2 = Some [65533%N] /\ after m2 = Some [55296%N].
Proof. eexists _, _, _. repeat split; vm_compute; reflexivity. Qed.

(** C9 as stated fails for a path the guard rejects: the write throws
    and returns no mutation. *)
Lemma C9_counterexample :
  FileSystemTool.write (js "/") ws (js "../outside.txt") (js "x") disk0
  = (Throw (PathEscapesWorkspace (js "../outside.txt")), disk0).
Proof. vm_compute. reflexivity. Qed.
(** ** Deleting *)

Lemma throughFile_missing fs p :
  fs !! Fs.key p = None -> Fs.ancestorIsFile fs (Fs.key p) = false ->
  Fs.throughFile fs p = false.
Proof.
  intros Hfile Ha. unfold Fs.throughFile, Fs.isFile. rewrite Ha, Hfile.
  rewrite bool_decide_eq_false_2 by (by intros [? ?]). apply andb_false_r.
Qed.

Lemma rmRecursive_missing fs p :
  fs !! Fs.key p = None -> Fs.isDirectory fs (Fs.key p) = false ->
  Fs.ancestorIsFile fs (Fs.key p) = false ->
  Fs.rmRecursive p fs = (Return tt, fs).
Proof.
  intros Hfile Hdir Ha. unfold Fs.rmRecursive.
  rewrite throughFile_missing by done. f_equal.
  apply isDirectory_false in Hdir as [_ Hdir].
  apply map_filter_id. intros k c Hk Hpre. simpl in Hpre.
  destruct (decide (Fs.key p = k)) as [<-|Hne]; [by rewrite Hfile in Hk|].
  by apply (Hdir k c Hk).
Qed.

(** Deleting a path the guard accepts, that names neither a file nor
    a directory and runs through no regular file, succeeds: the
    mutation is applied, records no [before], and the disk is as it
    was. *)
Lemma delete_missing cwd t p fs resolved :
  FileSystemTool.resolve cwd t p = Return resolved ->
  dryRun t = false -> granted (confirm t) ->
  fs !! Fs.key resolved = None -> Fs.isDirectory fs (Fs.key resolved) = false ->
  Fs.ancestorIsFile fs (Fs.key resolved) = false ->
  FileSystemTool.delete cwd t p fs
  = (Return {| action := MDelete;
               path := Path.relative cwd (root t) resolved;
               preview := None; before := None; after := None;
               applied := true; reason := None |}, fs).
Proof.
  intros Hres Hdry Hask Hfile Hdir Ha.
  unfold FileSystemTool.delete, mbind, IO_bind, liftOutcome. rewrite Hres.
  rewrite readOrUndefined_lookup. unfold recorded.
  rewrite Hfile, Hdry, granted_declines by done.
  rewrite rmRecursive_missing by done.
  by destruct (Fs.namesDirectory resolved).
Qed.

(** Undoing a delete that recorded no [before] does nothing. *)
Lemma undo_delete_without_before cwd workspaceRoot m fs :
  action m = MDelete -> before m = None ->
  Rollback.rollbackOne cwd workspaceRoot m fs = (Return tt, fs).
Proof.
  intros Ha Hb. unfold Rollback.rollbackOne, Rollback.undo, tryCatch.
  by rewrite Ha, Hb.
Qed.

(** C10 at a path inside the workspace whose name begins with two
    dots: the path does not exist, and [delete] throws the path-escape
    error instead of returning an applied mutation. *)
Lemma C10_dotdot_name_is_rejected :
  insideWorkspace ws (js "..cache")
  /\ disk0 !! Fs.key (js "/w/..cache") = None
  /\ Fs.isDirectory disk0 (Fs.key (js "/w/..cache")) = false
  /\ FileSystemTool.delete (js "/") ws (js "..cache") disk0
     = (Throw (PathEscapesWorkspace (js "..cache")), disk0).
Proof.
  split; [|split; [|split]].
  - unfold insideWorkspace. vm_compute. by exists [js "..cache"].
  - vm_compute. reflexivity.
  - vm_compute. reflexivity.
  - vm_compute. reflexivity.
Qed.

(** ** Rollback: which mutations are replayed, and in which order *)

(** The paths of the mutations, each once, in the order in which they
    first appear. *)
Fixpoint firstPaths (seen : list str) (ms : list FileMutation) : list str :=
  match ms with
  | [] => []
  | m :: rest =>
      if bool_decide (path m ∈ seen) then firstPaths seen rest
      else path m :: firstPaths (path m :: seen) rest
  end.

(** The latest mutation of a path. *)
Definition latestOf (ms : list FileMutation) (p : str) : option FileMutation :=
  last (filter (fun m => path m = p) ms).

(** The mutations no later mutation of the same path follows, in
    chronological order. *)
Fixpoint keepLatest (ms : list FileMutation) : list FileMutation :=
  match ms with
  | [] => []
  | m :: rest =>
      if bool_decide (path m ∈ path <$> rest) then keepLatest rest
      else m :: keepLatest rest
  end.

(** The replay order the specification words: the latest mutation of
    each path, the most recent first. *)
Definition reverseChronological (ms : list FileMutation) : list FileMutation :=
  rev (keepLatest ms).

Lemma mapSet_keys entries k v :
  (Rollback.mapSet entries k v).*1
  = if bool_decide (k ∈ entries.*1) then entries.*1 else entries.*1 ++ [k].
Proof.
  induction entries as [|[k' v'] entries IH]; csimpl; [done|].
  destruct (eqb k' k) eqn:E.
  - apply eqb_true in E as ->. csimpl.
    by rewrite bool_decide_eq_true_2 by left.
  - apply eqb_false in E. csimpl. rewrite IH.
    destruct (decide (k ∈ entries.*1)).
    + rewrite !bool_decide_eq_true_2; [done|by right|done].
    + rewrite !bool_decide_eq_false_2; [done| |done].
      intros [?|?]%elem_of_cons; congruence.
Qed.

Lemma mapSet_lookup entries k v k' :
  snd <$> find (fun kv => eqb kv.1 k') (Rollback.mapSet entries k v)
  = if decide (k = k') then Some v
    else snd <$> find (fun kv => eqb kv.1 k') entries.
Proof.
  induction entries as [|[k0 v0] entries IH]; simpl.
  - destruct (decide (k = k')) as [->|Hne].
    + by rewrite eqb_refl.
    + apply eqb_false in Hne. by rewrite Hne.
  - destruct (eqb k0 k) eqn:E; simpl.
    + apply eqb_true in E as ->.
      destruct (decide (k = k')) as [->|Hne].
      * by rewrite eqb_refl.
      * apply eqb_false in Hne. by rewrite Hne.
    + destruct (eqb k0 k') eqn:E'; [|done]. simpl.
      apply eqb_true in E' as ->. apply eqb_false in E.
      by rewrite decide_False by congruence.
Qed.

Lemma firstPaths_snoc seen ms m :
  firstPaths seen (ms ++ [m])
  = firstPaths seen ms
    ++ (if bool_decide (path m ∈ seen ++ (path <$> ms)) then [] else [path m]).
Proof.
  revert seen; induction ms as [|a ms IH]; intros seen; simpl.
  - rewrite app_nil_r. by destruct (bool_decide _).
  - destruct (decide (path a ∈ seen)) as [Hin|Hout].
    + rewrite bool_decide_eq_true_2 by done. rewrite IH. csimpl.
      rewrite (bool_decide_ext (path m ∈ seen ++ (path <$> ms))
                 (path m ∈ seen ++ path a :: (path <$> ms))); [done|].
      rewrite !elem_of_app, elem_of_cons.
      split; [tauto|]. intros [?|[->|?]]; tauto.
    + rewrite bool_decide_eq_false_2 by done. csimpl. rewrite IH.
      rewrite (bool_decide_ext (path m ∈ (path a :: seen) ++ (path <$> ms))
                 (path m ∈ seen ++ path a :: (path <$> ms))); [done|].
      rewrite !elem_of_app, !elem_of_cons. tauto.
Qed.

Lemma firstPaths_elem seen ms p :
  p ∈ firstPaths seen ms <-> p ∈ path <$> ms /\ p ∉ seen.
Proof.
  revert seen; induction ms as [|a ms IH]; intros seen; simpl.
  - rewrite elem_of_nil. split; [done|]. by intros [? _].
  - destruct (decide (path a ∈ seen)) as [Hin|Hout].
    + rewrite bool_decide_eq_true_2 by done. rewrite IH, elem_of_cons.
      split; [tauto|]. intros [[->|?] ?]; tauto.
    + rewrite bool_decide_eq_false_2 by done.
      rewrite !elem_of_cons, IH, elem_of_cons.
      destruct (decide (p = path a)) as [->|Hne]; [tauto|]. tauto.
Qed.

Lemma latestByPath_snoc ms m :
  Rollback.latestByPath (ms ++ [m])
  = Rollback.mapSet (Rollback.latestByPath ms) (path m) m.
Proof. unfold Rollback.latestByPath. by rewrite fold_left_app. Qed.

Lemma latestByPath_keys ms : (Rollback.latestByPath ms).*1 = firstPaths [] ms.
Proof.
  induction ms as [|m ms IH] using rev_ind; [done|].
  rewrite latestByPath_snoc, mapSet_keys, firstPaths_snoc, IH. simpl.
  destruct (decide (path m ∈ firstPaths [] ms)) as [Hin|Hout].
  - rewrite !bool_decide_eq_true_2; [by rewrite app_nil_r| |done].
    by apply firstPaths_elem in Hin as [? _].
  - rewrite !bool_decide_eq_false_2; [done| |done].
    intros H. apply Hout, firstPaths_elem. split; [done|]. apply not_elem_of_nil.
Qed.

Lemma latestOf_snoc ms m p :
  latestOf (ms ++ [m]) p = if decide (path m = p) then Some m else latestOf ms p.
Proof.
  unfold latestOf. rewrite filter_app. simpl.
  destruct (decide (path m = p)) as [E|E].
  - rewrite filter_cons_True by done. rewrite filter_nil. by rewrite last_snoc.
  - rewrite filter_cons_False by done. rewrite filter_nil. by rewrite app_nil_r.
Qed.

Lemma latestByPath_lookup ms p :
  snd <$> find (fun kv => eqb kv.1 p) (Rollback.latestByPath ms) = latestOf ms p.
Proof.
  induction ms as [|m ms IH] using rev_ind; [done|].
  by rewrite latestByPath_snoc, mapSet_lookup, latestOf_snoc, IH.
Qed.

(** An association list with distinct keys lists, key by key, what
    looking the key up finds. *)
Lemma assoc_values (entries : list (str * FileMutation)) :
  NoDup entries.*1 ->
  Some <$> (snd <$> entries)
  = (fun k => snd <$> find (fun kv => eqb kv.1 k) entries) <$> entries.*1.
Proof.
  induction entries as [|[k v] entries IH]; [done|].
  intros Hnd. apply NoDup_cons in Hnd as [Hk Hnd]. csimpl.
  rewrite eqb_refl. csimpl. f_equal. rewrite IH by done.
  apply list_fmap_ext. intros i k' Hk'%list_elem_of_lookup_2.
  assert (k <> k') as Hne by (by intros ->).
  apply eqb_false in Hne. by rewrite Hne.
Qed.

Lemma firstPaths_NoDup seen ms : NoDup (firstPaths seen ms).
Proof.
  revert seen; induction ms as [|a ms IH]; intros seen; simpl; [constructor|].
  destruct (bool_decide _); [done|]. constructor; [|done].
  rewrite firstPaths_elem. intros [_ H]. apply H. by left.
Qed.

Lemma fmap_rev {A B} (f : A -> B) (l : list A) : f <$> rev l = rev (f <$> l).
Proof.
  induction l as [|x l IH]; [done|]. simpl. by rewrite fmap_app, IH.
Qed.

(** The replay order of the code: the paths in the reverse of the order
    in which they first appear, each with its latest mutation. *)
Lemma ordered_spec ms :
  Some <$> Rollback.ordered ms = rev (latestOf ms <$> firstPaths [] ms).
Proof.
  unfold Rollback.ordered. rewrite fmap_rev. f_equal.
  rewrite assoc_values by (rewrite latestByPath_keys; apply firstPaths_NoDup).
  rewrite latestByPath_keys.
  apply list_fmap_ext. intros i p _. apply latestByPath_lookup.
Qed.

(** ** Rollback: what replaying a mutation does to the disk *)

Lemma resolveLoop_absolute cwd args acc :
  Path.isAbsolute cwd = true -> exists x, Path.resolveLoop args cwd acc = (x, true).
Proof.
  intros Hcwd. revert acc; induction args as [|a args IH]; intros acc; simpl.
  - destruct cwd; [done|]. rewrite Hcwd. eauto.
  - destruct a as [|c a]; [apply IH|].
    destruct (Path.isAbsolute (c :: a)); [eauto | apply IH].
Qed.

Lemma resolve_canonical_args cwd args :
  Path.isAbsolute cwd = true -> canonical (Path.resolve cwd args).
Proof.
  intros Hcwd. unfold Path.resolve.
  destruct (resolveLoop_absolute cwd (rev args) [] Hcwd) as (x & ->).
  eexists. split; [|done]. apply normalizeSegments_clean, split_sepfree_all.
Qed.

Lemma key_dirname_canonical p :
  canonical p -> Fs.key (Path.dirname p) = removelast (Fs.key p).
Proof.
  intros (segs & Hs & ->). rewrite key_canonical by done. unfold Path.dirname.
  pose proof (segments_canonical_tail segs [] Hs (or_introl eq_refl)) as H.
  rewrite app_nil_r in H. rewrite H.
  apply key_canonical. rewrite removelast_firstn_len. by apply Forall_take.
Qed.

(** The file a mutation is about. *)
Definition targetKey (cwd workspaceRoot : str) (m : FileMutation) : list str :=
  Fs.key (Rollback.targetOf cwd workspaceRoot m).

Definition writableb (fs : FS) (k : list str) : bool :=
  negb (Fs.isDirectory fs k) && negb (Fs.ancestorIsFile fs k).

Lemma writableb_true fs k : writableb fs k = true <-> writable fs k.
Proof.
  unfold writableb, writable.
  rewrite andb_true_iff, !negb_true_iff. done.
Qed.

(** The disk after one turn of the rollback loop. *)
Definition undone (cwd workspaceRoot : str) (m : FileMutation) (fs : FS) : FS :=
  let k := targetKey cwd workspaceRoot m in
  match action m, before m with
  | _, Some content =>
      if writableb fs k then <[k := toWellFormed content]> fs else fs
  | MWrite, None => if Fs.isDirectory fs k then fs else delete k fs
  | MDelete, None => fs
  end.

Lemma endsWith_last (s : str) c : endsWith s [c] = true -> last s = Some c.
Proof.
  unfold endsWith. rewrite startsWith_spec. intros (r & Hr). simpl in Hr.
  rewrite <- (rev_involutive s), Hr. simpl. by rewrite last_snoc.
Qed.

Lemma last_join_clean (segs : list str) x :
  segs <> [] -> Forall cleanSeg segs ->
  last (join [Path.sep] segs) = Some x -> x <> Path.sep.
Proof.
  induction segs as [|a segs IH]; [done|]. intros _ Hall.
  inversion Hall as [|? ? Ha Hrest]; subst.
  destruct segs as [|b segs].
  - simpl. destruct Ha as (_ & _ & _ & Hsep). intros Hl ->.
    apply Hsep. by apply last_Some_elem_of.
  - change (join [Path.sep] (a :: b :: segs))
      with (a ++ [Path.sep] ++ join [Path.sep] (b :: segs)).
    intros Hl. apply IH; [done|done|].
    rewrite !last_app in Hl.
    destruct (last (join [Path.sep] (b :: segs))) eqn:E; [done|].
    exfalso. apply last_None in E.
    destruct b as [|? ?]; [by inversion Hrest as [|? ? (? & _) _]|].
    destruct segs; simpl in E; done.
Qed.

Lemma canonical_namesFile p :
  canonical p -> Fs.key p <> [] -> Fs.namesDirectory p = false.
Proof.
  intros (segs & Hs & ->). rewrite key_canonical by done. intros Hne.
  unfold Fs.namesDirectory.
  destruct (endsWith _ _) eqn:E; [|done].
  apply endsWith_last in E. exfalso.
  assert (last (join [Path.sep] segs) = Some Path.sep) as Hl.
  { destruct (join [Path.sep] segs) eqn:Ej; [|done].
    destruct segs as [|a segs]; [done|].
    inversion Hs as [|? ? (Ha & _) _]; subst.
    destruct segs; simpl in Ej; destruct a; done. }
  by eapply last_join_clean.
Qed.

Lemma restoreFile_effect target content fs :
  canonical target ->
  tryCatch (Rollback.restoreFile target content) (fun _ => mret tt) fs
  = (Return tt, if writableb fs (Fs.key target)
                then <[Fs.key target := toWellFormed content]> fs else fs).
Proof.
  intros Hc. unfold tryCatch, Rollback.restoreFile, mbind, IO_bind.
  destruct (writableb fs (Fs.key target)) eqn:Hw.
  - apply writableb_true in Hw.
    assert (Fs.mkdir (Path.dirname target) fs = (Return tt, fs)) as ->.
    { destruct Hw as [Hdir Hanc]. unfold Fs.mkdir.
      rewrite key_dirname_canonical by done.
      apply isDirectory_false in Hdir as [Hne _].
      pose proof (removelast_strictlyBelow _ Hne) as Hrl.
      rewrite ancestorIsFile_false in Hanc.
      assert (Fs.ancestorIsFile fs (removelast (Fs.key target)) = false) as ->.
      { apply ancestorIsFile_false. intros k' Hk'. apply Hanc.
        eapply strictlyBelow_trans; [done|]. apply Hrl. }
      unfold Fs.isFile. rewrite (Hanc _ Hrl).
      by rewrite bool_decide_eq_false_2 by (by intros [? ?]). }
    rewrite writeFile_ok; [done| |done].
    apply canonical_namesFile; [done|].
    destruct Hw as [Hdir _]. by apply isDirectory_false in Hdir as [Hne _].
  - unfold Fs.mkdir.
    destruct (Fs.ancestorIsFile fs (Fs.key (Path.dirname target))); [done|].
    destruct (Fs.isFile fs (Fs.key (Path.dirname target))); [done|].
    unfold Fs.writeFile, Fs.throughFile. unfold writableb in Hw.
    destruct (Fs.ancestorIsFile fs (Fs.key target)); [done|].
    destruct (Fs.namesDirectory target && Fs.isFile fs (Fs.key target)); [done|].
    destruct (Fs.namesDirectory target); [done|]. simpl.
    destruct (Fs.isDirectory fs (Fs.key target)); [done|]. done.
Qed.

(** One turn of the loop never throws. *)
Lemma rollbackOne_effect cwd workspaceRoot m fs :
  Path.isAbsolute cwd = true ->
  Rollback.rollbackOne cwd workspaceRoot m fs
  = (Return tt, undone cwd workspaceRoot m fs).
Proof.
  intros Hcwd. unfold Rollback.rollbackOne, Rollback.undo, undone, targetKey.
  pose proof (resolve_canonical_args cwd [workspaceRoot; path m] Hcwd) as Hc.
  fold (Rollback.targetOf cwd workspaceRoot m) in Hc.
  destruct (action m), (before m) as [content|].
  - by apply restoreFile_effect.
  - unfold tryCatch, Fs.rm. by destruct (Fs.isDirectory fs _).
  - by apply restoreFile_effect.
  - done.
Qed.

Lemma rollbackAll_effect cwd workspaceRoot ms fs :
  Path.isAbsolute cwd = true ->
  Rollback.rollbackAll cwd workspaceRoot ms fs
  = (Return tt, foldr (undone cwd workspaceRoot) fs (rev ms)).
Proof.
  intros Hcwd. revert fs; induction ms as [|m ms IH]; intros fs; [done|].
  simpl. unfold mbind, IO_bind. rewrite rollbackOne_effect by done.
  rewrite IH. by rewrite foldr_app.
Qed.

(** Two paths neither of which lies on the way to the other. *)
Definition incomparable (a b : list str) : Prop :=
  ~ a `prefix_of` b /\ ~ b `prefix_of` a.

(** The mutations are about pairwise disjoint sets of files. *)
Fixpoint pairwiseDisjoint (ks : list (list str)) : Prop :=
  match ks with
  | [] => True
  | k :: rest => Forall (incomparable k) rest /\ pairwiseDisjoint rest
  end.

Lemma incomparable_sym a b : incomparable a b -> incomparable b a.
Proof. intros [? ?]. by split. Qed.

Lemma incomparable_ne a b : incomparable a b -> a <> b.
Proof. intros [H _] ->. by apply H. Qed.

Lemma isDirectory_frame fs fs' k :
  (forall k', k `prefix_of` k' -> fs !! k' = fs' !! k') ->
  Fs.isDirectory fs k = Fs.isDirectory fs' k.
Proof.
  intros H. apply eq_true_iff_eq. rewrite !isDirectory_true.
  split; (intros [->|(k' & c & Hk & Hb)]; [by left|right]);
    exists k', c; (split; [|done]).
  - rewrite <- H; [done|apply Hb].
  - rewrite H; [done|apply Hb].
Qed.

Lemma ancestorIsFile_frame fs fs' k :
  (forall k', k' `prefix_of` k -> fs !! k' = fs' !! k') ->
  Fs.ancestorIsFile fs k = Fs.ancestorIsFile fs' k.
Proof.
  intros H. apply eq_true_iff_eq. rewrite !ancestorIsFile_true.
  split; intros (k' & Hb & Hf); exists k'; (split; [done|]).
  - rewrite <- H; [done|apply Hb].
  - rewrite H; [done|apply Hb].
Qed.

Lemma writableb_frame fs fs' k :
  (forall k', k `prefix_of` k' \/ k' `prefix_of` k -> fs !! k' = fs' !! k') ->
  writableb fs k = writableb fs' k.
Proof.
  intros H. unfold writableb.
  rewrite (isDirectory_frame fs fs' k), (ancestorIsFile_frame fs fs' k); auto.
Qed.

(** A turn of the loop touches the file of its mutation only. *)
Lemma undone_other cwd wr m fs k' :
  k' <> targetKey cwd wr m -> undone cwd wr m fs !! k' = fs !! k'.
Proof.
  intros Hne. unfold undone.
  destruct (action m), (before m) as [content|];
    repeat match goal with |- context [if ?b then _ else _] => destruct b end;
    rewrite ?lookup_insert_ne, ?lookup_delete_ne by done; done.
Qed.

Lemma undone_frame_lookup cwd wr m fs k :
  incomparable (targetKey cwd wr m) k ->
  forall k', k `prefix_of` k' \/ k' `prefix_of` k ->
    undone cwd wr m fs !! k' = fs !! k'.
Proof.
  intros [H1 H2] k' Hk'. apply undone_other. intros ->.
  destruct Hk' as [Hk'|Hk']; [by apply H2 | by apply H1].
Qed.

Lemma undone_commute cwd wr m1 m2 fs :
  incomparable (targetKey cwd wr m1) (targetKey cwd wr m2) ->
  undone cwd wr m1 (undone cwd wr m2 fs) = undone cwd wr m2 (undone cwd wr m1 fs).
Proof.
  intros Hinc.
  pose proof (incomparable_ne _ _ Hinc) as Hne.
  pose proof (undone_frame_lookup cwd wr m2 fs _ (incomparable_sym _ _ Hinc)) as F2.
  pose proof (undone_frame_lookup cwd wr m1 fs _ Hinc) as F1.
  assert (writableb (undone cwd wr m2 fs) (targetKey cwd wr m1)
          = writableb fs (targetKey cwd wr m1)) as W1
    by (by apply writableb_frame).
  assert (writableb (undone cwd wr m1 fs) (targetKey cwd wr m2)
          = writableb fs (targetKey cwd wr m2)) as W2
    by (by apply writableb_frame).
  assert (Fs.isDirectory (undone cwd wr m2 fs) (targetKey cwd wr m1)
          = Fs.isDirectory fs (targetKey cwd wr m1)) as D1
    by (apply isDirectory_frame; auto).
  assert (Fs.isDirectory (undone cwd wr m1 fs) (targetKey cwd wr m2)
          = Fs.isDirectory fs (targetKey cwd wr m2)) as D2
    by (apply isDirectory_frame; auto).
  unfold undone at 1 3. rewrite W1, W2, D1, D2. unfold undone.
  destruct (action m1), (before m1) as [c1|], (action m2), (before m2) as [c2|];
    repeat match goal with |- context [if ?b then _ else _] => destruct b end;
    try done;
    first [ by apply insert_insert_ne
          | by rewrite delete_insert_ne by done
          | by rewrite delete_insert_ne by (by apply not_eq_sym)
          | by apply delete_delete ].
Qed.
Lemma mapSet_fresh entries k v :
  k ∉ entries.*1 -> Rollback.mapSet entries k v = entries ++ [(k, v)].
Proof.
  induction entries as [|[k' v'] entries IH]; csimpl; [done|].
  intros [Hne Hk]%not_elem_of_cons.
  apply not_eq_sym, eqb_false in Hne. rewrite Hne. by rewrite IH.
Qed.

Lemma latestByPath_distinct ms :
  NoDup (path <$> ms) -> Rollback.latestByPath ms = (fun m => (path m, m)) <$> ms.
Proof.
  induction ms as [|m ms IH] using rev_ind; [done|].
  rewrite fmap_app. intros [Hms [Hm _]]%NoDup_app.
  rewrite latestByPath_snoc, IH by done. rewrite mapSet_fresh.
  - by rewrite fmap_app.
  - rewrite <- list_fmap_compose. intros Hin. apply (Hm (path m)); [done|]. by left.
Qed.

(** Without repeated paths every mutation is replayed, the last one
    first. *)
Lemma ordered_distinct ms : NoDup (path <$> ms) -> Rollback.ordered ms = rev ms.
Proof.
  intros H. unfold Rollback.ordered. rewrite latestByPath_distinct by done.
  rewrite <- list_fmap_compose. f_equal. by rewrite list_fmap_id.
Qed.

Lemma keepLatest_distinct ms : NoDup (path <$> ms) -> keepLatest ms = ms.
Proof.
  induction ms as [|m ms IH]; [done|]. csimpl.
  intros [Hm Hms]%NoDup_cons. rewrite bool_decide_eq_false_2 by done.
  by rewrite IH.
Qed.

Lemma pairwiseDisjoint_lookup ks i j a b :
  pairwiseDisjoint ks -> i <> j -> ks !! i = Some a -> ks !! j = Some b ->
  incomparable a b.
Proof.
  revert i j; induction ks as [|k ks IH]; intros i j; [done|].
  intros [Hk Hks] Hij Hi Hj. rewrite Forall_forall in Hk.
  destruct i as [|i], j as [|j]; simpl in *; try done.
  - injection Hi as <-. apply Hk. by eapply list_elem_of_lookup_2.
  - injection Hj as <-. apply incomparable_sym, Hk.
    by eapply list_elem_of_lookup_2.
  - apply (IH i j); auto.
Qed.

Lemma pairwiseDisjoint_NoDup ks : pairwiseDisjoint ks -> NoDup ks.
Proof.
  induction ks as [|k ks IH]; [constructor|]. intros [Hk Hks].
  constructor; [|by apply IH]. intros Hin.
  rewrite Forall_forall in Hk.
  by apply (incomparable_ne _ _ (Hk _ Hin)).
Qed.

Lemma pairwiseDisjoint_perm ks ks' :
  ks ≡ₚ ks' -> pairwiseDisjoint ks -> pairwiseDisjoint ks'.
Proof.
  induction 1 as [|x l l' Hp IH|x y l|l1 l2 l3 _ IH1 _ IH2]; simpl.
  - done.
  - intros [Hx Hl]. split; [by rewrite <- Hp | by apply IH].
  - intros [Hy [Hx Hl]]. apply Forall_cons in Hy as [Hyx Hy].
    split; [|done]. constructor; [by apply incomparable_sym | done].
  - auto.
Qed.

Lemma disjoint_paths_distinct cwd wr ms :
  pairwiseDisjoint (targetKey cwd wr <$> ms) -> NoDup (path <$> ms).
Proof.
  intros H%pairwiseDisjoint_NoDup.
  apply (NoDup_fmap_1 (fun p => Fs.key (Path.resolve cwd [wr; p]))).
  by rewrite <- list_fmap_compose.
Qed.

(** The rollback as a fold: every mutation is undone, the last first. *)
Lemma rollbackMutations_effect cwd wr ms fs :
  Path.isAbsolute cwd = true -> NoDup (path <$> ms) ->
  Rollback.rollbackMutations cwd wr ms fs
  = (Return tt, foldr (undone cwd wr) fs ms).
Proof.
  intros Hcwd Hnd. unfold Rollback.rollbackMutations.
  rewrite rollbackAll_effect, ordered_distinct by done.
  by rewrite rev_involutive.
Qed.

Lemma undone_fold_other cwd wr ms fs k :
  Forall (fun m => incomparable (targetKey cwd wr m) k) ms ->
  forall k', k `prefix_of` k' \/ k' `prefix_of` k ->
    foldr (undone cwd wr) fs ms !! k' = fs !! k'.
Proof.
  induction 1 as [|m ms Hm Hms IH]; intros k' Hk'; [done|]. simpl.
  rewrite (undone_frame_lookup _ _ _ _ k) by done. by apply IH.
Qed.

Lemma undone_fold_permutation cwd wr ms ms' fs :
  pairwiseDisjoint (targetKey cwd wr <$> ms) -> ms ≡ₚ ms' ->
  foldr (undone cwd wr) fs ms = foldr (undone cwd wr) fs ms'.
Proof.
  intros Hd Hp. apply (foldr_permutation eq (undone cwd wr) fs); [|done].
  intros j1 a1 j2 a2 b Hj H1 H2. apply undone_commute.
  apply (pairwiseDisjoint_lookup _ j1 j2 _ _ Hd Hj); by rewrite list_lookup_fmap, ?H1, ?H2.
Qed.

(** Under disjointness, the file of each mutation ends as undoing that
    mutation alone leaves it, whatever became of the others. *)
Lemma undone_fold_at cwd wr ms fs m :
  pairwiseDisjoint (targetKey cwd wr <$> ms) -> m ∈ ms ->
  foldr (undone cwd wr) fs ms !! targetKey cwd wr m
  = undone cwd wr m fs !! targetKey cwd wr m.
Proof.
  intros Hd Hin. apply elem_of_Permutation in Hin as (rest & Hp).
  rewrite (undone_fold_permutation _ _ _ _ _ Hd Hp). simpl.
  pose proof (pairwiseDisjoint_perm _ _ (fmap_Permutation (targetKey cwd wr) _ _ Hp) Hd)
    as Hd'.
  rewrite fmap_cons in Hd'. destruct Hd' as [Hm _].
  assert (Forall (fun o => incomparable (targetKey cwd wr o) (targetKey cwd wr m)) rest)
    as Hrest.
  { rewrite Forall_fmap in Hm. apply (Forall_impl _ _ _ Hm).
    intros o Ho. apply incomparable_sym, Ho. }
  pose proof (undone_fold_other cwd wr rest fs _ Hrest) as F.
  unfold undone.
  rewrite (writableb_frame _ fs) by done.
  rewrite (isDirectory_frame _ fs) by auto.
  destruct (action m), (before m) as [c|];
    repeat match goal with |- context [if ?b then _ else _] => destruct b end;
    rewrite ?lookup_insert_eq, ?lookup_delete_eq; try done; by apply F; left.
Qed.

(** C3, as the code has it. The rollback replays, for each path, its
    latest mutation, the paths taken in the reverse of the order in
    which they first appear; it never throws, a turn that fails leaving
    the disk as it was. When the mutations are about pairwise disjoint
    sets of files, this is the reverse chronological order, the outcome
    does not depend on the order of the mutations, and each path ends
    as undoing its own mutation leaves it: with the recorded [before],
    as UTF-8 stores it, when there is one and the operating system
    permits the write, absent after a write that recorded none,
    untouched after a delete that recorded none. *)
Theorem C3_rollback (cwd wr : str) (ms : list FileMutation) (fs : FS) :
  Path.isAbsolute cwd = true ->
  (Some <$> Rollback.ordered ms = rev (latestOf ms <$> firstPaths [] ms)
   /\ Rollback.rollbackMutations cwd wr ms fs
      = (Return tt, foldr (undone cwd wr) fs (rev (Rollback.ordered ms))))
  /\ (pairwiseDisjoint (targetKey cwd wr <$> ms) ->
      Rollback.ordered ms = reverseChronological ms
      /\ (forall ms', ms ≡ₚ ms' ->
            Rollback.rollbackMutations cwd wr ms' fs
            = Rollback.rollbackMutations cwd wr ms fs)
      /\ exists fs',
           Rollback.rollbackMutations cwd wr ms fs = (Return tt, fs')
           /\ forall m, m ∈ ms ->
                let k := targetKey cwd wr m in
                fs' !! k = undone cwd wr m fs !! k
                /\ (forall content, before m = Some content ->
                      writable fs k -> fs' !! k = Some (toWellFormed content))
                /\ (action m = MWrite -> before m = None ->
                      Fs.isDirectory fs k = false -> fs' !! k = None)
                /\ (action m = MDelete -> before m = None ->
                      fs' !! k = fs !! k)).
Proof.
  intros Hcwd. split.
  - split; [apply ordered_spec|].
    unfold Rollback.rollbackMutations. by rewrite rollbackAll_effect.
  - intros Hd.
    pose proof (disjoint_paths_distinct _ _ _ Hd) as Hnd.
    split; [|split].
    + unfold reverseChronological.
      by rewrite ordered_distinct, keepLatest_distinct.
    + intros ms' Hp.
      assert (NoDup (path <$> ms')) as Hnd' by (by rewrite <- Hp).
      rewrite !rollbackMutations_effect by done. f_equal.
      symmetry. by apply undone_fold_permutation.
    + eexists. split; [by apply rollbackMutations_effect|].
      intros m Hm k. subst k.
      rewrite undone_fold_at by done. split; [done|]. unfold undone.
      split; [|split].
      * intros content -> Hw. apply writableb_true in Hw.
        rewrite Hw. destruct (action m); by rewrite lookup_insert_eq.
      * intros -> -> ->. by rewrite lookup_delete_eq.
      * by intros -> ->.
Qed.

Lemma C3_witness :
  let ms := [written (js "a.txt") (Some (js "hello")) (js "bye");
             written (js "src/b.txt") None (js "new")] in
  let fs : FS := {[ [js "w"; js "a.txt"] := js "bye";
                    [js "w"; js "src"; js "b.txt"] := js "new" ]} in
  Rollback.ordered ms = reverseChronological ms
  /\ exists fs',
       Rollback.rollbackMutations (js "/") (js "/w") ms fs = (Return tt, fs')
       /\ fs' !! [js "w"; js "a.txt"] = Some (js "hello")
       /\ fs' !! [js "w"; js "src"; js "b.txt"] = None.
Proof.
  intros ms fs.
  destruct (C3_rollback (js "/") (js "/w") ms fs eq_refl) as [_ H].
  destruct H as (Hord & _ & fs' & Hrun & Hat).
  { vm_compute. repeat split; repeat constructor; intros [k Hk]; discriminate Hk. }
  split; [exact Hord|]. exists fs'. split; [exact Hrun|]. split.
  - destruct (Hat (written (js "a.txt") (Some (js "hello")) (js "bye")))
      as (_ & H1 & _); [by left|].
    apply (H1 (js "hello") eq_refl). split; vm_compute; reflexivity.
  - destruct (Hat (written (js "src/b.txt") None (js "new")))
      as (_ & _ & H2 & _); [right; by left|].
    apply (H2 eq_refl eq_refl). vm_compute. reflexivity.
Defined.

(** C3 as stated fails when a path is mutated twice: the code replays
    the second mutation of [b.txt] before the third mutation (of
    [a.txt]), where the reverse chronological order has the third
    first. *)
Lemma C3_counterexample :
  let m1 := written (js "a.txt") (Some (js "0")) (js "1") in
  let m2 := written (js "b.txt") None (js "x") in
  let m3 := written (js "a.txt") (Some (js "1")) (js "2") in
  Rollback.ordered [m1; m2; m3] = [m2; m3]
  /\ reverseChronological [m1; m2; m3] = [m3; m2].
Proof. split; vm_compute; reflexivity. Qed.
(** ** Anchors *)

(** The indices at which [exact] occurs verbatim in [content]. *)
Fixpoint occurrencesFrom (content exact : str) (i : nat) : list nat :=
  (if startsWith content exact then [i] else [])
  ++ match content with
     | [] => []
     | _ :: rest => occurrencesFrom rest exact (S i)
     end.

Definition occurrences (content exact : str) : list nat :=
  occurrencesFrom content exact 0.

Lemma startsWith_take (s p : str) :
  startsWith s p = true <-> take (length p) s = p.
Proof.
  rewrite startsWith_spec. split.
  - intros [r ->]. by rewrite take_app_length.
  - intros H. exists (drop (length p) s). by rewrite <- H at 1; rewrite take_drop.
Qed.

Lemma occurrencesFrom_elem content exact i j :
  j ∈ occurrencesFrom content exact i <->
  exists n, j = i + n /\ n <= length content
            /\ take (length exact) (drop n content) = exact.
Proof.
  revert i; induction content as [|c content IH]; intros i; simpl.
  - rewrite app_nil_r. destruct (startsWith [] exact) eqn:E.
    + apply startsWith_take in E. rewrite list_elem_of_singleton. split.
      * intros ->. exists 0. rewrite Nat.add_0_r. by rewrite drop_0.
      * intros (n & -> & Hn & _). lia.
    + rewrite elem_of_nil. split; [done|]. intros (n & -> & Hn & H).
      assert (n = 0) as -> by lia. rewrite drop_0 in H.
      apply startsWith_take in H. congruence.
  - rewrite elem_of_app, IH. split.
    + intros [H | (n & -> & Hn & H)].
      * destruct (startsWith (c :: content) exact) eqn:E; [|by apply elem_of_nil in H].
        apply list_elem_of_singleton in H as ->. apply startsWith_take in E.
        exists 0. rewrite Nat.add_0_r, drop_0. split; [done|]. split; [lia|done].
      * exists (S n). split; [lia|]. split; [lia|done].
    + intros (n & -> & Hn & H). destruct n as [|n].
      * left. rewrite drop_0 in H. apply startsWith_take in H. rewrite H.
        rewrite Nat.add_0_r. by apply list_elem_of_singleton.
      * right. exists n. split; [lia|]. split; [lia|done].
Qed.

(** [exact] occurs at [i]: the slice of its length from [i] is [exact]. *)
Lemma occurrences_elem content exact i :
  i ∈ occurrences content exact <->
  i <= length content /\ slice content i (i + length exact) = exact.
Proof.
  unfold occurrences, slice. rewrite occurrencesFrom_elem.
  replace (i + length exact - i) with (length exact) by lia.
  split.
  - by intros (n & -> & Hn & H).
  - intros [Hn H]. by exists i.
Qed.

Lemma indexOfFrom_head content exact i :
  indexOfFrom content exact i = head (occurrencesFrom content exact i).
Proof.
  revert i; induction content as [|c content IH]; intros i; simpl.
  - by destruct (startsWith [] exact).
  - destruct (startsWith (c :: content) exact); [done|]. apply IH.
Qed.

(** [indexOf] finds the first occurrence. *)
Lemma indexOf_head content exact :
  indexOf content exact = head (occurrences content exact).
Proof. apply indexOfFrom_head. Qed.
Lemma locateByExact_first {re : RegExpEngine} content anchor exact i rest :
  anchor_exact anchor = Some exact -> exact <> [] ->
  occurrences content exact = i :: rest ->
  Anchor.locateByExact content anchor
  = Some {| span_start := i; span_end := i + length exact |}.
Proof.
  intros He Hne Hocc. unfold Anchor.locateByExact. rewrite He.
  destruct exact as [|c e]; [done|]. by rewrite indexOf_head, Hocc.
Qed.

(** C4, as the code has it. For an anchor whose regex, if it has one,
    finds no non-empty match, and whose non-empty [exact] occurs
    verbatim exactly once in the content, at [i]: [locateAnchor]
    returns the span from [i] to [i] plus the length of [exact]; mode
    [replace] yields the content before [i], the replacement, and the
    content from the end of the span on; and
    [applyAnchoredModification] writes exactly that text (with its line
    ends put back to CRLF when the file had any), provided the
    post-condition, if one is given, holds of it. *)
Theorem C4_unique_exact_anchor {re : RegExpEngine}
    (content exact replacement : str) (anchor : AnchorSpec)
    (action : ImplementationAction) (i : nat) :
  anchor_exact anchor = Some exact -> exact <> [] ->
  Anchor.locateByRegex content anchor = None ->
  occurrences content exact = [i] ->
  action_replacement action = Some replacement ->
  let span := {| span_start := i; span_end := i + length exact |} in
  let updated :=
    slice content 0 i ++ replacement ++ sliceFrom content (i + length exact) in
  Anchor.locateAnchor content anchor = Some span
  /\ ImplementerAgent.editAt content span Replace action = Return updated
  /\ forall (cwd : str) (fsTool : FileSystemTool) (fs : FS) (originalRaw : str),
       action_anchor action = Some anchor ->
       ImplementerAgent.modeOf action = Replace ->
       FileSystemTool.read cwd fsTool (action_path action) fs
         = (Return originalRaw, fs) ->
       content = (if hasCRLF originalRaw then crlfToLf originalRaw
                  else originalRaw) ->
       truthy (action_ensure action)
         && negb (includes updated (orEmpty (action_ensure action))) = false ->
       ImplementerAgent.applyAnchoredModification cwd fsTool action fs
       = FileSystemTool.write cwd fsTool (action_path action)
           (if hasCRLF originalRaw then lfToCrlf updated else updated) fs.
Proof.
  intros He Hne Hre Hocc Hrep span updated.
  assert (Anchor.locateAnchor content anchor = Some span) as Hloc.
  { unfold Anchor.locateAnchor. rewrite Hre.
    by apply (locateByExact_first content anchor exact i []). }
  assert (ImplementerAgent.editAt content span Replace action = Return updated)
    as Hedit by (unfold ImplementerAgent.editAt; by rewrite Hrep).
  split; [done|]. split; [done|].
  intros cwd fsTool fs originalRaw Hanchor Hmode Hread Hcontent Hensure.
  unfold ImplementerAgent.applyAnchoredModification.
  rewrite Hanchor, Hmode, Hrep.
  cbn [ImplementerAgent.isReplace isString negb andb].
  unfold mbind at 1. unfold IO_bind. rewrite Hread.
  rewrite <- Hcontent, Hloc.
  unfold mbind, IO_bind, liftOutcome. rewrite Hedit.
  fold updated. by rewrite Hensure.
Qed.

Lemma C4_witness :
  let anchor := {| anchor_exact := Some (js "foo"); anchor_regex := None;
                   anchor_description := None |} in
  let action := {| action_type := ModifyFile; action_path := js "a.txt";
                   action_content := None; action_patch := None;
                   action_patches := None; action_mode := Some Replace;
                   action_anchor := Some anchor;
                   action_replacement := Some (js "bar");
                   action_snippet := None; action_ensure := None |} in
  let span := {| span_start := 4; span_end := 7 |} in
  Anchor.locateAnchor (re := Reference.LiteralRegExp) (js "let foo = 1")
    anchor = Some span
  /\ ImplementerAgent.editAt (js "let foo = 1") span Replace action
     = Return (js "let bar = 1").
Proof.
  intros anchor action span.
  pose proof (@C4_unique_exact_anchor Reference.LiteralRegExp
                (js "let foo = 1") (js "foo") (js "bar") anchor action 4
                eq_refl ltac:(discriminate) eq_refl eq_refl eq_refl) as (H1 & H2 & _).
  split; [exact H1 | exact H2].
Defined.

(** C4 as stated fails for an anchor that has a regex as well: the
    regex is tried first, and its match is returned although [exact]
    occurs exactly once, elsewhere. *)
Lemma C4_counterexample :
  let anchor := {| anchor_exact := Some (js "b"); anchor_regex := Some (js "a");
                   anchor_description := None |} in
  occurrences (js "ab") (js "b") = [1]
  /\ Anchor.locateAnchor (re := Reference.LiteralRegExp) (js "ab") anchor
     = Some {| span_start := 0; span_end := 1 |}.
Proof. split; vm_compute; reflexivity. Qed.

(** An empty [exact] counts as absent, wherever it occurs. *)
Example empty_exact_is_no_anchor :
  occurrences [] [] = [0]
  /\ Anchor.locateAnchor (re := Reference.LiteralRegExp) []
       {| anchor_exact := Some []; anchor_regex := None;
          anchor_description := None |} = None.
Proof. split; reflexivity. Qed.


(** A tool call that throws leaves the disk as it was. *)
Lemma write_throws_unchanged cwd t p content fs e fs' :
  FileSystemTool.write cwd t p content fs = (Throw e, fs') -> fs' = fs.
Proof.
  unfold FileSystemTool.write, mbind, IO_bind, liftOutcome.
  destruct (FileSystemTool.resolve cwd t p) as [resolved|]; [|by intros [= _ <-]].
  rewrite readOrUndefined_lookup.
  destruct (dryRun t); [done|].
  destruct (FileSystemTool.declines t _); [done|].
  unfold Fs.mkdir.
  destruct (Fs.ancestorIsFile fs (Fs.key (Path.dirname resolved)));
    [by intros [= _ <-]|].
  destruct (Fs.isFile fs (Fs.key (Path.dirname resolved)));
    [by intros [= _ <-]|].
  unfold Fs.writeFile.
  destruct (Fs.throughFile fs resolved); [by intros [= _ <-]|].
  destruct (Fs.namesDirectory resolved || Fs.isDirectory fs (Fs.key resolved));
    [by intros [= _ <-]|].
  done.
Qed.

Lemma read_unchanged cwd t p fs r fs' :
  FileSystemTool.read cwd t p fs = (r, fs') -> fs' = fs.
Proof.
  unfold FileSystemTool.read, mbind, IO_bind, liftOutcome, tryCatch, Fs.readFile.
  destruct (FileSystemTool.resolve cwd t p) as [resolved|]; [|by intros [= _ <-]].
  destruct (fs !! Fs.key resolved); [|by intros [= _ <-]].
  destruct (Fs.namesDirectory resolved); by intros [= _ <-].
Qed.

Lemma applyPatch_throws_unchanged {diff : DiffLibrary}
    cwd t p patch fs e fs' :
  ImplementerAgent.applyPatch cwd t p patch fs = (Throw e, fs') -> fs' = fs.
Proof.
  unfold ImplementerAgent.applyPatch, mbind, IO_bind, liftOutcome, tryCatch.
  destruct (FileSystemTool.read cwd t p fs) as [[existing|e0] fs0] eqn:Hread.
  - apply read_unchanged in Hread as ->.
    destruct (DiffApplier.applyUnifiedDiff existing patch p); [|by intros [= _ <-]].
    apply write_throws_unchanged.
  - apply read_unchanged in Hread as ->. by intros [= _ <-].
Qed.





(** ** The loop over the actions *)

Lemma delete_throws_unchanged cwd t p fs e fs' :
  FileSystemTool.delete cwd t p fs = (Throw e, fs') -> fs' = fs.
Proof.
  unfold FileSystemTool.delete, mbind, IO_bind, liftOutcome.
  destruct (FileSystemTool.resolve cwd t p) as [resolved|]; [|by intros [= _ <-]].
  rewrite readOrUndefined_lookup.
  destruct (dryRun t); [done|].
  destruct (FileSystemTool.declines t _); [done|].
  unfold Fs.rmRecursive. destruct (Fs.throughFile fs resolved); [|done].
  by intros [= _ <-].
Qed.

Lemma anchored_throws_unchanged {re : RegExpEngine} cwd t action fs e fs' :
  ImplementerAgent.applyAnchoredModification cwd t action fs = (Throw e, fs') ->
  fs' = fs.
Proof.
  unfold ImplementerAgent.applyAnchoredModification.
  destruct (action_anchor action) as [anchor|]; [|by intros [= _ <-]].
  destruct (_ && _); [by intros [= _ <-]|].
  destruct (_ && _); [by intros [= _ <-]|].
  unfold mbind at 1. unfold IO_bind.
  destruct (FileSystemTool.read cwd t (action_path action) fs)
    as [[raw|e0] fs0] eqn:Hread; apply read_unchanged in Hread as ->;
    [|by intros [= _ <-]].
  destruct (Anchor.locateAnchor _ anchor) as [span|]; [|by intros [= _ <-]].
  unfold mbind, IO_bind, liftOutcome.
  destruct (ImplementerAgent.editAt _ span _ action) as [updated|];
    [|by intros [= _ <-]].
  destruct (_ && _); [by intros [= _ <-]|].
  apply write_throws_unchanged.
Qed.

(** An action that throws leaves the disk as it was. *)
Lemma applyAction_throws_unchanged {re : RegExpEngine} {diff : DiffLibrary}
    cwd t action fs e fs' :
  ImplementerAgent.applyAction cwd t action fs = (Throw e, fs') -> fs' = fs.
Proof.
  unfold ImplementerAgent.applyAction.
  destruct (action_path action) as [|c p] eqn:Ep; [by intros [= _ <-]|].
  rewrite <- Ep. clear Ep c p.
  destruct (action_type action).
  - destruct (action_content action); [|by intros [= _ <-]].
    apply write_throws_unchanged.
  - destruct (_ && _).
    + unfold tryCatch at 1.
      destruct (ImplementerAgent.applyAnchoredModification cwd t action fs)
        as [[m|e0] fs0] eqn:Ha; [done|].
      apply anchored_throws_unchanged in Ha as ->.
      destruct (ImplementerAgent.patchGiven action) as [patch|];
        [|by intros [= _ <-]].
      unfold tryCatch.
      destruct (ImplementerAgent.applyPatch cwd t _ patch fs)
        as [[m|e1] fs1] eqn:Hp; [done|].
      apply applyPatch_throws_unchanged in Hp as ->. by intros [= _ <-].
    + destruct (ImplementerAgent.patchGiven action) as [patch|].
      * apply applyPatch_throws_unchanged.
      * destruct (action_content action); [|by intros [= _ <-]].
        apply write_throws_unchanged.
  - apply delete_throws_unchanged.
  - by intros [= _ <-].
Qed.

Lemma applyActionsFrom_acc {re : RegExpEngine} {diff : DiffLibrary}
    cwd t acc actions fs :
  ImplementerAgent.applyActionsFrom cwd t acc actions fs
  = match ImplementerAgent.applyActionsFrom cwd t [] actions fs with
    | (Return ms, fs') => (Return (acc ++ ms), fs')
    | (Throw e, fs') => (Throw e, fs')
    end.
Proof.
  revert acc fs; induction actions as [|a actions IH]; intros acc fs; simpl.
  - unfold mret, IO_ret. by rewrite app_nil_r.
  - unfold mbind, IO_bind.
    destruct (ImplementerAgent.applyAction cwd t a fs) as [[m|e] fs1]; [|done].
    rewrite (IH (acc ++ [m])), (IH ([] ++ [m])).
    destruct (ImplementerAgent.applyActionsFrom cwd t [] actions fs1)
      as [[ms|e] fs2]; [|done].
    by rewrite <- app_assoc.
Qed.

Lemma applyActions_app {re : RegExpEngine} {diff : DiffLibrary}
    cwd t l1 l2 fs :
  ImplementerAgent.applyActions cwd t (l1 ++ l2) fs
  = match ImplementerAgent.applyActions cwd t l1 fs with
    | (Return ms, fs1) =>
        match ImplementerAgent.applyActions cwd t l2 fs1 with
        | (Return ms', fs2) => (Return (ms ++ ms'), fs2)
        | (Throw e, fs2) => (Throw e, fs2)
        end
    | (Throw e, fs1) => (Throw e, fs1)
    end.
Proof.
  unfold ImplementerAgent.applyActions.
  revert fs; induction l1 as [|a l1 IH]; intros fs.
  - simpl. unfold mret, IO_ret.
    by destruct (ImplementerAgent.applyActionsFrom cwd t [] l2 fs) as [[ms|e] fs2].
  - simpl. unfold mbind, IO_bind.
    destruct (ImplementerAgent.applyAction cwd t a fs) as [[m|e] fs1]; [|done].
    rewrite (applyActionsFrom_acc cwd t ([] ++ [m]) (l1 ++ l2)), IH.
    rewrite (applyActionsFrom_acc cwd t ([] ++ [m]) l1).
    destruct (ImplementerAgent.applyActionsFrom cwd t [] l1 fs1)
      as [[ms|e] fs2]; [|done].
    destruct (ImplementerAgent.applyActionsFrom cwd t [] l2 fs2)
      as [[ms'|e] fs3]; [|done].
    by rewrite app_assoc.
Qed.

(** C2, as the code has it. The first action that throws ends
    [applyActions]: the actions after it are not processed, the error
    propagates, and [run] turns it into a failed result that carries
    the error as its summary and no mutations. What earlier actions
    wrote stays on the disk; the failed action itself leaves the disk
    as it was. *)
Theorem C2_first_failure_aborts {re : RegExpEngine} {diff : DiffLibrary}
    (cwd : str) (fsTool : FileSystemTool)
    (earlier rest : list ImplementationAction) (failing : ImplementationAction)
    (payloadNotes : option str) (fs fs1 fs2 : FS)
    (mutations : list FileMutation) (error : Error) :
  ImplementerAgent.applyActions cwd fsTool earlier fs = (Return mutations, fs1) ->
  ImplementerAgent.applyAction cwd fsTool failing fs1 = (Throw error, fs2) ->
  fs2 = fs1
  /\ ImplementerAgent.applyActions cwd fsTool (earlier ++ failing :: rest) fs
     = (Throw error, fs1)
  /\ ImplementerAgent.runFromPayload cwd fsTool
       {| actions := earlier ++ failing :: rest; notes := payloadNotes |} fs
     = ({| result_agent := js "implementer"; result_status := Failure;
           result_summary := inl error; result_mutations := None |}, fs1).
Proof.
  intros Hearlier Hfail.
  pose proof (applyAction_throws_unchanged _ _ _ _ _ _ Hfail) as ->.
  assert (ImplementerAgent.applyActions cwd fsTool (earlier ++ failing :: rest) fs
          = (Throw error, fs1)) as Hall.
  { rewrite applyActions_app, Hearlier.
    unfold ImplementerAgent.applyActions. simpl. unfold mbind, IO_bind.
    by rewrite Hfail. }
  split; [done|]. split; [done|].
  unfold ImplementerAgent.runFromPayload. simpl. by rewrite Hall.
Qed.

Lemma C2_witness :
  ImplementerAgent.applyActions (re := Reference.LiteralRegExp) (diff := noDiff)
    (js "/") ws ([writeB] ++ anchorEdit :: [writeB]) disk0
  = (Throw (UnableToLocateAnchor (js "a.txt")),
     <[ [js "w"; js "b.txt"] := js "x" ]> disk0).
Proof.
  refine (proj1 (proj2 (@C2_first_failure_aborts Reference.LiteralRegExp noDiff
            (js "/") ws [writeB] [writeB] anchorEdit None disk0
            (<[ [js "w"; js "b.txt"] := js "x" ]> disk0)
            (<[ [js "w"; js "b.txt"] := js "x" ]> disk0)
            [written (js "b.txt") None (js "x")]
            (UnableToLocateAnchor (js "a.txt")) _ _))).
  - vm_compute. reflexivity.
  - vm_compute. reflexivity.
Defined.

(** C2 as stated fails: an anchored edit whose anchor is missing and
    which has no patch throws, and the write of [b.txt] that follows it
    in the payload is never processed, whatever the [diff] package:
    [b.txt] is not created, and the result reports no mutation. *)
Lemma C2_counterexample :
  let payload := {| actions := [anchorEdit; writeB]; notes := None |} in
  (forall diff : DiffLibrary,
     ImplementerAgent.runFromPayload (re := Reference.LiteralRegExp)
       (js "/") ws payload disk0
     = ({| result_agent := js "implementer"; result_status := Failure;
           result_summary := inl (UnableToLocateAnchor (js "a.txt"));
           result_mutations := None |}, disk0))
  /\ disk0 !! [js "w"; js "b.txt"] = None
  /\ ImplementerAgent.applyAction (re := Reference.LiteralRegExp) (diff := noDiff)
       (js "/") ws writeB disk0
     = (Return (written (js "b.txt") None (js "x")),
        <[ [js "w"; js "b.txt"] := js "x" ]> disk0).
Proof.
  split; [|split].
  - intros diff. vm_compute. reflexivity.
  - vm_compute. reflexivity.
  - vm_compute. reflexivity.
Qed.

(** ** The bracket balancer *)

Import JsonRecovery.

Definition isClosingBracket (ch : N) : bool :=
  N.eqb ch closeBrace || N.eqb ch closeBracket.

(** What the scan of [balanceJson] passes over in silence: outside a
    string, a closing bracket that does not close the innermost open
    bracket, or a backslash. *)
Definition stray (st : ScanState) (ch : N) : bool :=
  negb (escaped st) && negb (inString st)
  && (N.eqb ch backslash
      || (isClosingBracket ch
          && match stack st with
             | [] => true
             | top :: _ => negb (N.eqb (closerOf top) ch)
             end)).

Fixpoint noStray (input : str) (st : ScanState) : bool :=
  match input with
  | [] => true
  | ch :: rest => negb (stray st ch) && noStray rest (scanStep st ch)
  end.

(** The brackets of the text match, the contents of strings apart:
    nothing is stray, and the text ends outside a string with no
    bracket open. *)
Definition wellBracketed (input : str) : bool :=
  noStray input scanStart
  && bool_decide (stack (scan input) = [])
  && negb (inString (scan input)).

Lemma noStray_app a b st :
  noStray (a ++ b) st = noStray a st && noStray b (fold_left scanStep a st).
Proof.
  revert st; induction a as [|ch a IH]; intros st; simpl; [done|].
  by rewrite IH, andb_assoc.
Qed.

Ltac caseScan :=
  repeat match goal with
         | |- context [if ?b then _ else _] => destruct b eqn:?; simpl in *
         | |- context [match stack ?st with _ => _ end] =>
             destruct (stack st) eqn:?; simpl in *
         end.

(** Inside a string, closing brackets are string contents. *)
Lemma closers_in_string removed st :
  Forall (fun ch => isClosingBracket ch = true) removed ->
  inString st = true ->
  inString (fold_left scanStep removed st) = true.
Proof.
  intros H. revert st; induction H as [|ch removed Hch _ IH]; intros st Hin;
    [done|].
  simpl. apply IH. unfold scanStep.
  unfold isClosingBracket, closeBrace, closeBracket in Hch.
  unfold backslash, quote.
  destruct (N.eqb_spec ch 92) as [->|_]; [done|].
  destruct (N.eqb_spec ch 34) as [->|_]; [done|].
  caseScan; congruence.
Qed.

(** Without strays, a pending backslash is inside a string. *)
Lemma escaped_in_string input st :
  noStray input st = true ->
  (escaped st = true -> inString st = true) ->
  escaped (fold_left scanStep input st) = true ->
  inString (fold_left scanStep input st) = true.
Proof.
  revert st; induction input as [|ch input IH]; intros st Hns Hinv; [done|].
  simpl in *. apply andb_true_iff in Hns as [Hch Hns].
  apply IH; [done|]. clear IH Hns.
  unfold scanStep. unfold stray in Hch.
  destruct (escaped st) eqn:Eesc; simpl in *; [intros H; discriminate H|].
  destruct (inString st) eqn:Ein; simpl in *.
  - caseScan; congruence.
  - destruct (N.eqb ch backslash); simpl in *; [done|].
    caseScan; congruence.
Qed.

(** The stack of the scan holds opening brackets. *)
Definition opensOnly (st : ScanState) : Prop :=
  Forall (fun c => c = openBrace \/ c = openBracket) (stack st).

Lemma scanStep_opensOnly st ch : opensOnly st -> opensOnly (scanStep st ch).
Proof.
  unfold opensOnly, scanStep. intros H.
  destruct (escaped st); [done|].
  destruct (N.eqb ch backslash); [done|].
  destruct (N.eqb ch quote); [done|].
  destruct (inString st); [done|].
  destruct (N.eqb_spec ch openBrace) as [->|_]; [by constructor; [left|]|].
  destruct (N.eqb_spec ch openBracket) as [->|_]; [by constructor; [right|]|].
  simpl. destruct (_ || _); [|done].
  destruct (stack st) as [|top rest] eqn:Est; [by rewrite Est|].
  destruct (_ || _); [by inversion H | by rewrite Est].
Qed.

Lemma scan_opensOnly input st :
  opensOnly st -> opensOnly (fold_left scanStep input st).
Proof.
  revert st; induction input as [|ch input IH]; intros st H; [done|].
  simpl. by apply IH, scanStep_opensOnly.
Qed.

(** Outside a string, closing brackets none of which is stray and that
    leave nothing open are the closers of the open brackets, the
    innermost first. *)
Lemma closers_of_stack removed st :
  Forall (fun ch => isClosingBracket ch = true) removed ->
  opensOnly st ->
  inString st = false -> escaped st = false ->
  noStray removed st = true ->
  stack (fold_left scanStep removed st) = [] ->
  removed = closerOf <$> stack st.
Proof.
  intros H. revert st; induction H as [|ch removed Hch _ IH];
    intros st Hopen Hin Hesc Hns Hend.
  - simpl in Hend. by rewrite Hend.
  - simpl in Hns, Hend. apply andb_true_iff in Hns as [Hstray Hns].
    unfold stray in Hstray. rewrite Hin, Hesc, Hch in Hstray. simpl in Hstray.
    assert (ch <> backslash /\ ch <> quote /\ ch <> openBrace
            /\ ch <> openBracket) as (Hb & Hq & Ho1 & Ho2).
    { unfold isClosingBracket in Hch. apply orb_true_iff in Hch.
      destruct Hch as [->%N.eqb_eq | ->%N.eqb_eq]; done. }
    apply N.eqb_neq in Hb, Hq, Ho1, Ho2.
    rewrite Hb in Hstray. simpl in Hstray.
    unfold opensOnly in Hopen.
    destruct (stack st) as [|top rest] eqn:Est; [done|].
    apply negb_true_iff, negb_false_iff, N.eqb_eq in Hstray.
    apply Forall_cons in Hopen as [Htop Hrest].
    assert (scanStep st ch
            = {| inString := false; escaped := false; stack := rest |}) as Hstep.
    { unfold scanStep. rewrite Hesc, Hb, Hq, Hin, Ho1, Ho2, Est.
      unfold isClosingBracket in Hch. rewrite Hch. simpl.
      subst ch. by destruct Htop as [-> | ->]. }
    rewrite Hstep in Hns, Hend. csimpl. f_equal; [done|].
    by apply (IH {| inString := false; escaped := false; stack := rest |}
                Hrest eq_refl eq_refl Hns Hend).
Qed.

(** C6, as the code has it. When a text whose brackets match loses
    closing brackets at its end, the balancer appends exactly the
    brackets that were lost: the balanced text is the original text,
    and so parses to the same value. *)
Theorem C6_lost_tail_is_restored {parser : JsonParser} (kept removed : str) :
  wellBracketed (kept ++ removed) = true ->
  Forall (fun ch => isClosingBracket ch = true) removed ->
  balanceJson kept = kept ++ removed
  /\ jsonParse (balanceJson kept) = jsonParse (kept ++ removed).
Proof.
  intros Hwb Hclosers.
  unfold wellBracketed in Hwb.
  apply andb_true_iff in Hwb as [Hwb Hstr].
  apply andb_true_iff in Hwb as [Hns Hstack].
  apply bool_decide_eq_true in Hstack. apply negb_true_iff in Hstr.
  rewrite noStray_app in Hns. apply andb_true_iff in Hns as [Hkept Hremoved].
  unfold scan in Hstack, Hstr. rewrite fold_left_app in Hstack, Hstr.
  fold (scan kept) in Hstack, Hstr, Hremoved.
  assert (inString (scan kept) = false) as Hin.
  { destruct (inString (scan kept)) eqn:E; [|done].
    by rewrite (closers_in_string removed _ Hclosers E) in Hstr. }
  assert (escaped (scan kept) = false) as Hesc.
  { destruct (escaped (scan kept)) eqn:E; [|done].
    assert (inString (scan kept) = true) as Hcontra; [|congruence].
    by apply (escaped_in_string kept scanStart Hkept). }
  assert (removed = closerOf <$> stack (scan kept)) as Hrem.
  { apply closers_of_stack; try done.
    apply scan_opensOnly. constructor. }
  assert (balanceJson kept = kept ++ removed) as Hbal.
  { unfold balanceJson. rewrite Hrem.
    destruct (stack (scan kept)); [by rewrite app_nil_r | done]. }
  split; [done|]. by rewrite Hbal.
Qed.

Lemma C6_witness :
  let kept := jq "{'actions':[{'type':'write_file','path':'a.txt','content':'x'}" in
  balanceJson kept = kept ++ js "]}"
  /\ Reference.parseJson (balanceJson kept) = Reference.parseJson (kept ++ js "]}").
Proof.
  intros kept.
  apply (@C6_lost_tail_is_restored Reference.JsonParse kept (js "]}")).
  - vm_compute. reflexivity.
  - repeat constructor.
Defined.

(** The truncated payload of the specification: the balancer appends
    the bracket and the brace that are missing, once each, and the
    result parses. *)
Example truncated_payload_is_recovered :
  let kept := jq "{'actions':[{'type':'write_file','path':'a.txt','content':'x'}" in
  balanceJson kept
  = jq "{'actions':[{'type':'write_file','path':'a.txt','content':'x'}]}"
  /\ Reference.parseJson (balanceJson kept)
     = Some (JObject
               [(js "actions",
                  JArray [JObject [(js "type", JString (js "write_file"));
                                   (js "path", JString (js "a.txt"));
                                   (js "content", JString (js "x"))]])]).
Proof. split; vm_compute; reflexivity. Qed.

(** C6 as stated fails when the closing bracket that was removed stood
    inside the text: the balancer appends at the end only, and the
    result does not parse. *)
Lemma C6_counterexample :
  let original := jq "{'a':[1,2],'b':3}" in
  let damaged := take 9 original ++ drop 10 original in
  original !! 9 = Some closeBracket
  /\ Reference.parseJson original
     = Some (JObject [(js "a", JArray [JNumber (js "1"); JNumber (js "2")]);
                      (js "b", JNumber (js "3"))])
  /\ damaged = jq "{'a':[1,2,'b':3}"
  /\ balanceJson damaged = jq "{'a':[1,2,'b':3}]}"
  /\ Reference.parseJson (balanceJson damaged) = None.
Proof. repeat split; vm_compute; reflexivity. Qed.
(** ** The recovery cascade *)

(** A character [normalizeJsonText] replaces or removes. *)
Definition rewritten (c : N) : bool :=
  Text.isDoubleQuoteMark c || Text.isSingleQuoteMark c || Text.isDash c
  || Text.isZeroWidth c || Text.isControl c || N.eqb 9 c || N.eqb 160 c.

(** A payload text that begins with its brace, ends without white
    space, and holds no character the normalisation rewrites and no
    CRLF. *)
Definition plain (raw : str) : Prop :=
  startsWith raw [openBrace] = true
  /\ Forall (fun c => rewritten c = false) raw
  /\ hasCRLF raw = false
  /\ trimEnd raw = raw.

Lemma replaceChar_id (isOld : N -> bool) new s :
  Forall (fun c => isOld c = false) s -> Text.replaceChar isOld new s = s.
Proof.
  unfold Text.replaceChar. induction 1 as [|c s Hc _ IH]; [done|].
  csimpl. by rewrite Hc, IH.
Qed.

Lemma removeChars_id (isOld : N -> bool) s :
  Forall (fun c => isOld c = false) s -> Text.removeChars isOld s = s.
Proof.
  unfold Text.removeChars. induction 1 as [|c s Hc _ IH]; [done|].
  rewrite filter_cons_True by done. by rewrite IH.
Qed.

Lemma crlfToLf_id s : hasCRLF s = false -> crlfToLf s = s.
Proof.
  induction s as [|c s IH]; [done|]. destruct s as [|d s]; [done|].
  intros H. change (hasCRLF (c :: d :: s))
    with ((N.eqb c CR && N.eqb d LF) || hasCRLF (d :: s)) in H.
  apply orb_false_iff in H as [H1 H2].
  change (crlfToLf (c :: d :: s))
    with (if N.eqb c CR && N.eqb d LF then LF :: crlfToLf s
          else c :: crlfToLf (d :: s)).
  rewrite H1. by rewrite IH.
Qed.

Lemma normalizeJsonText_plain raw :
  plain raw -> Text.normalizeJsonText raw true = raw.
Proof.
  intros (Hbrace & Hchars & Hcrlf & Hend). unfold Text.normalizeJsonText.
  assert (forall f : N -> bool,
            (forall c, rewritten c = false -> f c = false) ->
            Forall (fun c => f c = false) raw) as Hnone.
  { intros f Hf. eapply Forall_impl; [done|]. apply Hf. }
  unfold rewritten in Hnone.
  rewrite (replaceChar_id Text.isDoubleQuoteMark)
    by (apply Hnone; intros c; rewrite !orb_false_iff; tauto).
  rewrite (replaceChar_id Text.isSingleQuoteMark)
    by (apply Hnone; intros c; rewrite !orb_false_iff; tauto).
  rewrite (replaceChar_id Text.isDash)
    by (apply Hnone; intros c; rewrite !orb_false_iff; tauto).
  rewrite crlfToLf_id by done.
  rewrite (removeChars_id Text.isZeroWidth)
    by (apply Hnone; intros c; rewrite !orb_false_iff; tauto).
  rewrite (removeChars_id Text.isControl)
    by (apply Hnone; intros c; rewrite !orb_false_iff; tauto).
  rewrite (replaceChar_id (N.eqb 9))
    by (apply Hnone; intros c; rewrite !orb_false_iff; tauto).
  rewrite (replaceChar_id (N.eqb 160))
    by (apply Hnone; intros c; rewrite !orb_false_iff; tauto).
  unfold trim. apply startsWith_spec in Hbrace as [r ->].
  change (trimStart ([openBrace] ++ r)) with ([openBrace] ++ r). exact Hend.
Qed.






(** *** The tokens of a payload text *)

Import JsonText.





































(** ** Manual hunk splicing *)

Import ManualPatch.

(** No heuristic locates a window for the hunk: at no index of the
    file do the target lines match, exactly or trimmed, or the removed
    lines or the first three context lines match in part. *)
Definition noWindow (haystack : list str) (hunk : Hunk) : bool :=
  forallb
    (fun i =>
       negb (matchesAt haystack (targetLinesOf hunk) i false)
       && negb (matchesAt haystack (targetLinesOf hunk) i true)
       && negb (matchesPartial haystack
                  (filter (fun line => trim line <> []) (removedLinesOf hunk))
                  i true)
       && negb (matchesPartial haystack
                  (take (Nat.min (length (contextLinesOf hunk)) 3)
                        (contextLinesOf hunk))
                  i true))
    (seq 0 (length haystack)).

Lemma clampIndex_le len z : clampIndex len z <= len.
Proof. unfold clampIndex. lia. Qed.

Lemma candidateLoop_in_range rounds delta approx len candidates :
  approx <= len ->
  Forall (fun c => c < len) candidates ->
  Forall (fun c => c < len) (candidateLoop rounds delta approx len candidates).
Proof.
  intros Happrox. revert delta candidates.
  induction rounds as [|rounds IH]; intros delta candidates Hc; [done|].
  simpl.
  set (c1 := if approx + delta <? len then candidates ++ [approx + delta]
             else candidates).
  assert (Forall (fun c => c < len) c1) as H1.
  { subst c1. destruct (Nat.ltb_spec (approx + delta) len); [|done].
    apply Forall_app. split; [done|]. by constructor. }
  set (c2 := if negb (delta =? 0) && (delta <=? approx) then c1 ++ [approx - delta]
             else c1).
  assert (Forall (fun c => c < len) c2) as H2.
  { subst c2. destruct (negb (delta =? 0) && (delta <=? approx)) eqn:E; [|done].
    apply andb_true_iff in E as [E1 E2].
    apply negb_true_iff, Nat.eqb_neq in E1. apply Nat.leb_le in E2.
    apply Forall_app. split; [done|]. constructor; [lia|done]. }
  destruct (len <? length c2); [done|]. by apply IH.
Qed.

Lemma candidateIndices_in_range approx len :
  approx <= len -> Forall (fun c => c < len) (candidateIndices approx len).
Proof. intros H. by apply candidateLoop_in_range. Qed.

Lemma find_nowhere {A} (f : A -> bool) (l : list A) :
  Forall (fun x => f x = false) l -> find f l = None.
Proof. induction 1 as [|x l Hx _ IH]; [done|]. simpl. by rewrite Hx. Qed.

Lemma findBestSequenceIndex_none haystack hunk oldStart offset :
  targetLinesOf hunk <> [] ->
  noWindow haystack hunk = true ->
  findBestSequenceIndex haystack (targetLinesOf hunk) (removedLinesOf hunk)
    (contextLinesOf hunk) oldStart offset = None.
Proof.
  intros Htarget Hno. unfold findBestSequenceIndex.
  destruct (targetLinesOf hunk) as [|t ts] eqn:Et; [done|]. rewrite <- Et.
  unfold noWindow in Hno. rewrite forallb_forall in Hno.
  pose proof (candidateIndices_in_range
                (clampIndex (length haystack) (oldStart - 1 + offset))
                (length haystack) (clampIndex_le _ _)) as Hrange.
  set (cs := candidateIndices _ _) in *.
  assert (forall c, c ∈ cs ->
            matchesAt haystack (targetLinesOf hunk) c false = false
            /\ matchesAt haystack (targetLinesOf hunk) c true = false
            /\ matchesPartial haystack
                 (filter (fun line => trim line <> []) (removedLinesOf hunk))
                 c true = false
            /\ matchesPartial haystack
                 (take (Nat.min (length (contextLinesOf hunk)) 3)
                       (contextLinesOf hunk)) c true = false) as Hall.
  { intros c Hc. rewrite Forall_forall in Hrange.
    specialize (Hno c). rewrite Et in Hno.
    assert (In c (seq 0 (length haystack))) as Hin
      by (apply in_seq; specialize (Hrange c Hc); lia).
    specialize (Hno Hin). rewrite <- Et in Hno.
    rewrite !andb_true_iff, !negb_true_iff in Hno. tauto. }
  rewrite !find_nowhere; [done| | | |];
    apply Forall_forall; intros c Hc; by destruct (Hall c Hc) as (?&?&?&?).
Qed.

(** The running delta of the hunks applied so far: the replacement
    lines less the target lines, summed. *)
Definition runningDelta (hs : list Hunk) : Z :=
  foldr (fun h z => (Z.of_nat (length (replacementLinesOf h))
                     - Z.of_nat (length (targetLinesOf h)) + z)%Z) 0%Z hs.

(** The state in which the loop over the hunks of a file starts: the
    lines as they are, no offset. *)
Definition atFile (lines : list str) (log : list ManualLog) (patch : ParsedDiff)
  : ManualState :=
  {| working := lines; offset := 0;
     logged := log ++ [LogProcessing (length (hunks patch))] |}.

Lemma offset_after_hunks hs st :
  offset (fold_left applyHunk hs st) = (offset st + runningDelta hs)%Z.
Proof.
  revert st; induction hs as [|h hs IH]; intros st; simpl; [lia|].
  rewrite IH. unfold applyHunk. cbn [offset]. lia.
Qed.

Lemma offset_after_files patches st :
  offset (fold_left applyParsedDiff patches st) = offset st.
Proof.
  revert st; induction patches as [|patch patches IH]; intros st; [done|].
  simpl. by rewrite IH.
Qed.

(** C8. The loop of [applyPatchManually] takes the files of the patch
    in turn and the hunks of a file in turn, the offset starting at
    zero in every file. When it reaches a hunk that has target lines
    and for which no heuristic locates a window, the offset is the
    running delta of the hunks of that file before it, the hunk is
    spliced at its declared line, [oldStart - 1], moved by that delta
    and clamped to the lines the earlier hunks left, and the placement
    is logged as positional; the hunks after it go on from the lines
    and the delta it leaves. *)
Theorem C8_positional_fallback (original : str) (before rest : list ParsedDiff)
    (patch : ParsedDiff) (earlier later : list Hunk) (hunk : Hunk) :
  hunks patch = earlier ++ hunk :: later ->
  targetLinesOf hunk <> [] ->
  let start :=
    fold_left applyParsedDiff before
      {| working := split LF original; offset := 0; logged := [] |} in
  let reached :=
    fold_left applyHunk earlier (atFile (working start) (logged start) patch) in
  noWindow (working reached) hunk = true ->
  let positional :=
    clampIndex (length (working reached))
      (oldStart hunk - 1 + runningDelta earlier) in
  let spliced :=
    {| working := splice (working reached) positional
                    (length (targetLinesOf hunk)) (replacementLinesOf hunk);
       offset := runningDelta (earlier ++ [hunk]);
       logged := logged reached ++ [LogPositional (oldStart hunk) positional] |} in
  let left := fold_left applyHunk later spliced in
  let final :=
    fold_left applyParsedDiff rest
      {| working := working left; offset := 0; logged := logged left |} in
  offset reached = runningDelta earlier
  /\ positional <= length (working reached)
  /\ applyPatchManually original (before ++ patch :: rest)
     = (Some (join [LF] (working final)), logged final ++ [LogCompleted]).
Proof.
  intros Hhunks Htarget start reached Hno positional spliced left final.
  assert (offset reached = runningDelta earlier) as Hoffset.
  { unfold reached. rewrite offset_after_hunks. unfold atFile. cbn [offset]. lia. }
  split; [done|]. split; [apply clampIndex_le|].
  unfold applyPatchManually.
  destruct (before ++ patch :: rest) as [|p0 ps] eqn:E; [by destruct before|].
  rewrite <- E. clear E p0 ps.
  rewrite fold_left_app. fold start. cbn [fold_left].
  assert (applyParsedDiff start patch
          = {| working := working left; offset := 0; logged := logged left |})
    as Hfile; [|by rewrite Hfile].
  unfold applyParsedDiff.
  fold (atFile (working start) (logged start) patch).
  rewrite Hhunks, fold_left_app. fold reached. cbn [fold_left].
  assert (applyHunk reached hunk = spliced) as ->.
  { unfold applyHunk, spliced, positional.
    rewrite findBestSequenceIndex_none by done. rewrite Hoffset.
    unfold runningDelta. rewrite foldr_app. cbn [foldr].
    fold (runningDelta earlier).
    assert (forall z hs, foldr (fun h z => (Z.of_nat (length (replacementLinesOf h))
                                 - Z.of_nat (length (targetLinesOf h)) + z)%Z) z hs
                         = (runningDelta hs + z)%Z) as Hsum.
    { intros z hs. induction hs as [|h hs IH]; simpl; [lia|].
      rewrite IH. unfold runningDelta. lia. }
    rewrite Hsum.
    destruct (targetLinesOf hunk) eqn:Et; [done|]. f_equal. lia. }
  fold left. f_equal. unfold start. by rewrite offset_after_files.
Qed.

(** A file of three lines and a patch of two hunks: the first is found
    and adds two lines, the second names lines that are nowhere and
    goes to its declared line moved by those two. *)
Lemma C8_witness :
  applyPatchManually (js "a" ++ [LF] ++ js "b" ++ [LF] ++ js "c")
    ([] ++ {| oldFileName := None; newFileName := None;
              hunks := [{| oldStart := 1; oldLines := 1; newStart := 1; newLines := 3;
                           lines := [js " a"; js "+x"; js "+y"] |}]
                       ++ {| oldStart := 3; oldLines := 1; newStart := 5; newLines := 1;
                             lines := [js "-zz"; js "+q"] |} :: [] |} :: [])
  = (Some (js "a" ++ [LF] ++ js "x" ++ [LF] ++ js "y" ++ [LF] ++ js "b"
           ++ [LF] ++ js "q"),
     [LogProcessing 2; LogPositional 3 4; LogCompleted]).
Proof.
  refine (proj2 (proj2 (C8_positional_fallback
            (js "a" ++ [LF] ++ js "b" ++ [LF] ++ js "c") [] []
            {| oldFileName := None; newFileName := None;
               hunks := [{| oldStart := 1; oldLines := 1; newStart := 1; newLines := 3;
                            lines := [js " a"; js "+x"; js "+y"] |}]
                        ++ {| oldStart := 3; oldLines := 1; newStart := 5; newLines := 1;
                              lines := [js "-zz"; js "+q"] |} :: [] |}
            [{| oldStart := 1; oldLines := 1; newStart := 1; newLines := 3;
                lines := [js " a"; js "+x"; js "+y"] |}] []
            {| oldStart := 3; oldLines := 1; newStart := 5; newLines := 1;
               lines := [js "-zz"; js "+q"] |} eq_refl _ _))).
  - discriminate.
  - vm_compute. reflexivity.
Defined.

(** * Further properties of the code

    ** The file tool ([src/tools/filesystem.ts]) *)

Lemma endsWith_snoc (s : str) c : endsWith (s ++ [c]) [c] = true.
Proof.
  unfold endsWith. rewrite rev_app_distr. simpl. by rewrite N.eqb_refl.
Qed.

Lemma normalize_idempotent p :
  Path.isAbsolute p = true ->
  Path.normalize (Path.normalize p) = Path.normalize p.
Proof.
  intros Habs.
  assert (forall tail, tail = [] \/ tail = [Path.sep] ->
            join [Path.sep] (Fs.key p) <> [] ->
            Path.normalize (Path.sep :: join [Path.sep] (Fs.key p) ++ tail)
            = Path.sep :: join [Path.sep] (Fs.key p) ++ tail) as Hfix.
  { intros tail Htail Hne.
    assert (canonical (Path.sep :: join [Path.sep] (Fs.key p))) as Hcan.
    { eexists. split; [apply key_clean|done]. }
    assert (Fs.key p <> []) as Hk by (by intros E; rewrite E in Hne).
    unfold Path.normalize. simpl Path.isAbsolute. simpl negb.
    unfold Path.normalizeString.
    fold (Fs.key (Path.sep :: join [Path.sep] (Fs.key p) ++ tail)).
    assert (Fs.key (Path.sep :: join [Path.sep] (Fs.key p) ++ tail) = Fs.key p)
      as ->.
    { destruct Htail as [-> | ->].
      - rewrite app_nil_r. apply key_canonical, key_clean.
      - change (Path.sep :: join [Path.sep] (Fs.key p) ++ [Path.sep])
          with ((Path.sep :: join [Path.sep] (Fs.key p)) ++ [Path.sep]).
        rewrite key_snoc_sep. apply key_canonical, key_clean. }
    pose proof (canonical_namesFile _ Hcan) as Hn.
    rewrite key_canonical in Hn by apply key_clean.
    unfold Fs.namesDirectory in Hn. specialize (Hn Hk).
    destruct (join [Path.sep] (Fs.key p)) as [|b body] eqn:E; [done|].
    destruct Htail as [-> | ->].
    - rewrite app_nil_r. by rewrite Hn.
    - change (Path.sep :: (b :: body) ++ [Path.sep])
        with ((Path.sep :: b :: body) ++ [Path.sep]).
      by rewrite endsWith_snoc. }
  unfold Path.normalize at 2 3.
  destruct p as [|c q]; [done|]. rewrite Habs. simpl negb.
  unfold Path.normalizeString. fold (Fs.key (c :: q)).
  destruct (join [Path.sep] (Fs.key (c :: q))) as [|b body] eqn:E; [done|].
  destruct (endsWith (c :: q) [Path.sep]).
  - by apply (Hfix [Path.sep]); [right|].
  - rewrite <- (app_nil_r (b :: body)). by apply (Hfix []); [left|].
Qed.

(** What the guard accepts and what it rejects, exactly. For a root
    resolved against an absolute working directory, [resolve] returns
    the normalized target when it lies inside the workspace and its
    workspace-relative form does not begin with two dots, and throws
    the path-escape error in every other case. *)
Theorem guard_accepts_exactly cwd optionsRoot dry ask p :
  Path.isAbsolute cwd = true ->
  let t := FileSystemTool.new cwd optionsRoot dry ask in
  (insideWorkspace t p ->
   startsWith (workspaceRelative t p) (js "..") = false ->
   FileSystemTool.resolve cwd t p
   = Return (Path.normalize (FileSystemTool.candidate t p)))
  /\ (~ insideWorkspace t p
      \/ startsWith (workspaceRelative t p) (js "..") = true ->
      FileSystemTool.resolve cwd t p = Throw (PathEscapesWorkspace p)).
Proof.
  intros Hcwd t.
  assert (canonical (root t)) as Hroot by (by apply resolve_canonical).
  split.
  - intros Hin Hdots. by apply resolve_returns.
  - intros [Hout | Hdots].
    + by apply resolve_outside.
    + destruct (decide (Fs.key (root t) `prefix_of`
        Fs.key (Path.normalize (FileSystemTool.candidate t p)))) as [Hin|Hout].
      * unfold FileSystemTool.resolve. by rewrite relative_inside, Hdots.
      * by apply resolve_outside.
Qed.

Lemma guard_accepts_exactly_witness :
  FileSystemTool.resolve (js "/") ws (js "src/../lib/a.ts") = Return (js "/w/lib/a.ts")
  /\ FileSystemTool.resolve (js "/") ws (js "..hidden/a.ts")
     = Throw (PathEscapesWorkspace (js "..hidden/a.ts")).
Proof.
  split.
  - apply (proj1 (guard_accepts_exactly (js "/") (js "/w") false None
                    (js "src/../lib/a.ts") eq_refl)).
    + unfold insideWorkspace. vm_compute. by exists [js "lib"; js "a.ts"].
    + reflexivity.
  - apply (proj2 (guard_accepts_exactly (js "/") (js "/w") false None
                    (js "..hidden/a.ts") eq_refl)).
    right. reflexivity.
Defined.

(** The path [resolve] returns is accepted again and returned as it
    is: resolving is idempotent. *)
Theorem resolve_idempotent cwd optionsRoot dry ask p resolved :
  Path.isAbsolute cwd = true ->
  let t := FileSystemTool.new cwd optionsRoot dry ask in
  FileSystemTool.resolve cwd t p = Return resolved ->
  FileSystemTool.resolve cwd t resolved = Return resolved.
Proof.
  intros Hcwd t Hres.
  assert (canonical (root t)) as Hroot by (by apply resolve_canonical).
  destruct (resolve_returned _ _ _ _ Hroot Hres) as (-> & Hin & Hdots).
  pose proof (normalized_absolute t p Hroot) as Habs.
  assert (FileSystemTool.candidate t (Path.normalize (FileSystemTool.candidate t p))
          = Path.normalize (FileSystemTool.candidate t p)) as Hcand.
  { unfold FileSystemTool.candidate at 1. by rewrite Habs. }
  pose proof (candidate_absolute t p Hroot) as Hcabs.
  rewrite <- (normalize_idempotent (FileSystemTool.candidate t p) Hcabs) at 2.
  rewrite <- Hcand at 2.
  apply resolve_returns; [done| |].
  - unfold insideWorkspace. rewrite Hcand, normalize_idempotent by done. apply Hin.
  - unfold workspaceRelative. rewrite Hcand, normalize_idempotent by done.
    apply Hdots.
Qed.

Lemma resolve_idempotent_witness :
  FileSystemTool.resolve (js "/") ws (js "/w/src/../lib/") = Return (js "/w/lib/")
  /\ FileSystemTool.resolve (js "/") ws (js "/w/lib/") = Return (js "/w/lib/").
Proof.
  split; [reflexivity|].
  apply (resolve_idempotent (js "/") (js "/w") false None (js "/w/src/../lib/")
           (js "/w/lib/") eq_refl).
  reflexivity.
Defined.
(** A dry run changes nothing: [write] and [delete] leave the disk as
    it was, and the mutation they return, if any, is not applied and
    gives [dry-run] as its reason. *)
Theorem dry_run_changes_nothing cwd t p content fs :
  dryRun t = true ->
  (exists r, FileSystemTool.write cwd t p content fs = (r, fs)
             /\ forall m, r = Return m ->
                  applied m = false /\ reason m = Some (js "dry-run")
                  /\ after m = Some content /\ before m = recorded fs
                       (Path.normalize (FileSystemTool.candidate t p)))
  /\ (exists r, FileSystemTool.delete cwd t p fs = (r, fs)
                /\ forall m, r = Return m ->
                     applied m = false /\ reason m = Some (js "dry-run")
                     /\ before m = recorded fs
                          (Path.normalize (FileSystemTool.candidate t p))).
Proof.
  intros Hdry. split.
  - unfold FileSystemTool.write, mbind, IO_bind, liftOutcome.
    destruct (FileSystemTool.resolve cwd t p) as [resolved|e] eqn:Hres.
    + rewrite readOrUndefined_lookup, Hdry. eexists. split; [done|].
      intros m [= <-]. simpl. repeat split.
      unfold FileSystemTool.resolve in Hres.
      destruct (_ || _); [done|]. by injection Hres as <-.
    + eexists. split; [done|]. by intros m.
  - unfold FileSystemTool.delete, mbind, IO_bind, liftOutcome.
    destruct (FileSystemTool.resolve cwd t p) as [resolved|e] eqn:Hres.
    + rewrite readOrUndefined_lookup, Hdry. eexists. split; [done|].
      intros m [= <-]. simpl. repeat split.
      unfold FileSystemTool.resolve in Hres.
      destruct (_ || _); [done|]. by injection Hres as <-.
    + eexists. split; [done|]. by intros m.
Qed.

Lemma dry_run_changes_nothing_witness :
  FileSystemTool.write (js "/") (FileSystemTool.new (js "/") (js "/w") true None)
    (js "a.txt") (js "bye") disk0
  = (Return {| action := MWrite; path := js "a.txt"; preview := Some (js "bye");
               before := Some (js "hello"); after := Some (js "bye");
               applied := false; reason := Some (js "dry-run") |}, disk0).
Proof.
  destruct (dry_run_changes_nothing (js "/")
              (FileSystemTool.new (js "/") (js "/w") true None)
              (js "a.txt") (js "bye") disk0 eq_refl) as [(r & Hw & _) _].
  rewrite Hw. f_equal.
  assert (fst (FileSystemTool.write (js "/")
                 (FileSystemTool.new (js "/") (js "/w") true None)
                 (js "a.txt") (js "bye") disk0) = r) as <- by (by rewrite Hw).
  vm_compute. reflexivity.
Defined.

(** The regular files change only under a mutation that is returned as
    applied: a [write] or [delete] that throws, or that returns a
    mutation that is not applied (a dry run, a declined approval),
    leaves every file as it was. (Directories are not part of the
    disk of this model: a [write] that throws may have created some.) *)
Theorem disk_changes_only_when_applied cwd t p content fs :
  (snd (FileSystemTool.write cwd t p content fs) = fs
   \/ exists m, fst (FileSystemTool.write cwd t p content fs) = Return m
                /\ applied m = true /\ reason m = None)
  /\ (snd (FileSystemTool.delete cwd t p fs) = fs
      \/ exists m, fst (FileSystemTool.delete cwd t p fs) = Return m
                   /\ applied m = true /\ reason m = None).
Proof.
  split.
  - destruct (FileSystemTool.write cwd t p content fs) as [[m|e] fs'] eqn:H.
    + revert H. unfold FileSystemTool.write, mbind, IO_bind, liftOutcome.
      destruct (FileSystemTool.resolve cwd t p) as [resolved|]; [|done].
      rewrite readOrUndefined_lookup.
      destruct (dryRun t); [intros [= _ <-]; by left|].
      destruct (FileSystemTool.declines t _); [intros [= _ <-]; by left|].
      destruct (Fs.mkdir _ fs) as [[[]|] fs0]; [|done].
      destruct (Fs.writeFile _ _ fs0) as [[[]|] fs1]; [|done].
      intros [= <- _]. right. by eexists.
    + left. by apply write_throws_unchanged in H.
  - destruct (FileSystemTool.delete cwd t p fs) as [[m|e] fs'] eqn:H.
    + revert H. unfold FileSystemTool.delete, mbind, IO_bind, liftOutcome.
      destruct (FileSystemTool.resolve cwd t p) as [resolved|]; [|done].
      rewrite readOrUndefined_lookup.
      destruct (dryRun t); [intros [= _ <-]; by left|].
      destruct (FileSystemTool.declines t _); [intros [= _ <-]; by left|].
      destruct (Fs.rmRecursive _ fs) as [[[]|] fs0]; [|done].
      intros [= <- _]. right. by eexists.
    + left. by apply delete_throws_unchanged in H.
Qed.

(** A declined approval: when the [confirm] callback refuses, [write]
    and [delete] return the mutation unapplied with reason [declined]
    and the disk is as it was. *)
Theorem declined_changes_nothing cwd t p content fs ask resolved :
  dryRun t = false -> confirm t = Some ask ->
  (forall pending, ask pending = false) ->
  FileSystemTool.resolve cwd t p = Return resolved ->
  (exists m, FileSystemTool.write cwd t p content fs = (Return m, fs)
             /\ applied m = false /\ reason m = Some (js "declined")
             /\ before m = recorded fs resolved /\ after m = Some content)
  /\ (exists m, FileSystemTool.delete cwd t p fs = (Return m, fs)
                /\ applied m = false /\ reason m = Some (js "declined")
                /\ before m = recorded fs resolved).
Proof.
  intros Hdry Hask Hno Hres. split.
  - unfold FileSystemTool.write, mbind, IO_bind, liftOutcome. rewrite Hres.
    rewrite readOrUndefined_lookup, Hdry. unfold FileSystemTool.declines.
    rewrite Hask, Hno. simpl. by eexists.
  - unfold FileSystemTool.delete, mbind, IO_bind, liftOutcome. rewrite Hres.
    rewrite readOrUndefined_lookup, Hdry. unfold FileSystemTool.declines.
    rewrite Hask, Hno. simpl. by eexists.
Qed.

Lemma declined_changes_nothing_witness :
  let t := FileSystemTool.new (js "/") (js "/w") false (Some (fun _ => false)) in
  exists m, FileSystemTool.delete (js "/") t (js "a.txt") disk0 = (Return m, disk0)
            /\ applied m = false /\ reason m = Some (js "declined")
            /\ before m = recorded disk0 (js "/w/a.txt").
Proof.
  intros t.
  apply (proj2 (declined_changes_nothing (js "/") t (js "a.txt") (js "") disk0
                  (fun _ => false) (js "/w/a.txt") eq_refl eq_refl
                  (fun _ => eq_refl) eq_refl)).
Defined.
(** What an applied [write] has done: the file holds the content as
    UTF-8 stores it (every lone surrogate replaced by U+FFFD), every
    other file is as it was, and the mutation records the text the file
    held before ([before] absent when there was no file). Reading the
    path back returns the stored text, which is the content when the
    content holds no lone surrogate. *)
Theorem applied_write_effect cwd t p content fs m fs1 :
  FileSystemTool.write cwd t p content fs = (Return m, fs1) ->
  applied m = true ->
  exists resolved,
    FileSystemTool.resolve cwd t p = Return resolved
    /\ fs1 = <[Fs.key resolved := toWellFormed content]> fs
    /\ (forall k, k <> Fs.key resolved -> fs1 !! k = fs !! k)
    /\ action m = MWrite
    /\ path m = Path.relative cwd (root t) resolved
    /\ before m = recorded fs resolved
    /\ after m = Some content
    /\ FileSystemTool.read cwd t p fs1 = (Return (toWellFormed content), fs1)
    /\ (toWellFormed content = content ->
        FileSystemTool.read cwd t p fs1 = (Return content, fs1)).
Proof.
  unfold FileSystemTool.write, mbind, IO_bind, liftOutcome.
  destruct (FileSystemTool.resolve cwd t p) as [resolved|] eqn:Hres; [|done].
  rewrite readOrUndefined_lookup.
  destruct (dryRun t); [by intros [= <- _]|].
  destruct (FileSystemTool.declines t _); [by intros [= <- _]|].
  destruct (Fs.mkdir _ fs) as [[[]|] fs0] eqn:Hmk; [|done].
  assert (fs0 = fs) as ->.
  { revert Hmk. unfold Fs.mkdir.
    destruct (Fs.ancestorIsFile _ _); [done|].
    destruct (Fs.isFile _ _); [done|]. by intros [= <-]. }
  unfold Fs.writeFile.
  destruct (Fs.throughFile fs resolved); [done|].
  destruct (Fs.namesDirectory resolved) eqn:Hn; [done|]. simpl.
  destruct (Fs.isDirectory fs (Fs.key resolved)); [done|].
  intros [= <- <-] _. exists resolved. simpl.
  assert (FileSystemTool.read cwd t p
            (<[Fs.key resolved := toWellFormed content]> fs)
          = (Return (toWellFormed content),
             <[Fs.key resolved := toWellFormed content]> fs)) as Hread.
  { unfold FileSystemTool.read, mbind, IO_bind, liftOutcome, tryCatch, Fs.readFile.
    rewrite Hres. by rewrite lookup_insert_eq, Hn, toWellFormed_idempotent. }
  repeat split; [|done|].
  - intros k Hk. by rewrite lookup_insert_ne.
  - intros Hwf. by rewrite Hread, Hwf.
Qed.

Lemma applied_write_effect_witness :
  exists resolved,
    FileSystemTool.resolve (js "/") ws (js "src/b.txt") = Return resolved
    /\ <[ [js "w"; js "src"; js "b.txt"] := js "x" ]> disk0
       = <[Fs.key resolved := js "x"]> disk0
    /\ (forall k, k <> Fs.key resolved ->
          <[ [js "w"; js "src"; js "b.txt"] := js "x" ]> disk0 !! k = disk0 !! k)
    /\ action (written (js "src/b.txt") None (js "x")) = MWrite
    /\ path (written (js "src/b.txt") None (js "x"))
       = Path.relative (js "/") (root ws) resolved
    /\ before (written (js "src/b.txt") None (js "x")) = recorded disk0 resolved
    /\ after (written (js "src/b.txt") None (js "x")) = Some (js "x")
    /\ FileSystemTool.read (js "/") ws (js "src/b.txt")
         (<[ [js "w"; js "src"; js "b.txt"] := js "x" ]> disk0)
       = (Return (js "x"), <[ [js "w"; js "src"; js "b.txt"] := js "x" ]> disk0)
    /\ (js "x" = js "x" ->
        FileSystemTool.read (js "/") ws (js "src/b.txt")
          (<[ [js "w"; js "src"; js "b.txt"] := js "x" ]> disk0)
        = (Return (js "x"), <[ [js "w"; js "src"; js "b.txt"] := js "x" ]> disk0)).
Proof.
  apply (applied_write_effect (js "/") ws (js "src/b.txt") (js "x") disk0).
  - vm_compute. reflexivity.
  - reflexivity.
Defined.

(** What an applied [delete] has done: the path and everything below
    it are gone, every other file is as it was, and the mutation
    records the content of the file that was deleted ([before] absent
    for a directory or a missing path). Reading the path afterwards
    fails. *)
Theorem applied_delete_effect cwd t p fs m fs1 :
  FileSystemTool.delete cwd t p fs = (Return m, fs1) ->
  applied m = true ->
  exists resolved,
    FileSystemTool.resolve cwd t p = Return resolved
    /\ (forall k, Fs.key resolved `prefix_of` k -> fs1 !! k = None)
    /\ (forall k, ~ Fs.key resolved `prefix_of` k -> fs1 !! k = fs !! k)
    /\ action m = MDelete
    /\ path m = Path.relative cwd (root t) resolved
    /\ before m = recorded fs resolved
    /\ after m = None
    /\ exists code,
         FileSystemTool.read cwd t p fs1 = (Throw (FailedToRead p code), fs1).
Proof.
  unfold FileSystemTool.delete, mbind, IO_bind, liftOutcome.
  destruct (FileSystemTool.resolve cwd t p) as [resolved|] eqn:Hres; [|done].
  rewrite readOrUndefined_lookup.
  destruct (dryRun t); [by intros [= <- _]|].
  destruct (FileSystemTool.declines t _); [by intros [= <- _]|].
  unfold Fs.rmRecursive. destruct (Fs.throughFile fs resolved); [done|].
  intros [= <- <-] _. exists resolved. simpl.
  assert (forall k, Fs.key resolved `prefix_of` k ->
            filter (fun kv => ~ Fs.key resolved `prefix_of` kv.1) fs !! k = None)
    as Hgone.
  { intros k Hk. apply map_lookup_filter_None. right. intros c _ Hn. by apply Hn. }
  repeat split; [done| |].
  - intros k Hk.
    destruct (fs !! k) as [c|] eqn:E.
    + by apply map_lookup_filter_Some.
    + apply map_lookup_filter_None. by left.
  - unfold FileSystemTool.read, mbind, IO_bind, liftOutcome, tryCatch, Fs.readFile.
    rewrite Hres. rewrite Hgone by done. by eexists.
Qed.

Lemma applied_delete_effect_witness :
  exists resolved,
    FileSystemTool.resolve (js "/") ws (js "a.txt") = Return resolved
    /\ (forall k, Fs.key resolved `prefix_of` k -> (∅ : FS) !! k = None)
    /\ (forall k, ~ Fs.key resolved `prefix_of` k -> (∅ : FS) !! k = disk0 !! k)
    /\ action (deleted (js "a.txt") (Some (js "hello"))) = MDelete
    /\ path (deleted (js "a.txt") (Some (js "hello")))
       = Path.relative (js "/") (root ws) resolved
    /\ before (deleted (js "a.txt") (Some (js "hello"))) = recorded disk0 resolved
    /\ after (deleted (js "a.txt") (Some (js "hello"))) = None
    /\ exists code,
         FileSystemTool.read (js "/") ws (js "a.txt") ∅
         = (Throw (FailedToRead (js "a.txt") code), ∅).
Proof.
  apply (applied_delete_effect (js "/") ws (js "a.txt") disk0).
  - vm_compute. reflexivity.
  - reflexivity.
Defined.
(** Deleting is idempotent: after an applied [delete], deleting the
    same path again (approval granted) returns an applied mutation
    that records no [before] and leaves the disk as the first delete
    left it. *)
Theorem delete_twice cwd t p fs m1 fs1 :
  granted (confirm t) ->
  FileSystemTool.delete cwd t p fs = (Return m1, fs1) ->
  applied m1 = true ->
  exists m2,
    FileSystemTool.delete cwd t p fs1 = (Return m2, fs1)
    /\ applied m2 = true /\ before m2 = None /\ path m2 = path m1.
Proof.
  intros Hask. unfold FileSystemTool.delete, mbind, IO_bind, liftOutcome.
  destruct (FileSystemTool.resolve cwd t p) as [resolved|] eqn:Hres; [|done].
  rewrite !readOrUndefined_lookup.
  destruct (dryRun t); [by intros [= <- _]|].
  rewrite !granted_declines by done.
  unfold Fs.rmRecursive.
  destruct (Fs.throughFile fs resolved) eqn:Hthrough; [done|].
  intros [= <- <-] _. simpl.
  set (fs1 := filter (fun kv => ~ Fs.key resolved `prefix_of` kv.1) fs).
  assert (fs1 !! Fs.key resolved = None) as Hgone.
  { apply map_lookup_filter_None. right. intros c _ Hn. by apply Hn. }
  assert (Fs.throughFile fs1 resolved = false) as ->.
  { unfold Fs.throughFile in *. apply orb_false_iff in Hthrough as [Ha _].
    apply orb_false_iff. split.
    - apply ancestorIsFile_false. rewrite ancestorIsFile_false in Ha.
      intros k' Hk'. apply map_lookup_filter_None. left. by apply Ha.
    - unfold Fs.isFile. rewrite Hgone.
      rewrite bool_decide_eq_false_2 by (by intros [? ?]). apply andb_false_r. }
  eexists. split.
  - f_equal. apply map_filter_id. intros k c Hk.
    by apply map_lookup_filter_Some in Hk as [_ Hk].
  - simpl. split; [done|]. split; [|done]. unfold recorded.
    destruct (Fs.namesDirectory resolved); [done|]. by rewrite Hgone.
Qed.

Lemma delete_twice_witness :
  exists m2,
    FileSystemTool.delete (js "/") ws (js "a.txt") ∅ = (Return m2, ∅)
    /\ applied m2 = true /\ before m2 = None
    /\ path m2 = path (deleted (js "a.txt") (Some (js "hello"))).
Proof.
  apply (delete_twice (js "/") ws (js "a.txt") disk0).
  - intros f Hf. discriminate Hf.
  - vm_compute. reflexivity.
  - reflexivity.
Defined.

(** What [read] returns: the text of the file the guard resolves the
    path to, decoded as UTF-8, when the disk holds one there and the
    path does not end with a separator; in every other case it throws,
    and in no case does it change the disk. *)
Theorem read_returns_exactly cwd t p fs :
  snd (FileSystemTool.read cwd t p fs) = fs
  /\ forall content,
       fst (FileSystemTool.read cwd t p fs) = Return content
       <-> exists resolved stored,
             FileSystemTool.resolve cwd t p = Return resolved
             /\ Fs.namesDirectory resolved = false
             /\ fs !! Fs.key resolved = Some stored
             /\ content = toWellFormed stored.
Proof.
  unfold FileSystemTool.read, mbind, IO_bind, liftOutcome, tryCatch, Fs.readFile.
  destruct (FileSystemTool.resolve cwd t p) as [resolved|e] eqn:Hres.
  - destruct (fs !! Fs.key resolved) as [c|] eqn:E.
    + destruct (Fs.namesDirectory resolved) eqn:Hn; simpl.
      * split; [done|]. intros content. split; [done|].
        intros (r & stored & [= <-] & Hn' & _). congruence.
      * split; [done|]. intros content. split.
        -- intros [= <-]. by exists resolved, c.
        -- intros (r & stored & [= <-] & _ & H & ->). congruence.
    + simpl. split; [done|]. intros content. split; [done|].
      intros (r & stored & [= <-] & _ & H & _). congruence.
  - simpl. split; [done|]. intros content. split; [done|].
    by intros (r & stored & Hr & _).
Qed.
(** ** Rollback of what the file tool recorded ([src/ui/App.tsx]) *)

Lemma resolveLoop_acc args cwd acc :
  Path.resolveLoop args cwd acc
  = ((Path.resolveLoop args cwd []).1 ++ acc, (Path.resolveLoop args cwd []).2).
Proof.
  revert acc; induction args as [|a args IH]; intros acc; simpl.
  - destruct cwd as [|c cwd']; [done|]. simpl. by rewrite <- !app_assoc.
  - destruct a as [|c a]; [apply IH|].
    destruct (Path.isAbsolute (c :: a)).
    + simpl. by rewrite <- !app_assoc.
    + rewrite (IH ((c :: a) ++ Path.sep :: acc)), (IH ((c :: a) ++ [Path.sep])).
      cbn [fst snd]. f_equal. by rewrite <- !app_assoc.
Qed.

Lemma resolveLoop_ends cwd args :
  Path.isAbsolute cwd = true ->
  exists y, Path.resolveLoop args cwd [] = (y ++ [Path.sep], true).
Proof.
  intros Hcwd. induction args as [|a args IH]; simpl.
  - destruct cwd as [|c cwd']; [done|]. rewrite Hcwd. by exists (c :: cwd').
  - destruct a as [|c a]; [apply IH|].
    destruct (Path.isAbsolute (c :: a)).
    + by exists (c :: a).
    + rewrite resolveLoop_acc. destruct IH as (y & ->). cbn [fst snd].
      exists (y ++ [Path.sep] ++ c :: a). by rewrite <- !app_assoc.
Qed.

Lemma normalizeSegments_app_clean b l D :
  Forall cleanSeg D ->
  Path.normalizeSegments b (l ++ D) = Path.normalizeSegments b l ++ D.
Proof.
  intros HD. unfold Path.normalizeSegments.
  rewrite fold_left_app, normalize_fold_id by done.
  by rewrite rev_app_distr, rev_involutive.
Qed.

(** The target the rollback computes from the path a mutation records
    is the file the tool resolved. *)
Lemma targetOf_recorded cwd wr dry ask p resolved :
  Path.isAbsolute cwd = true ->
  let t := FileSystemTool.new cwd wr dry ask in
  FileSystemTool.resolve cwd t p = Return resolved ->
  Fs.key (Path.resolve cwd [wr; Path.relative cwd (root t) resolved])
  = Fs.key resolved.
Proof.
  intros Hcwd t Hres.
  assert (canonical (root t)) as Hroot by (by apply resolve_canonical).
  destruct (resolve_returned _ _ _ _ Hroot Hres) as (-> & Hin & _).
  rewrite relative_inside by done. unfold workspaceRelative.
  set (K := Fs.key (Path.normalize (FileSystemTool.candidate t p))) in *.
  set (D := drop (length (Fs.key (root t))) K).
  assert (Forall cleanSeg D) as HD by apply Forall_drop, key_clean.
  assert (K = Fs.key (root t) ++ D) as HK.
  { destruct Hin as [D' HD']. unfold D. fold K in HD'.
    by rewrite HD', drop_app_length. }
  rewrite HK. clear HK.
  destruct (resolveLoop_ends cwd [wr] Hcwd) as (y & Hy).
  assert (Fs.key (root t) = Path.normalizeSegments false (Path.segments y)) as ->.
  { unfold t, FileSystemTool.new. simpl root. unfold Path.resolve.
    simpl rev. rewrite Hy. unfold Path.normalizeString.
    rewrite key_canonical by apply normalizeSegments_clean, split_sepfree_all.
    by rewrite segments_snoc_sep, normalizeSegments_empty_r. }
  unfold Path.resolve. simpl rev.
  destruct (join [Path.sep] D) as [|c r] eqn:E.
  - apply join_nil_clean in E as ->; [|done].
    change (Path.resolveLoop [[]; wr] cwd []) with (Path.resolveLoop [wr] cwd []).
    rewrite Hy. unfold Path.normalizeString.
    rewrite key_canonical by apply normalizeSegments_clean, split_sepfree_all.
    by rewrite segments_snoc_sep, normalizeSegments_empty_r, app_nil_r.
  - assert (Path.isAbsolute (c :: r) = false) as Hrel.
    { rewrite <- E. by apply join_clean_not_absolute. }
    change (Path.resolveLoop [c :: r; wr] cwd [])
      with (if Path.isAbsolute (c :: r) then ((c :: r) ++ [Path.sep] ++ [], true)
            else Path.resolveLoop [wr] cwd ((c :: r) ++ [Path.sep] ++ [])).
    rewrite Hrel, resolveLoop_acc, Hy. cbn [fst snd].
    unfold Path.normalizeString.
    rewrite key_canonical by apply normalizeSegments_clean, split_sepfree_all.
    rewrite <- E.
    replace ((y ++ [Path.sep]) ++ join [Path.sep] D ++ [Path.sep] ++ [])
      with ((y ++ Path.sep :: join [Path.sep] D) ++ [Path.sep])
      by (by rewrite <- !app_assoc).
    rewrite segments_snoc_sep, normalizeSegments_empty_r.
    unfold Path.segments. rewrite split_app.
    assert (D <> []) as HDne by (intros HD0; by rewrite HD0 in E).
    rewrite split_join; [|done|].
    + by apply normalizeSegments_app_clean.
    + eapply Forall_impl; [done|]. by intros x (_ & _ & _ & ?).
Qed.

(** What a [write] that returned an applied mutation found and did. *)
Lemma write_applied_inv cwd t p content fs m fs1 :
  FileSystemTool.write cwd t p content fs = (Return m, fs1) ->
  applied m = true ->
  exists resolved,
    FileSystemTool.resolve cwd t p = Return resolved
    /\ Fs.namesDirectory resolved = false
    /\ writable fs (Fs.key resolved)
    /\ fs1 = <[Fs.key resolved := toWellFormed content]> fs
    /\ m = {| action := MWrite;
              path := Path.relative cwd (root t) resolved;
              preview := Some (slice content 0 500);
              before := toWellFormed <$> fs !! Fs.key resolved;
              after := Some content; applied := true; reason := None |}.
Proof.
  unfold FileSystemTool.write, mbind, IO_bind, liftOutcome.
  destruct (FileSystemTool.resolve cwd t p) as [resolved|] eqn:Hres; [|done].
  rewrite readOrUndefined_lookup.
  destruct (dryRun t); [by intros [= <- _]|].
  destruct (FileSystemTool.declines t _); [by intros [= <- _]|].
  destruct (Fs.mkdir _ fs) as [[[]|] fs0] eqn:Hmk; [|done].
  assert (fs0 = fs) as ->.
  { revert Hmk. unfold Fs.mkdir.
    destruct (Fs.ancestorIsFile _ _); [done|].
    destruct (Fs.isFile _ _); [done|]. by intros [= <-]. }
  unfold Fs.writeFile, Fs.throughFile.
  destruct (Fs.ancestorIsFile fs (Fs.key resolved)) eqn:Ha; [done|].
  destruct (Fs.namesDirectory resolved) eqn:Hn; [by destruct (_ && _)|]. simpl.
  destruct (Fs.isDirectory fs (Fs.key resolved)) eqn:Hd; [done|].
  intros [= <- <-] _. exists resolved. unfold recorded. rewrite Hn. by simpl.
Qed.

(** A write is undone by the rollback. After an applied [write],
    rolling back its mutation removes the file when the write created
    it, and otherwise writes back the text the write had read: every
    regular file is then exactly as it was before the write, provided
    the file that was overwritten was valid UTF-8 (what is not is read
    as U+FFFD and comes back so). Directories the write created are
    not removed; they are not part of the disk of this model. *)
Theorem write_then_rollback cwd wr ask p content fs m fs1 :
  Path.isAbsolute cwd = true ->
  let t := FileSystemTool.new cwd wr false ask in
  FileSystemTool.write cwd t p content fs = (Return m, fs1) ->
  applied m = true ->
  exists resolved,
    FileSystemTool.resolve cwd t p = Return resolved
    /\ Rollback.rollbackMutations cwd wr [m] fs1
       = (Return tt, match fs !! Fs.key resolved with
                     | Some old => <[Fs.key resolved := toWellFormed old]> fs
                     | None => fs
                     end)
    /\ ((forall old, fs !! Fs.key resolved = Some old -> toWellFormed old = old) ->
        Rollback.rollbackMutations cwd wr [m] fs1 = (Return tt, fs)).
Proof.
  intros Hcwd t Hw Happ.
  destruct (write_applied_inv _ _ _ _ _ _ _ Hw Happ)
    as (resolved & Hres & Hn & Hwr & -> & ->).
  exists resolved. split; [done|].
  assert (Rollback.rollbackMutations cwd wr
            [{| action := MWrite; path := Path.relative cwd (root t) resolved;
                preview := Some (slice content 0 500);
                before := toWellFormed <$> fs !! Fs.key resolved;
                after := Some content; applied := true; reason := None |}]
            (<[Fs.key resolved := toWellFormed content]> fs)
          = (Return tt, match fs !! Fs.key resolved with
                        | Some old => <[Fs.key resolved := toWellFormed old]> fs
                        | None => fs
                        end)) as Hroll.
  { rewrite rollbackMutations_effect by (done || by apply NoDup_singleton).
    cbn [foldr]. f_equal. unfold undone, targetKey, Rollback.targetOf.
    cbn [action before path]. subst t.
    rewrite (targetOf_recorded cwd wr false ask p resolved Hcwd Hres).
    pose proof (writable_insert _ _ (toWellFormed content) Hwr) as Hwr1.
    destruct (fs !! Fs.key resolved) as [old|] eqn:E; simpl.
    - apply writableb_true in Hwr1 as ->.
      by rewrite insert_insert_eq, toWellFormed_idempotent.
    - destruct Hwr1 as [-> _]. rewrite delete_insert_eq. by apply delete_id. }
  split; [done|]. intros Hold. rewrite Hroll. f_equal.
  destruct (fs !! Fs.key resolved) as [old|] eqn:E; [|done].
  rewrite (Hold old eq_refl). by apply insert_id.
Qed.

Lemma write_then_rollback_witness :
  Rollback.rollbackMutations (js "/") (js "/w")
    [written (js "a.txt") (Some (js "hello")) (js "bye")]
    (<[ [js "w"; js "a.txt"] := js "bye" ]> disk0)
  = (Return tt, disk0).
Proof.
  destruct (write_then_rollback (js "/") (js "/w") None (js "a.txt") (js "bye")
              disk0 (written (js "a.txt") (Some (js "hello")) (js "bye"))
              (<[ [js "w"; js "a.txt"] := js "bye" ]> disk0) eq_refl)
    as (resolved & Hres & _ & Hback).
  - vm_compute. reflexivity.
  - reflexivity.
  - apply Hback. injection Hres as <-. intros old Hold.
    vm_compute in Hold. injection Hold as <-. reflexivity.
Defined.

(** The delete of a regular file is undone by the rollback: when the
    path names a file that sits where the operating system can put it
    back, an approved [delete] removes that file and the rollback of
    its mutation writes the text that was read back in its place, so
    that every regular file is exactly as it was when the file was
    valid UTF-8. *)
Theorem delete_file_then_rollback cwd wr ask p fs resolved old :
  Path.isAbsolute cwd = true ->
  let t := FileSystemTool.new cwd wr false ask in
  granted ask ->
  FileSystemTool.resolve cwd t p = Return resolved ->
  Fs.namesDirectory resolved = false ->
  fs !! Fs.key resolved = Some old ->
  writable fs (Fs.key resolved) ->
  exists m fs1,
    FileSystemTool.delete cwd t p fs = (Return m, fs1)
    /\ applied m = true /\ before m = Some (toWellFormed old)
    /\ fs1 = delete (Fs.key resolved) fs
    /\ Rollback.rollbackMutations cwd wr [m] fs1
       = (Return tt, <[Fs.key resolved := toWellFormed old]> fs)
    /\ (toWellFormed old = old ->
        Rollback.rollbackMutations cwd wr [m] fs1 = (Return tt, fs)).
Proof.
  intros Hcwd t Hask Hres Hn Hold Hwr.
  assert (filter (fun kv : list str * str => ~ Fs.key resolved `prefix_of` kv.1) fs
          = delete (Fs.key resolved) fs) as Hrm.
  { apply map_eq. intros k.
    destruct (decide (k = Fs.key resolved)) as [->|Hk].
    - rewrite lookup_delete_eq. apply map_lookup_filter_None. right.
      intros c _ Hc. by apply Hc.
    - rewrite lookup_delete_ne by done.
      destruct (fs !! k) as [c|] eqn:E.
      + apply map_lookup_filter_Some. split; [done|]. simpl. intros Hpre.
        destruct Hwr as [Hd _]. apply isDirectory_false in Hd as [_ Hd].
        by apply (Hd k c E).
      + apply map_lookup_filter_None. by left. }
  eexists _, _. split.
  { unfold FileSystemTool.delete, mbind, IO_bind, liftOutcome. rewrite Hres.
    rewrite readOrUndefined_lookup. cbn [dryRun t FileSystemTool.new].
    rewrite granted_declines by done. unfold Fs.rmRecursive.
    rewrite throughFile_false by (done || apply Hwr). reflexivity. }
  unfold recorded. rewrite Hn, Hold, Hrm. cbn [settle applied before p_before fmap option_fmap option_map].
  split; [done|]. split; [done|]. split; [done|].
  assert (Rollback.rollbackMutations cwd wr
            [settle {| p_action := MDelete;
                       p_path := Path.relative cwd (root t) resolved;
                       p_preview := None; p_before := Some (toWellFormed old);
                       p_after := None |} true None]
            (delete (Fs.key resolved) fs)
          = (Return tt, <[Fs.key resolved := toWellFormed old]> fs)) as Hroll.
  { rewrite rollbackMutations_effect by (done || by apply NoDup_singleton).
    cbn [foldr]. f_equal. unfold undone, targetKey, Rollback.targetOf.
    cbn [settle action before path p_action p_before p_path]. subst t.
    rewrite (targetOf_recorded cwd wr false ask p resolved Hcwd Hres).
    assert (writable (delete (Fs.key resolved) fs) (Fs.key resolved)) as Hwr1.
    { destruct Hwr as [Hd Ha]. split.
      - apply isDirectory_false. apply isDirectory_false in Hd as [Hne Hd].
        split; [done|]. intros k c Hk Hb.
        apply lookup_delete_Some in Hk as [_ Hk]. by apply (Hd k c).
      - apply ancestorIsFile_false. rewrite ancestorIsFile_false in Ha.
        intros k Hb. rewrite lookup_delete_ne; [by apply Ha|].
        intros <-. by destruct Hb. }
    apply writableb_true in Hwr1 as ->.
    rewrite toWellFormed_idempotent. apply insert_delete_eq. }
  split; [done|]. intros Hwf. rewrite Hroll, Hwf. f_equal. by apply insert_id.
Qed.

Lemma delete_file_then_rollback_witness :
  exists m fs1,
    FileSystemTool.delete (js "/") ws (js "a.txt") disk0 = (Return m, fs1)
    /\ applied m = true /\ before m = Some (js "hello")
    /\ fs1 = delete (Fs.key (js "/w/a.txt")) disk0
    /\ Rollback.rollbackMutations (js "/") (js "/w") [m] fs1
       = (Return tt, <[Fs.key (js "/w/a.txt") := js "hello"]> disk0)
    /\ (js "hello" = js "hello" ->
        Rollback.rollbackMutations (js "/") (js "/w") [m] fs1 = (Return tt, disk0)).
Proof.
  apply (delete_file_then_rollback (js "/") (js "/w") None (js "a.txt") disk0
           (js "/w/a.txt") (js "hello") eq_refl).
  - intros f Hf. discriminate Hf.
  - reflexivity.
  - reflexivity.
  - reflexivity.
  - split; vm_compute; reflexivity.
Defined.

(** The delete of a directory is not undone: its mutation records no
    [before], so rolling it back changes nothing and every file that
    was below the directory stays deleted. *)
Theorem deleted_directory_is_not_restored cwd wr dry ask p fs m fs1 :
  Path.isAbsolute cwd = true ->
  let t := FileSystemTool.new cwd wr dry ask in
  FileSystemTool.delete cwd t p fs = (Return m, fs1) ->
  applied m = true ->
  (forall resolved, FileSystemTool.resolve cwd t p = Return resolved ->
     fs !! Fs.key resolved = None) ->
  before m = None
  /\ Rollback.rollbackMutations cwd wr [m] fs1 = (Return tt, fs1)
  /\ forall resolved k,
       FileSystemTool.resolve cwd t p = Return resolved ->
       Fs.key resolved `prefix_of` k -> fs1 !! k = None.
Proof.
  intros Hcwd t. unfold FileSystemTool.delete, mbind, IO_bind, liftOutcome.
  destruct (FileSystemTool.resolve cwd t p) as [resolved|] eqn:Hres; [|done].
  rewrite readOrUndefined_lookup.
  destruct (dryRun t); [by intros [= <- _]|].
  destruct (FileSystemTool.declines t _); [by intros [= <- _]|].
  unfold Fs.rmRecursive. destruct (Fs.throughFile fs resolved); [done|].
  intros [= <- <-] _ Hdir.
  assert (recorded fs resolved = None) as Hrec.
  { unfold recorded. destruct (Fs.namesDirectory resolved); [done|].
    by rewrite Hdir. }
  rewrite Hrec. cbn [settle before p_before]. split; [done|]. split.
  - rewrite rollbackMutations_effect by (done || by apply NoDup_singleton).
    done.
  - intros r k [= <-] Hk. apply map_lookup_filter_None. right.
    intros c _ Hc. by apply Hc.
Qed.

Lemma deleted_directory_is_not_restored_witness :
  let fs : FS := {[ [js "w"; js "src"; js "a.ts"] := js "x" ]} in
  let m := deleted (js "src") None in
  before m = None
  /\ Rollback.rollbackMutations (js "/") (js "/w") [m] ∅ = (Return tt, ∅)
  /\ forall resolved k,
       FileSystemTool.resolve (js "/") ws (js "src") = Return resolved ->
       Fs.key resolved `prefix_of` k -> (∅ : FS) !! k = None.
Proof.
  intros fs m.
  apply (deleted_directory_is_not_restored (js "/") (js "/w") false None (js "src")
           fs m ∅ eq_refl).
  - vm_compute. reflexivity.
  - reflexivity.
  - intros resolved [= <-]. vm_compute. reflexivity.
Defined.

(** Two writes of the same path are rolled back to the first write, not
    to what the file held before the run: the rollback keeps the later
    mutation only, whose [before] is the content the first write left
    (as UTF-8 stores it). *)
Theorem rollback_of_two_writes cwd wr ask p c1 c2 fs m1 fs1 m2 fs2 :
  Path.isAbsolute cwd = true ->
  let t := FileSystemTool.new cwd wr false ask in
  FileSystemTool.write cwd t p c1 fs = (Return m1, fs1) -> applied m1 = true ->
  FileSystemTool.write cwd t p c2 fs1 = (Return m2, fs2) -> applied m2 = true ->
  Rollback.rollbackMutations cwd wr [m1; m2] fs2 = (Return tt, fs1)
  /\ forall resolved, FileSystemTool.resolve cwd t p = Return resolved ->
       fs1 !! Fs.key resolved = Some (toWellFormed c1).
Proof.
  intros Hcwd t Hw1 Ha1 Hw2 Ha2.
  destruct (write_applied_inv _ _ _ _ _ _ _ Hw1 Ha1)
    as (resolved & Hres & Hn & Hwr & -> & ->).
  destruct (write_applied_inv _ _ _ _ _ _ _ Hw2 Ha2)
    as (resolved' & Hres' & _ & Hwr1 & -> & ->).
  rewrite Hres in Hres'. injection Hres' as <-.
  split; [|intros r; rewrite Hres; intros [= <-]; by rewrite lookup_insert_eq].
  unfold Rollback.rollbackMutations.
  assert (Rollback.ordered
            [ {| action := MWrite; path := Path.relative cwd (root t) resolved;
                 preview := Some (slice c1 0 500);
                 before := toWellFormed <$> fs !! Fs.key resolved;
                 after := Some c1; applied := true; reason := None |};
              {| action := MWrite; path := Path.relative cwd (root t) resolved;
                 preview := Some (slice c2 0 500);
                 before := toWellFormed
                             <$> <[Fs.key resolved:=toWellFormed c1]> fs
                                 !! Fs.key resolved;
                 after := Some c2; applied := true; reason := None |} ]
          = [ {| action := MWrite; path := Path.relative cwd (root t) resolved;
                 preview := Some (slice c2 0 500);
                 before := toWellFormed
                             <$> <[Fs.key resolved:=toWellFormed c1]> fs
                                 !! Fs.key resolved;
                 after := Some c2; applied := true; reason := None |} ]) as ->.
  { unfold Rollback.ordered, Rollback.latestByPath. cbn [fold_left Rollback.mapSet path].
    by rewrite eqb_refl. }
  rewrite rollbackAll_effect by done. cbn [rev app foldr]. f_equal.
  unfold undone, targetKey, Rollback.targetOf. cbn [action before path]. subst t.
  rewrite (targetOf_recorded cwd wr false ask p resolved Hcwd Hres).
  rewrite lookup_insert_eq. simpl.
  pose proof (writable_insert _ _ (toWellFormed c2) Hwr1) as Hwr2.
  apply writableb_true in Hwr2 as ->.
  by rewrite !insert_insert_eq, !toWellFormed_idempotent.
Qed.

Lemma rollback_of_two_writes_witness :
  Rollback.rollbackMutations (js "/") (js "/w")
    [written (js "a.txt") (Some (js "hello")) (js "one");
     written (js "a.txt") (Some (js "one")) (js "two")]
    (<[ [js "w"; js "a.txt"] := js "two" ]> (<[ [js "w"; js "a.txt"] := js "one" ]> disk0))
  = (Return tt, <[ [js "w"; js "a.txt"] := js "one" ]> disk0).
Proof.
  apply (rollback_of_two_writes (js "/") (js "/w") None (js "a.txt")
           (js "one") (js "two") disk0 _ _ _ _ eq_refl).
  - vm_compute. reflexivity.
  - reflexivity.
  - vm_compute. reflexivity.
  - reflexivity.
Defined.
(** ** The loop over the actions and the rollback of a payload *)

(** Every action that succeeds ends in one call of the file tool on the
    action's own path: a [write], or a [delete] for [delete_path]. *)
Lemma applyAction_step {re : RegExpEngine} {diff : DiffLibrary}
    cwd t action fs m fs1 :
  ImplementerAgent.applyAction cwd t action fs = (Return m, fs1) ->
  (action_type action <> DeletePath
   /\ exists content,
        FileSystemTool.write cwd t (action_path action) content fs = (Return m, fs1))
  \/ (action_type action = DeletePath
      /\ FileSystemTool.delete cwd t (action_path action) fs = (Return m, fs1)).
Proof.
  assert (forall patch,
            ImplementerAgent.applyPatch cwd t (action_path action) patch fs
            = (Return m, fs1) ->
            exists content,
              FileSystemTool.write cwd t (action_path action) content fs
              = (Return m, fs1)) as Hpatch.
  { intros patch. unfold ImplementerAgent.applyPatch, mbind, IO_bind, liftOutcome,
      tryCatch.
    destruct (FileSystemTool.read cwd t (action_path action) fs)
      as [[existing|e0] fs0] eqn:Hread; apply read_unchanged in Hread as ->;
      [|done].
    destruct (DiffApplier.applyUnifiedDiff existing patch _) as [updated|]; [|done].
    eauto. }
  unfold ImplementerAgent.applyAction.
  destruct (action_path action) as [|c p] eqn:Ep; [done|].
  rewrite <- Ep in *. clear Ep c p.
  destruct (action_type action) eqn:Et.
  - destruct (action_content action) as [content|]; [|done].
    intros H. left. split; [done|]. eauto.
  - intros H. left. split; [done|]. revert H.
    destruct (_ && _).
    + unfold tryCatch at 1.
      destruct (ImplementerAgent.applyAnchoredModification cwd t action fs)
        as [[m0|e0] fs0] eqn:Ha.
      * intros [= <- <-]. revert Ha.
        unfold ImplementerAgent.applyAnchoredModification.
        destruct (action_anchor action) as [anchor|]; [|done].
        destruct (_ && _); [done|].
        destruct (_ && _); [done|].
        unfold mbind at 1. unfold IO_bind.
        destruct (FileSystemTool.read cwd t (action_path action) fs)
          as [[raw|e0] fs2] eqn:Hread; apply read_unchanged in Hread as ->;
          [|done].
        destruct (Anchor.locateAnchor _ anchor) as [span|]; [|done].
        unfold mbind, IO_bind, liftOutcome.
        destruct (ImplementerAgent.editAt _ span _ action) as [updated|]; [|done].
        destruct (_ && _); [done|]. eauto.
      * apply anchored_throws_unchanged in Ha as ->.
        destruct (ImplementerAgent.patchGiven action) as [patch|]; [|done].
        unfold tryCatch.
        destruct (ImplementerAgent.applyPatch cwd t _ patch fs)
          as [[m1|e1] fs2] eqn:Hp; [|by apply applyPatch_throws_unchanged in Hp as ->].
        intros [= <- <-]. by eapply Hpatch.
    + destruct (ImplementerAgent.patchGiven action) as [patch|].
      * apply Hpatch.
      * destruct (action_content action) as [content|]; [|done]. eauto.
  - intros H. by right.
  - done.
Qed.

(** One write seen from the rollback: undoing an applied mutation gives
    the disk back when the file that was overwritten was valid UTF-8,
    and a mutation that was not applied changed nothing. *)
Lemma write_undone cwd wr dry ask p content fs m fs1 :
  Path.isAbsolute cwd = true ->
  FileSystemTool.write cwd (FileSystemTool.new cwd wr dry ask) p content fs
  = (Return m, fs1) ->
  (applied m = true ->
   fs1 = <[targetKey cwd wr m := toWellFormed content]> fs
   /\ ((forall old, fs !! targetKey cwd wr m = Some old -> toWellFormed old = old) ->
       undone cwd wr m fs1 = fs))
  /\ (applied m = false -> fs1 = fs).
Proof.
  intros Hcwd Hw. split; intros Happ.
  - destruct (write_applied_inv _ _ _ _ _ _ _ Hw Happ)
      as (resolved & Hres & Hn & Hwr & -> & ->).
    unfold undone, targetKey, Rollback.targetOf. cbn [action before path].
    rewrite (targetOf_recorded cwd wr dry ask p resolved Hcwd Hres).
    split; [done|]. intros Hold.
    pose proof (writable_insert _ _ (toWellFormed content) Hwr) as Hwr1.
    destruct (fs !! Fs.key resolved) as [old|] eqn:E; simpl.
    + apply writableb_true in Hwr1 as ->.
      rewrite insert_insert_eq, !(Hold old eq_refl). by apply insert_id.
    + destruct Hwr1 as [-> _]. rewrite delete_insert_eq. by apply delete_id.
  - revert Hw Happ. unfold FileSystemTool.write, mbind, IO_bind, liftOutcome.
    destruct (FileSystemTool.resolve cwd _ p) as [resolved|]; [|done].
    rewrite readOrUndefined_lookup.
    destruct (dryRun _); [by intros [= _ <-]|].
    destruct (FileSystemTool.declines _ _); [by intros [= _ <-]|].
    destruct (Fs.mkdir _ fs) as [[[]|] fs0]; [|done].
    destruct (Fs.writeFile _ _ fs0) as [[[]|] fs2]; [|done].
    by intros [= <- _].
Qed.

Lemma payload_undone {re : RegExpEngine} {diff : DiffLibrary}
    cwd wr dry ask actions fs ms fs' :
  Path.isAbsolute cwd = true ->
  Forall (fun a => action_type a <> DeletePath) actions ->
  ImplementerAgent.applyActions cwd (FileSystemTool.new cwd wr dry ask) actions fs
  = (Return ms, fs') ->
  (forall m old, m ∈ ms -> applied m = true ->
     fs !! targetKey cwd wr m = Some old -> toWellFormed old = old) ->
  foldr (undone cwd wr) fs' (filter (fun m => applied m = true) ms) = fs.
Proof.
  intros Hcwd. unfold ImplementerAgent.applyActions.
  revert fs ms; induction actions as [|a actions IH]; intros fs ms Hno.
  - by intros [= <- <-].
  - inversion Hno as [|? ? Ha Hrest]; subst. simpl.
    unfold mbind, IO_bind.
    destruct (ImplementerAgent.applyAction cwd _ a fs) as [[m|e] fs1] eqn:Hstep;
      [|done].
    rewrite applyActionsFrom_acc.
    destruct (ImplementerAgent.applyActionsFrom cwd _ [] actions fs1)
      as [[ms1|e] fs2] eqn:Hrec; [|done].
    intros [= <- <-] Hold.
    apply applyAction_step in Hstep as [[_ [content Hw]] | [Hd _]]; [|done].
    apply write_undone in Hw as [Hyes Hnot]; [|done]. simpl.
    destruct (applied m) eqn:Happ.
    + destruct (Hyes eq_refl) as [Hfs1 Hundo].
      rewrite filter_cons_True by done. simpl.
      rewrite (IH fs1 ms1 Hrest Hrec).
      * apply Hundo. intros old. apply Hold; [by left|done].
      * intros m' old Hm' Happ'. rewrite Hfs1.
        destruct (decide (targetKey cwd wr m' = targetKey cwd wr m)) as [->|Hne].
        -- rewrite lookup_insert_eq. intros [= <-]. apply toWellFormed_idempotent.
        -- rewrite lookup_insert_ne by done. apply Hold; [by right|done].
    + rewrite (Hnot eq_refl) in *.
      rewrite filter_cons_False by (by rewrite Happ).
      apply IH; [done|done|]. intros m' old Hm'. apply Hold. by right.
Qed.

(** *** What the rollback does on a disk that has changed since *)

(** A turn of the rollback loop reads the disk only at the paths on
    the way to its file and below it. *)
Lemma undone_agree (cwd wr : str) (m : FileMutation) (fs1 fs2 : FS)
    (A : list str -> Prop) :
  (forall k', targetKey cwd wr m `prefix_of` k'
              \/ k' `prefix_of` targetKey cwd wr m -> A k') ->
  (forall k', A k' -> fs1 !! k' = fs2 !! k') ->
  forall k', A k' -> undone cwd wr m fs1 !! k' = undone cwd wr m fs2 !! k'.
Proof.
  intros Hcmp Hagree k' Hk'. unfold undone.
  rewrite (writableb_frame fs1 fs2) by (intros; apply Hagree, Hcmp; done).
  rewrite (isDirectory_frame fs1 fs2) by (intros; apply Hagree, Hcmp; by left).
  destruct (decide (k' = targetKey cwd wr m)) as [->|Hne];
    destruct (action m), (before m) as [c|];
    repeat match goal with |- context [if ?b then _ else _] => destruct b end;
    rewrite ?lookup_insert_eq, ?lookup_delete_eq,
      ?lookup_insert_ne, ?lookup_delete_ne by done;
    by (done || apply Hagree).
Qed.

Lemma undone_fold_agree (cwd wr : str) (ms : list FileMutation) (fs1 fs2 : FS)
    (A : list str -> Prop) :
  Forall (fun m => forall k', targetKey cwd wr m `prefix_of` k'
                              \/ k' `prefix_of` targetKey cwd wr m -> A k') ms ->
  (forall k', A k' -> fs1 !! k' = fs2 !! k') ->
  forall k', A k' ->
    foldr (undone cwd wr) fs1 ms !! k' = foldr (undone cwd wr) fs2 ms !! k'.
Proof.
  induction 1 as [|m ms Hm _ IH]; intros Hagree; [done|]. simpl.
  by apply undone_agree; [|apply IH].
Qed.

Lemma undone_fold_untouched (cwd wr : str) (ms : list FileMutation) (fs : FS)
    (k : list str) :
  k ∉ targetKey cwd wr <$> ms -> foldr (undone cwd wr) fs ms !! k = fs !! k.
Proof.
  induction ms as [|m ms IH]; [done|]. rewrite fmap_cons.
  intros [Hne Hk]%not_elem_of_cons. simpl.
  rewrite undone_other by done. by apply IH.
Qed.

Lemma no_mutations_flat_map (results : list AgentResult) :
  Forall (fun r => result_mutations r = None) results ->
  flat_map (fun res => match result_mutations res with
                       | Some ms => ms
                       | None => []
                       end) results = [].
Proof.
  induction 1 as [|r results Hr _ IH]; [done|]. simpl. by rewrite Hr, IH.
Qed.

Lemma find_validator_failure (results : list AgentResult) summary :
  validatorFailure summary ∈ results ->
  exists failure,
    find (fun res => eqb (result_agent res) (js "validator")
                     && match result_status res with
                        | Failure => true
                        | _ => false
                        end) results = Some failure.
Proof.
  intros Hin. destruct (find _ results) as [failure|] eqn:E; [by eexists|].
  apply list_elem_of_In in Hin.
  by pose proof (find_none _ _ E _ Hin).
Qed.

(** The files of a result: the files its applied mutations are about. *)
Definition filesOf (cwd wr : str) (res : AgentResult) (k : list str) : Prop :=
  exists ms m, result_mutations res = Some ms /\ m ∈ ms /\ applied m = true
               /\ k = targetKey cwd wr m.

(** A payload that was applied is undone when the validation fails,
    whatever was written elsewhere in the meantime. Take a payload
    without [delete_path] actions that succeeded, whose applied
    mutations are about different paths and overwrote valid UTF-8 only,
    no other result carrying mutations, and a disk at the time of the
    rollback on which what ran since the implementer (the test
    generator, the validation command) has changed no file of the
    payload and no file on the way to one or below one. Then the
    rollback at the end of the run leaves every file of the payload as
    it was before the implementer ran, and every other file as it is:
    what the test generator wrote stays. On the disk as the implementer
    left it, that is the disk as it was before. *)
Theorem payload_is_rolled_back {re : RegExpEngine} {diff : DiffLibrary}
    (cwd wr : str) (ask : option (PendingMutation -> bool))
    (payload : ImplementationPayload) (fs : FS) (res : AgentResult) (fs' : FS)
    (earlier later : list AgentResult) (summary : str) (fsR : FS) :
  Path.isAbsolute cwd = true ->
  let t := FileSystemTool.new cwd wr false ask in
  Forall (fun a => action_type a <> DeletePath) (actions payload) ->
  ImplementerAgent.runFromPayload cwd t payload fs = (res, fs') ->
  result_status res = Success ->
  (forall ms, result_mutations res = Some ms ->
     NoDup (path <$> filter (fun m => applied m = true) ms)) ->
  Forall (fun r => result_mutations r = None) (earlier ++ later) ->
  validatorFailure summary ∈ later ->
  (forall k old, filesOf cwd wr res k -> fs !! k = Some old ->
     toWellFormed old = old) ->
  (forall k k', filesOf cwd wr res k -> k `prefix_of` k' \/ k' `prefix_of` k ->
     fsR !! k' = fs' !! k') ->
  exists final,
    Rollback.rollbackAfterValidation cwd wr false (earlier ++ res :: later) fsR
    = (Return tt, final)
    /\ (forall k, filesOf cwd wr res k -> final !! k = fs !! k)
    /\ (forall k, ~ filesOf cwd wr res k -> final !! k = fsR !! k)
    /\ (fsR = fs' -> final = fs).
Proof.
  intros Hcwd t Hno. unfold ImplementerAgent.runFromPayload.
  destruct (ImplementerAgent.applyActions cwd t (actions payload) fs)
    as [[ms|e] fs1] eqn:Hrun; intros [= <- <-]; [|done].
  intros _ Hnd Hothers Hval Hutf Hsince. specialize (Hnd ms eq_refl).
  assert (forall k, filesOf cwd wr
            {| result_agent := js "implementer"; result_status := Success;
               result_summary :=
                 inr (default (js "Applied implementation actions.") (notes payload));
               result_mutations := Some ms |} k
          <-> k ∈ targetKey cwd wr <$> filter (fun m => applied m = true) ms)
    as Hfiles.
  { intros k. unfold filesOf. cbn [result_mutations]. split.
    - intros (ms' & m & [= <-] & Hm & Happ & ->).
      apply list_elem_of_fmap. exists m. split; [done|].
      by apply list_elem_of_filter.
    - intros (m & -> & [Happ Hm]%list_elem_of_filter)%list_elem_of_fmap.
      by exists ms, m. }
  assert (foldr (undone cwd wr) fs1 (filter (fun m => applied m = true) ms) = fs)
    as Hundo.
  { apply (payload_undone _ _ _ _ _ _ _ _ Hcwd Hno Hrun).
    intros m old Hm Happ. apply Hutf. by exists ms, m. }
  apply Forall_app in Hothers as [He Hl].
  unfold Rollback.rollbackAfterValidation.
  match goal with
  | |- context [find _ (earlier ++ ?r :: later)] =>
      destruct (find_validator_failure (earlier ++ r :: later) summary)
        as (failure & ->); [apply elem_of_app; right; by right|]
  end.
  rewrite flat_map_app. cbn [flat_map result_mutations].
  rewrite !no_mutations_flat_map by done. rewrite app_nil_r. cbn [app].
  exists (foldr (undone cwd wr) fsR (filter (fun m => applied m = true) ms)).
  split; [|split; [|split]].
  - destruct (filter (fun m => applied m = true) ms) as [|m0 applied0] eqn:E;
      [done|]. by rewrite rollbackMutations_effect.
  - intros k Hk.
    transitivity (foldr (undone cwd wr) fs1
                    (filter (fun m => applied m = true) ms) !! k);
      [|by rewrite Hundo].
    apply (undone_fold_agree cwd wr _ fsR fs1
             (fun k' => exists k0, filesOf cwd wr
                {| result_agent := js "implementer"; result_status := Success;
                   result_summary :=
                     inr (default (js "Applied implementation actions.")
                            (notes payload));
                   result_mutations := Some ms |} k0
                /\ (k0 `prefix_of` k' \/ k' `prefix_of` k0))).
    + apply Forall_forall. intros m Hm k' Hk'.
      exists (targetKey cwd wr m). split; [|done]. apply Hfiles.
      apply list_elem_of_fmap. by exists m.
    + intros k' (k0 & Hk0 & Hcmp). by apply (Hsince k0).
    + exists k. split; [done|]. by left.
  - intros k Hk. apply undone_fold_untouched. intros Hin. by apply Hk, Hfiles.
  - by intros ->.
Qed.

Lemma payload_is_rolled_back_witness :
  let res := {| result_agent := js "implementer"; result_status := Success;
                result_summary := inr (js "Applied implementation actions.");
                result_mutations := Some [written (js "b.txt") None (js "x")] |} in
  let tested : FS :=
    <[ [js "w"; js "b.test.txt"] := js "t" ]> (<[ [js "w"; js "b.txt"] := js "x" ]> disk0) in
  exists final,
    Rollback.rollbackAfterValidation (js "/") (js "/w") false
      ([] ++ res :: [validatorFailure (js "Command failed (1): npm test")]) tested
    = (Return tt, final)
    /\ (forall k, filesOf (js "/") (js "/w") res k -> final !! k = disk0 !! k)
    /\ (forall k, ~ filesOf (js "/") (js "/w") res k -> final !! k = tested !! k)
    /\ (tested = <[ [js "w"; js "b.txt"] := js "x" ]> disk0 -> final = disk0).
Proof.
  intros res tested.
  assert (forall k, filesOf (js "/") (js "/w") res k -> k = [js "w"; js "b.txt"])
    as Hfile.
  { intros k (ms & m & Hms & Hm & _ & ->). injection Hms as <-.
    apply list_elem_of_singleton in Hm as ->. reflexivity. }
  apply (payload_is_rolled_back (re := Reference.LiteralRegExp) (diff := noDiff)
           (js "/") (js "/w") None {| actions := [writeB]; notes := None |}
           disk0 res (<[ [js "w"; js "b.txt"] := js "x" ]> disk0) []
           [validatorFailure (js "Command failed (1): npm test")]
           (js "Command failed (1): npm test") tested eq_refl).
  - repeat constructor. discriminate.
  - vm_compute. reflexivity.
  - reflexivity.
  - intros ms Hms. injection Hms as <-. vm_compute. apply NoDup_singleton.
  - repeat constructor.
  - by left.
  - intros k old Hk. rewrite (Hfile k Hk). vm_compute. discriminate.
  - intros k k' Hk Hcmp. rewrite (Hfile k Hk) in Hcmp. unfold tested.
    apply lookup_insert_ne. intros <-.
    destruct Hcmp as [[x Hx]|[x Hx]]; vm_compute in Hx; discriminate Hx.
Defined.

(** A payload that failed is not undone: the failed result carries no
    mutations, so whatever the other results say, the rollback leaves
    on the disk what the actions before the failing one wrote. *)
Theorem failed_payload_is_not_rolled_back {re : RegExpEngine} {diff : DiffLibrary}
    cwd wr t dry before failing rest payloadNotes fs ms fs1 e fs2 earlier later :
  ImplementerAgent.applyActions cwd t before fs = (Return ms, fs1) ->
  ImplementerAgent.applyAction cwd t failing fs1 = (Throw e, fs2) ->
  Forall (fun r => result_mutations r = None) (earlier ++ later) ->
  exists res,
    ImplementerAgent.runFromPayload cwd t
      {| actions := before ++ failing :: rest; notes := payloadNotes |} fs
    = (res, fs1)
    /\ result_status res = Failure
    /\ Rollback.rollbackAfterValidation cwd wr dry (earlier ++ res :: later) fs1
       = (Return tt, fs1).
Proof.
  intros Hbefore Hfail Hothers.
  apply applyAction_throws_unchanged in Hfail as Heq. subst fs2.
  unfold ImplementerAgent.runFromPayload. cbn [actions].
  rewrite applyActions_app, Hbefore.
  unfold ImplementerAgent.applyActions. cbn [ImplementerAgent.applyActionsFrom].
  unfold mbind at 1. unfold IO_bind. rewrite Hfail.
  eexists. split; [done|]. split; [done|].
  apply Forall_app in Hothers as [He Hl].
  unfold Rollback.rollbackAfterValidation.
  destruct dry; [done|]. destruct (find _ _); [|done].
  rewrite flat_map_app. cbn [flat_map result_mutations].
  by rewrite !no_mutations_flat_map.
Qed.

Lemma failed_payload_is_not_rolled_back_witness :
  let fs1 : FS := <[ [js "w"; js "b.txt"] := js "x" ]> disk0 in
  exists res,
    ImplementerAgent.runFromPayload (re := Reference.LiteralRegExp)
      (diff := noDiff) (js "/") ws
      {| actions := [writeB] ++ anchorEdit :: []; notes := None |} disk0
    = (res, fs1)
    /\ result_status res = Failure
    /\ Rollback.rollbackAfterValidation (js "/") (js "/w") false
         ([] ++ res :: [validatorFailure (js "failed")]) fs1
       = (Return tt, fs1).
Proof.
  intros fs1.
  apply (failed_payload_is_not_rolled_back (re := Reference.LiteralRegExp)
           (diff := noDiff) (js "/") (js "/w") ws false [writeB] anchorEdit []
           None disk0 [written (js "b.txt") None (js "x")] fs1
           (UnableToLocateAnchor (js "a.txt")) fs1 []
           [validatorFailure (js "failed")]).
  - vm_compute. reflexivity.
  - vm_compute. reflexivity.
  - repeat constructor.
Defined.
Lemma write_records cwd t p content fs m fs1 :
  FileSystemTool.write cwd t p content fs = (Return m, fs1) ->
  action m = MWrite /\ after m = Some content
  /\ exists resolved, FileSystemTool.resolve cwd t p = Return resolved
                      /\ path m = Path.relative cwd (root t) resolved.
Proof.
  unfold FileSystemTool.write, mbind, IO_bind, liftOutcome.
  destruct (FileSystemTool.resolve cwd t p) as [resolved|]; [|done].
  rewrite readOrUndefined_lookup.
  destruct (dryRun t); [intros [= <- _]; eauto|].
  destruct (FileSystemTool.declines t _); [intros [= <- _]; eauto|].
  destruct (Fs.mkdir _ fs) as [[[]|] fs0]; [|done].
  destruct (Fs.writeFile _ _ fs0) as [[[]|] fs2]; [|done].
  intros [= <- _]. eauto.
Qed.

Lemma delete_records cwd t p fs m fs1 :
  FileSystemTool.delete cwd t p fs = (Return m, fs1) ->
  action m = MDelete /\ after m = None
  /\ exists resolved, FileSystemTool.resolve cwd t p = Return resolved
                      /\ path m = Path.relative cwd (root t) resolved.
Proof.
  unfold FileSystemTool.delete, mbind, IO_bind, liftOutcome.
  destruct (FileSystemTool.resolve cwd t p) as [resolved|]; [|done].
  rewrite readOrUndefined_lookup.
  destruct (dryRun t); [intros [= <- _]; eauto|].
  destruct (FileSystemTool.declines t _); [intros [= <- _]; eauto|].
  destruct (Fs.rmRecursive _ fs) as [[[]|] fs0]; [|done].
  intros [= <- _]. eauto.
Qed.

(** The mutation an action leaves: a delete for [delete_path] and a
    write for every other action, about the action's own path as the
    guard resolves it and made relative to the root. *)
Definition mutationOf (cwd : str) (t : FileSystemTool)
    (a : ImplementationAction) (m : FileMutation) : Prop :=
  action m = (match action_type a with DeletePath => MDelete | _ => MWrite end)
  /\ exists resolved,
       FileSystemTool.resolve cwd t (action_path a) = Return resolved
       /\ path m = Path.relative cwd (root t) resolved.

(** A payload that is applied in full yields one mutation for each
    action, in the order of the actions: no action is skipped, none
    yields two, and each mutation is about its action's path. *)
Theorem mutations_match_actions {re : RegExpEngine} {diff : DiffLibrary}
    cwd t actions fs ms fs' :
  ImplementerAgent.applyActions cwd t actions fs = (Return ms, fs') ->
  Forall2 (mutationOf cwd t) actions ms /\ length ms = length actions.
Proof.
  intros H. assert (Forall2 (mutationOf cwd t) actions ms) as HF.
  { revert H. unfold ImplementerAgent.applyActions.
    revert fs ms; induction actions as [|a actions IH]; intros fs ms.
    - intros [= <- _]. constructor.
    - simpl. unfold mbind, IO_bind.
      destruct (ImplementerAgent.applyAction cwd t a fs) as [[m|e] fs1] eqn:Hstep;
        [|done].
      rewrite applyActionsFrom_acc.
      destruct (ImplementerAgent.applyActionsFrom cwd t [] actions fs1)
        as [[ms1|e] fs2] eqn:Hrec; [|done].
      intros [= <- <-]. constructor; [|by eapply IH].
      apply applyAction_step in Hstep as [[Hno [content Hw]] | [Hd Hdel]].
      + apply write_records in Hw as (Ha & _ & Hp). split; [|done].
        rewrite Ha. by destruct (action_type a).
      + apply delete_records in Hdel as (Ha & _ & Hp). split; [|done].
        by rewrite Ha, Hd. }
  split; [done|]. symmetry. by eapply Forall2_length.
Qed.

Lemma mutations_match_actions_witness :
  Forall2 (mutationOf (js "/") ws) [writeB] [written (js "b.txt") None (js "x")]
  /\ length [written (js "b.txt") None (js "x")] = length [writeB].
Proof.
  apply (mutations_match_actions (re := Reference.LiteralRegExp) (diff := noDiff)
           (js "/") ws [writeB] disk0 _ (<[ [js "w"; js "b.txt"] := js "x" ]> disk0)).
  vm_compute. reflexivity.
Defined.
(** ** The JSON Recovery Engine ([src/agents/implementer-agent.ts]) *)

Lemma closerOf_closing c : isClosingBracket (closerOf c) = true.
Proof. unfold closerOf, isClosingBracket. by destruct (N.eqb c openBrace). Qed.

(** Outside a string, scanning the closers of the open brackets closes
    them all. *)
Lemma scan_closers st :
  opensOnly st -> inString st = false -> escaped st = false ->
  fold_left scanStep (closerOf <$> stack st) st
  = {| inString := false; escaped := false; stack := [] |}.
Proof.
  destruct st as [ins esc stk]. unfold opensOnly. simpl.
  intros Hopen -> ->. induction Hopen as [|top rest Htop _ IH]; [done|].
  csimpl. rewrite <- IH. f_equal.
  by destruct Htop as [-> | ->].
Qed.

(** Inside a string, closing brackets change nothing. *)
Lemma scan_closers_in_string closers st :
  Forall (fun ch => isClosingBracket ch = true) closers ->
  inString st = true -> escaped st = false ->
  fold_left scanStep closers st = st.
Proof.
  induction 1 as [|ch closers Hch _ IH]; intros Hin Hesc; [done|].
  simpl. assert (scanStep st ch = st) as ->; [|by apply IH].
  unfold scanStep. rewrite Hesc, Hin.
  unfold isClosingBracket in Hch. apply orb_true_iff in Hch.
  by destruct Hch as [->%N.eqb_eq | ->%N.eqb_eq].
Qed.

(** A character closes one bracket at most. *)
Lemma scan_stack_length cs st :
  length (stack st) <= length (stack (fold_left scanStep cs st)) + length cs.
Proof.
  revert st; induction cs as [|c cs IH]; intros st; simpl; [lia|].
  specialize (IH (scanStep st c)).
  assert (length (stack st) <= S (length (stack (scanStep st c)))); [|lia].
  destruct st as [ins esc stk]. unfold scanStep. cbn [inString escaped stack].
  destruct esc; [simpl; lia|].
  destruct (N.eqb c backslash); [simpl; lia|].
  destruct (N.eqb c quote); [simpl; lia|].
  destruct ins; [simpl; lia|].
  destruct (N.eqb c openBrace || N.eqb c openBracket); [simpl; lia|].
  destruct (N.eqb c closeBrace || N.eqb c closeBracket); [|simpl; lia].
  destruct stk as [|top rest]; [simpl; lia|].
  destruct (_ || _); simpl; lia.
Qed.

(** What the bracket balancer does to any text. It only appends: the
    result is the input followed by one closing bracket for each
    bracket the scan left open, the innermost first. What the appended
    brackets achieve depends on where the scan ended. Outside a string
    and not after a backslash, the result has no bracket open, so
    balancing it again changes nothing. Inside a string (a text cut in
    the middle of a string) the appended brackets are read as string
    contents and the same brackets are still open. After a backslash,
    inside a string or outside, the first appended bracket is read as
    an escaped character: a bracket is still open, and balancing the
    result again appends more. *)
Theorem balanceJson_only_appends (input : str) :
  let st := scan input in
  balanceJson input = input ++ (closerOf <$> stack st)
  /\ Forall (fun ch => isClosingBracket ch = true) (closerOf <$> stack st)
  /\ (inString st = false -> escaped st = false ->
      stack (scan (balanceJson input)) = []
      /\ balanceJson (balanceJson input) = balanceJson input)
  /\ (inString st = true -> escaped st = false ->
      stack (scan (balanceJson input)) = stack st)
  /\ (escaped st = true -> stack st <> [] ->
      stack (scan (balanceJson input)) <> []
      /\ balanceJson (balanceJson input) <> balanceJson input).
Proof.
  intros st.
  assert (balanceJson input = input ++ (closerOf <$> stack st)) as Hbal.
  { unfold balanceJson. fold st. destruct (stack st); [by rewrite app_nil_r|done]. }
  assert (Forall (fun ch => isClosingBracket ch = true) (closerOf <$> stack st))
    as Hclosers.
  { apply Forall_fmap, Forall_forall. intros c _. apply closerOf_closing. }
  split; [done|]. split; [done|]. split; [|split].
  - intros Hin Hesc.
    assert (stack (scan (balanceJson input)) = []) as Hend.
    { rewrite Hbal. unfold scan. rewrite fold_left_app. fold (scan input). fold st.
      rewrite scan_closers; [done| |done|done].
      apply scan_opensOnly. constructor. }
    split; [done|]. unfold balanceJson at 1. by rewrite Hend.
  - intros Hin Hesc. rewrite Hbal. unfold scan. rewrite fold_left_app.
    fold (scan input). fold st. by rewrite scan_closers_in_string.
  - intros Hesc Hopen.
    assert (stack (scan (balanceJson input)) <> []) as Hstill.
    { rewrite Hbal. unfold scan. rewrite fold_left_app. fold (scan input). fold st.
      destruct (stack st) as [|top rest] eqn:Estack; [done|]. csimpl.
      unfold scanStep at 2. rewrite Hesc. cbn [stack].
      pose proof (scan_stack_length (closerOf <$> rest)
                    {| inString := inString st; escaped := false;
                       stack := stack st |}) as Hlen.
      rewrite Estack in Hlen at 1. cbn [stack length] in Hlen.
      rewrite length_fmap in Hlen. intros Hnil. rewrite Hnil in Hlen.
      simpl in Hlen. lia. }
    split; [done|]. unfold balanceJson at 1.
    destruct (stack (scan (balanceJson input))) as [|o r]; [done|].
    intros Heq. apply (f_equal length) in Heq. rewrite length_app in Heq.
    simpl in Heq. lia.
Qed.





Lemma trimStart_keeps (P : N -> Prop) s : Forall P s -> Forall P (trimStart s).
Proof.
  induction 1 as [|c s Hc Hs IH]; [done|]. simpl.
  destruct (isWhiteSpace c); [done|by constructor].
Qed.


Lemma no_CR_no_CRLF s : CR ∉ s -> hasCRLF s = false.
Proof.
  induction s as [|c s IH]; [done|]. intros Hc.
  destruct s as [|d s]; [done|].
  change (hasCRLF (c :: d :: s))
    with ((N.eqb c CR && N.eqb d LF) || hasCRLF (d :: s)).
  rewrite IH by (intros H; apply Hc; by right).
  destruct (N.eqb_spec c CR) as [->|_]; [|done]. exfalso. apply Hc. left.
Qed.

(** Normalisation of a text that holds nothing to rewrite. *)
Lemma normalizeJsonText_clean t (trimIt : bool) :
  Forall (fun c => rewritten c = false) t -> CR ∉ t ->
  Text.normalizeJsonText t trimIt = if trimIt then trim t else t.
Proof.
  intros Hchars Hcr. unfold Text.normalizeJsonText.
  assert (forall f : N -> bool,
            (forall c, rewritten c = false -> f c = false) ->
            Forall (fun c => f c = false) t) as Hnone.
  { intros f Hf. eapply Forall_impl; [done|]. apply Hf. }
  unfold rewritten in Hnone.
  rewrite (replaceChar_id Text.isDoubleQuoteMark)
    by (apply Hnone; intros c; rewrite !orb_false_iff; tauto).
  rewrite (replaceChar_id Text.isSingleQuoteMark)
    by (apply Hnone; intros c; rewrite !orb_false_iff; tauto).
  rewrite (replaceChar_id Text.isDash)
    by (apply Hnone; intros c; rewrite !orb_false_iff; tauto).
  rewrite crlfToLf_id by (by apply no_CR_no_CRLF).
  rewrite (removeChars_id Text.isZeroWidth)
    by (apply Hnone; intros c; rewrite !orb_false_iff; tauto).
  rewrite (removeChars_id Text.isControl)
    by (apply Hnone; intros c; rewrite !orb_false_iff; tauto).
  rewrite (replaceChar_id (N.eqb 9))
    by (apply Hnone; intros c; rewrite !orb_false_iff; tauto).
  by rewrite (replaceChar_id (N.eqb 160))
    by (apply Hnone; intros c; rewrite !orb_false_iff; tauto).
Qed.

Lemma trimStart_app (x y : str) :
  trimStart (x ++ y)
  = match trimStart x with [] => trimStart y | t => t ++ y end.
Proof.
  induction x as [|c x IH]; [done|]. simpl.
  destruct (isWhiteSpace c); [apply IH|done].
Qed.

Lemma trimEnd_app (x y : str) :
  trimEnd (x ++ y)
  = match trimEnd y with [] => trimEnd x | t => x ++ t end.
Proof.
  unfold trimEnd. rewrite rev_app_distr, trimStart_app.
  destruct (trimStart (rev y)) as [|c t] eqn:E; [done|].
  rewrite rev_app_distr, rev_involutive.
  destruct (rev (c :: t)) eqn:E2; [|done].
  apply (f_equal (@length _)) in E2. rewrite length_rev in E2. done.
Qed.

Lemma trimEnd_snoc_space (x : str) c :
  isWhiteSpace c = true -> trimEnd (x ++ [c]) = trimEnd x.
Proof.
  intros Hc. rewrite trimEnd_app. unfold trimEnd at 1. simpl. by rewrite Hc.
Qed.

(** A payload text that begins with its brace, ends with a character
    that is not white space, and holds no character the normalisation
    rewrites and no carriage return. *)
Definition bare (body : str) : Prop := plain body /\ CR ∉ body.

Lemma bare_normalized body : bare body -> Text.normalizeJsonText body true = body.
Proof. intros [H _]. by apply normalizeJsonText_plain. Qed.

Lemma bare_inv body :
  bare body ->
  exists r, body = openBrace :: r
            /\ Forall (fun c => rewritten c = false) body
            /\ (CR ∉ body) /\ trimEnd body = body.
Proof.
  intros [(Hb & Hc & _ & He) Hcr]. apply startsWith_spec in Hb as [r ->].
  by exists r.
Qed.

(** A Markdown fence around the payload is taken off: for a payload
    text that needs no rewriting, wrapped in three backquotes with or
    without the [json] tag, sanitation returns the payload text. *)
Theorem sanitizeJson_strips_fence (tagged : bool) (body : str) :
  bare body ->
  sanitizeJson (fence ++ (if tagged then js "json" else []) ++ [LF]
                ++ body ++ [LF] ++ fence) = body.
Proof.
  intros Hbare. pose proof (bare_inv body Hbare) as (r & Hr & Hchars & Hcr & Hend).
  set (tag := if tagged then js "json" else []).
  set (text := fence ++ tag ++ [LF] ++ body ++ [LF] ++ fence).
  assert (Forall (fun c => rewritten c = false) tag) as Htag.
  { unfold tag. destruct tagged; repeat constructor. }
  assert (CR ∉ tag) as Htagcr.
  { unfold tag. destruct tagged; [|by apply not_elem_of_nil].
    intros H. repeat (apply elem_of_cons in H as [H|H]; [done|]).
    by apply elem_of_nil in H. }
  assert (Text.normalizeJsonText text true = text) as Hnorm.
  { rewrite normalizeJsonText_clean.
    - unfold trim. unfold text at 1. change (trimStart (fence ++ ?x)) with (fence ++ x).
      fold text. unfold trimEnd.
      replace (rev text) with (rev fence ++ rev (fence ++ tag ++ [LF] ++ body ++ [LF]));
        [|unfold text; rewrite <- rev_app_distr; f_equal;
          by rewrite <- !app_assoc].
      change (trimStart (rev fence ++ ?x)) with (rev fence ++ x).
      rewrite rev_app_distr, !rev_involutive. unfold text.
      by rewrite <- !app_assoc.
    - unfold text. repeat (apply Forall_app; split); try done; repeat constructor.
    - unfold text. rewrite !elem_of_app. intros [H|[H|[H|[H|[H|H]]]]]; try done;
        repeat (apply elem_of_cons in H as [H|H]; [done|]); by apply elem_of_nil in H. }
  unfold sanitizeJson. rewrite Hnorm.
  assert (startsWith text fence = true) as -> by done.
  assert (fenceBody text = Some (body ++ [LF])) as ->.
  { unfold fenceBody.
    assert (startsWith text fence = true) as -> by done.
    assert (endsWith text fence = true) as ->.
    { unfold endsWith.
      replace (rev text) with (rev fence ++ rev (fence ++ tag ++ [LF] ++ body ++ [LF]));
        [done|unfold text; rewrite <- rev_app_distr; f_equal;
          by rewrite <- !app_assoc]. }
    assert ((6 <=? length text) = true) as ->.
    { apply Nat.leb_le. unfold text. rewrite !length_app. simpl. lia. }
    cbn [andb]. f_equal.
    assert (trimStart
              (if eqb (lower <$> take 4 (drop 3 text)) (js "json")
               then drop 4 (drop 3 text) else drop 3 text)
            = body ++ [LF] ++ fence) as ->.
    { unfold text, tag. rewrite Hr. by destruct tagged. }
    replace (length (body ++ [LF] ++ fence) - 3) with (length (body ++ [LF]))
      by (rewrite !length_app; simpl; lia).
    change (body ++ [LF] ++ fence) with (body ++ ([LF] ++ fence)).
    rewrite (app_assoc body [LF] fence). by rewrite take_app_length. }
  assert (startsWith (body ++ [LF]) [openBrace] = true) as ->.
  { by rewrite Hr. }
  rewrite normalizeJsonText_clean.
  - unfold trim. rewrite Hr. cbn [app trimStart].
    assert (isWhiteSpace openBrace = false) as -> by done.
    rewrite <- Hr. change (openBrace :: r ++ [LF]) with ((openBrace :: r) ++ [LF]).
    rewrite <- Hr. by rewrite trimEnd_snoc_space.
  - apply Forall_app. split; [done|repeat constructor].
  - rewrite elem_of_app. intros [H|H]; [done|].
    apply elem_of_cons in H as [H|H]; [done|]. by apply elem_of_nil in H.
Qed.

Lemma sanitizeJson_strips_fence_witness :
  sanitizeJson (js "```json" ++ [LF] ++ jq "{'actions':[]}" ++ [LF] ++ js "```")
  = jq "{'actions':[]}".
Proof.
  apply (sanitizeJson_strips_fence true (jq "{'actions':[]}")).
  split; [|vm_compute; intros H; repeat (apply elem_of_cons in H as [H|H]; [done|]);
            by apply elem_of_nil in H].
  repeat split; try reflexivity. repeat constructor.
Defined.
Lemma indexOfFrom_first (a b : str) c i :
  c ∉ a -> indexOfFrom (a ++ c :: b) [c] i = Some (i + length a).
Proof.
  revert i; induction a as [|x a IH]; intros i Hc.
  - simpl. rewrite N.eqb_refl. f_equal. lia.
  - assert (x <> c) as Hx by (intros ->; apply Hc; left).
    cbn [app indexOfFrom startsWith]. apply N.eqb_neq in Hx.
    rewrite N.eqb_sym, Hx. cbn [andb].
    rewrite IH by (intros H; apply Hc; by right). f_equal. simpl. lia.
Qed.

Lemma lastIndexOfFrom_none (s : str) c i :
  c ∉ s -> lastIndexOfFrom s [c] i = None.
Proof.
  revert i; induction s as [|x s IH]; intros i Hc; [done|].
  assert (x <> c) as Hx by (intros ->; apply Hc; left).
  cbn [lastIndexOfFrom]. rewrite IH by (intros H; apply Hc; by right).
  cbn [startsWith]. apply N.eqb_neq in Hx. by rewrite N.eqb_sym, Hx.
Qed.

Lemma lastIndexOfFrom_last (a b : str) c i :
  c ∉ b -> lastIndexOfFrom (a ++ c :: b) [c] i = Some (i + length a).
Proof.
  revert i; induction a as [|x a IH]; intros i Hc.
  - cbn [app lastIndexOfFrom]. rewrite lastIndexOfFrom_none by done.
    cbn [startsWith]. rewrite N.eqb_refl. f_equal. simpl. lia.
  - cbn [app lastIndexOfFrom]. rewrite IH by done. f_equal. simpl. lia.
Qed.

Lemma trimStart_notin (P : N -> Prop) c s : c ∉ s -> c ∉ trimStart s.
Proof.
  induction s as [|x s IH]; [done|]. intros Hc. simpl.
  destruct (isWhiteSpace x); [|done]. apply IH. intros H. apply Hc. by right.
Qed.

Lemma elem_of_rev' (c : N) (s : str) : c ∈ rev s <-> c ∈ s.
Proof. rewrite !list_elem_of_In. symmetry. apply in_rev. Qed.

Lemma trimEnd_notin c s : c ∉ s -> c ∉ trimEnd s.
Proof.
  intros Hc. unfold trimEnd. rewrite elem_of_rev'.
  apply (trimStart_notin (fun _ => True)). by rewrite elem_of_rev'.
Qed.

Lemma trimEnd_keeps (P : N -> Prop) s : Forall P s -> Forall P (trimEnd s).
Proof. intros H. unfold trimEnd. by apply Forall_rev, trimStart_keeps, Forall_rev. Qed.

Lemma startsWith_head_ne (c d : N) (s p : str) :
  c <> d -> startsWith (c :: s) (d :: p) = false.
Proof.
  intros H. cbn [startsWith]. apply N.eqb_neq in H.
  by rewrite N.eqb_sym, H.
Qed.

(** Prose around the payload is cut away: when the answer opens with
    text that is not white space and holds no brace and no backquote,
    and what follows the payload holds no closing brace, sanitation
    returns the payload text, from its first brace to its last. *)
Theorem sanitizeJson_strips_prose (prose body trailer : str) :
  bare body -> last body = Some closeBrace ->
  Forall (fun c => rewritten c = false) (prose ++ trailer) ->
  CR ∉ prose ++ trailer ->
  trimStart prose <> [] -> openBrace ∉ prose -> 96%N ∉ prose ->
  closeBrace ∉ trailer ->
  sanitizeJson (prose ++ body ++ trailer) = body.
Proof.
  intros Hbare Hlast Hchars Hcr Hprose Hopen Htick Hclose.
  pose proof (bare_inv body Hbare) as (r & Hr & Hbchars & Hbcr & Hend).
  apply Forall_app in Hchars as [Hpc Htc].
  rewrite elem_of_app in Hcr.
  set (p' := trimStart prose). set (t' := trimEnd trailer).
  assert (Text.normalizeJsonText (prose ++ body ++ trailer) true
          = p' ++ body ++ t') as Hnorm.
  { rewrite normalizeJsonText_clean.
    - unfold trim. rewrite trimStart_app. fold p'.
      destruct p' as [|c0 p0] eqn:Ep; [done|]. rewrite <- Ep.
      rewrite app_assoc, trimEnd_app. fold t'.
      destruct t' as [|c1 t1] eqn:Et.
      + rewrite trimEnd_app, Hend, app_nil_r.
        by rewrite Hr.
      + by rewrite <- app_assoc.
    - repeat (apply Forall_app; split); done.
    - rewrite !elem_of_app. tauto. }
  assert (exists c0 p0, p' = c0 :: p0 /\ c0 <> openBrace /\ c0 <> 96%N)
    as (c0 & p0 & Ep & Hc0 & Hc1).
  { destruct p' as [|c0 p0] eqn:Ep; [done|]. exists c0, p0. split; [done|].
    assert (c0 ∈ p') as Hin by (rewrite Ep; left).
    split; intros ->.
    - by apply (trimStart_notin (fun _ => True) openBrace prose Hopen).
    - by apply (trimStart_notin (fun _ => True) 96%N prose Htick). }
  assert (openBrace ∉ p') as Hopen'
    by (by apply (trimStart_notin (fun _ => True))).
  assert (closeBrace ∉ t') as Hclose' by (by apply trimEnd_notin).
  destruct (exists_last (l := body)) as (body0 & z & Hz); [by rewrite Hr|].
  assert (z = closeBrace) as ->.
  { rewrite Hz, last_snoc in Hlast. by injection Hlast. }
  unfold sanitizeJson. rewrite Hnorm.
  assert (startsWith (p' ++ body ++ t') fence = false) as ->.
  { rewrite Ep. change fence with (96%N :: [96%N; 96%N]).
    by apply startsWith_head_ne. }
  assert (startsWith (p' ++ body ++ t') [openBrace] = false) as ->.
  { rewrite Ep. by apply startsWith_head_ne. }
  assert (indexOf (p' ++ body ++ t') [openBrace] = Some (length p')) as ->.
  { unfold indexOf. rewrite Hr. cbn [app]. by rewrite indexOfFrom_first. }
  assert (lastIndexOf (p' ++ body ++ t') [closeBrace]
          = Some (length p' + length body0)) as ->.
  { unfold lastIndexOf. rewrite Hz, <- !app_assoc, app_assoc. cbn [app].
    rewrite lastIndexOfFrom_last by done. by rewrite length_app. }
  assert ((length p' <=? length p' + length body0) = true) as ->
    by (apply Nat.leb_le; lia).
  unfold slice. rewrite drop_app_length.
  replace (length p' + length body0 + 1 - length p') with (length body)
    by (rewrite Hz, length_app; simpl; lia).
  rewrite take_app_length. by apply bare_normalized.
Qed.

Lemma sanitizeJson_strips_prose_witness :
  sanitizeJson (js "Here is the plan: " ++ jq "{'actions':[]}" ++ js " Done.")
  = jq "{'actions':[]}".
Proof.
  assert (forall (c : N) (s : str), bool_decide (c ∈ s) = false -> c ∉ s) as Hnotin.
  { intros c s H. by apply bool_decide_eq_false in H. }
  apply (sanitizeJson_strips_prose (js "Here is the plan: ") (jq "{'actions':[]}")
           (js " Done.")).
  - split; [|by apply Hnotin].
    repeat split; try reflexivity. repeat constructor.
  - reflexivity.
  - repeat constructor.
  - by apply Hnotin.
  - discriminate.
  - by apply Hnotin.
  - by apply Hnotin.
  - by apply Hnotin.
Defined.


Lemma member_withMember members key value :
  member (JObject (withMember members key value)) key = Some value.
Proof.
  unfold member. induction members as [|[k v] members IH]; simpl.
  - by rewrite eqb_refl.
  - destruct (eqb k key) eqn:E; simpl; rewrite E; [done|apply IH].
Qed.

Lemma member_withMember_ne members key value key' :
  key' <> key ->
  member (JObject (withMember members key value)) key'
  = member (JObject members) key'.
Proof.
  intros Hne.
  assert (eqb key key' = false) as Hk by (apply eqb_false; congruence).
  unfold member. induction members as [|[k v] members IH]; simpl.
  - by rewrite Hk.
  - destruct (eqb k key) eqn:E; simpl.
    + apply eqb_true in E as ->. by rewrite Hk.
    + destruct (eqb k key'); [done|apply IH].
Qed.

(** An action with a non-empty [patches] array becomes one action for
    each patch, in the order of the array: the i-th carries the i-th
    patch as its [patch] and every other member of the action
    unchanged. *)
Theorem patches_are_expanded members patches :
  member (JObject members) (js "patches") = Some (JArray patches) ->
  patches <> [] ->
  exists expanded,
    normalizeAction (JObject members) = Return expanded
    /\ length expanded = length patches
    /\ forall i patch,
         patches !! i = Some patch ->
         exists action,
           expanded !! i = Some action
           /\ member action (js "patch") = Some patch
           /\ forall key, key <> js "patch" ->
                member action key = member (JObject members) key.
Proof.
  intros Hp Hne. unfold normalizeAction. rewrite Hp.
  destruct patches as [|p ps]; [done|].
  eexists. split; [done|]. split; [by rewrite length_fmap|].
  intros i patch Hi. eexists. split.
  - rewrite list_lookup_fmap, Hi. done.
  - split; [apply member_withMember|].
    intros key Hkey. by apply member_withMember_ne.
Qed.

Lemma patches_are_expanded_witness :
  exists expanded,
    normalizeAction
      (JObject [(js "path", JString (js "a.txt"));
                (js "patches", JArray [JString (js "p1"); JString (js "p2")])])
    = Return expanded
    /\ length expanded = 2
    /\ forall i patch,
         [JString (js "p1"); JString (js "p2")] !! i = Some patch ->
         exists action,
           expanded !! i = Some action
           /\ member action (js "patch") = Some patch
           /\ forall key, key <> js "patch" ->
                member action key
                = member (JObject [(js "path", JString (js "a.txt"));
                                   (js "patches",
                                    JArray [JString (js "p1"); JString (js "p2")])])
                         key.
Proof.
  apply (patches_are_expanded
           [(js "path", JString (js "a.txt"));
            (js "patches", JArray [JString (js "p1"); JString (js "p2")])]
           [JString (js "p1"); JString (js "p2")]).
  - reflexivity.
  - discriminate.
Defined.

Lemma normalizeAction_no_null action expanded :
  normalizeAction action = Return expanded -> JNull ∉ expanded.
Proof.
  unfold normalizeAction. destruct action as [|b|n|s|items|members]; try done;
    try (intros [= <-]; intros H; apply list_elem_of_singleton in H; done).
  destruct (member (JObject members) (js "patches")) as [[| | | |[|p ps]|]|];
    try (intros [= <-]; intros H; apply list_elem_of_singleton in H; done).
  intros [= <-] H.
  change (JNull ∈ (fun patch => JObject (withMember members (js "patch") patch))
                    <$> (p :: ps)) in H.
  apply list_elem_of_fmap in H as (patch & Heq & _). done.
Qed.

Lemma flatMapActions_no_null items expanded :
  flatMapActions items = Return expanded -> JNull ∉ expanded.
Proof.
  revert expanded; induction items as [|item items IH]; intros expanded.
  - intros [= <-]. apply not_elem_of_nil.
  - simpl. unfold mbind, Outcome_bind.
    destruct (normalizeAction item) as [first|] eqn:E1; [|done].
    destruct (flatMapActions items) as [others|] eqn:E2; [|done].
    intros [= <-]. rewrite elem_of_app. intros [H|H].
    + by apply (normalizeAction_no_null _ _ E1).
    + by apply (IH _ eq_refl).
Qed.

(** What [parsePayload] returns, when it returns: an object whose
    [actions] member is an array without [null] entries. Anything else
    (no object, no [actions] array, a [null] action) makes it throw. *)
Theorem parsePayload_returns_actions {parser : JsonParser} {repair : JsonRepair}
    (raw : str) :
  match parsePayload raw with
  | Return v =>
      exists members items,
        v = JObject members
        /\ member v (js "actions") = Some (JArray items)
        /\ JNull ∉ items
  | Throw e =>
      e = InvalidJsonAfterRepair (length raw) \/ e = MissingActionsArray
      \/ e = TypeErrorOnNull
  end.
Proof.
  unfold parsePayload, mbind, Outcome_bind.
  destruct (parseWithRepair (sanitizeJson raw) raw) as [parsed|e] eqn:E.
  - destruct parsed as [|b|n|s|items|members]; try tauto.
    destruct (member (JObject members) (js "actions"))
      as [[| | | |items|]|] eqn:Ha; try tauto.
    destruct (flatMapActions items) as [expanded|e] eqn:Hf.
    + cbn [mret Outcome_ret]. eexists _, _. split; [done|].
      split; [apply member_withMember|]. by eapply flatMapActions_no_null.
    + assert (e = TypeErrorOnNull) as ->; [|tauto].
      clear Ha. revert e Hf. induction items as [|item items IH]; intros e; [done|].
      simpl. unfold mbind, Outcome_bind.
      destruct (normalizeAction item) as [first|e1] eqn:E1.
      * destruct (flatMapActions items) as [others|e2]; [done|].
        intros [= <-]. by apply IH.
      * intros [= <-]. revert E1. unfold normalizeAction.
        destruct item as [|?|?|?|?|ms]; try done; [by intros [= <-]|].
        by destruct (member (JObject ms) (js "patches")) as [[| | | |[|? ?]|]|].
  - unfold parseWithRepair in E. destruct (firstParsed _); [done|].
    injection E as <-. tauto.
Qed.
(** ** Anchored edits *)

(** An insert at an anchor that occurs more than once goes to the first
    occurrence: for an anchor without a matching regex whose [exact]
    text occurs in the content, first at [i], an [insert_after] puts
    the snippet right behind that occurrence and an [insert_before]
    right in front of it. Nothing of the file is lost: taking the
    snippet out of the result gives the content back. *)
Theorem insert_at_first_occurrence {re : RegExpEngine}
    (content exact snippet : str) (anchor : AnchorSpec)
    (action : ImplementationAction) (i : nat) (later : list nat) (after : bool) :
  anchor_exact anchor = Some exact -> exact <> [] ->
  Anchor.locateByRegex content anchor = None ->
  occurrences content exact = i :: later ->
  action_anchor action = Some anchor ->
  action_snippet action = Some snippet ->
  ImplementerAgent.modeOf action = (if after then InsertAfter else InsertBefore) ->
  let at_ := if after then i + length exact else i in
  let updated := take at_ content ++ snippet ++ drop at_ content in
  (forall (cwd : str) (fsTool : FileSystemTool) (fs : FS) (originalRaw : str),
     FileSystemTool.read cwd fsTool (action_path action) fs
       = (Return originalRaw, fs) ->
     content = (if hasCRLF originalRaw then crlfToLf originalRaw
                else originalRaw) ->
     truthy (action_ensure action)
       && negb (includes updated (orEmpty (action_ensure action))) = false ->
     ImplementerAgent.applyAnchoredModification cwd fsTool action fs
     = FileSystemTool.write cwd fsTool (action_path action)
         (if hasCRLF originalRaw then lfToCrlf updated else updated) fs)
  /\ take at_ updated ++ drop (at_ + length snippet) updated = content
  /\ slice updated at_ (at_ + length snippet) = snippet.
Proof.
  intros He Hne Hre Hocc Hanchor Hsnip Hmode at_ updated.
  assert (i ∈ occurrences content exact) as Hi by (rewrite Hocc; left).
  apply occurrences_elem in Hi as [Hlen Hslice].
  assert (i + length exact <= length content) as Hend.
  { apply (f_equal (@length _)) in Hslice. unfold slice in Hslice.
    rewrite length_take, length_drop in Hslice. lia. }
  assert (at_ <= length content) as Hat by (unfold at_; destruct after; lia).
  assert (length (take at_ content) = at_) as Htake
    by (rewrite length_take; lia).
  split; [|split].
  - intros cwd fsTool fs originalRaw Hread Hcontent Hensure.
    unfold ImplementerAgent.applyAnchoredModification.
    rewrite Hanchor, Hmode, Hsnip.
    assert (ImplementerAgent.isReplace (if after then InsertAfter else InsertBefore)
            = false) as -> by (by destruct after).
    cbn [isString negb andb].
    unfold mbind at 1. unfold IO_bind. rewrite Hread.
    rewrite <- Hcontent.
    assert (Anchor.locateAnchor content anchor
            = Some {| span_start := i; span_end := i + length exact |}) as ->.
    { unfold Anchor.locateAnchor. rewrite Hre.
      by apply (locateByExact_first content anchor exact i later). }
    unfold mbind, IO_bind, liftOutcome.
    assert (ImplementerAgent.editAt content
              {| span_start := i; span_end := i + length exact |}
              (if after then InsertAfter else InsertBefore) action
            = Return updated) as ->.
    { unfold ImplementerAgent.editAt, updated, at_, slice, sliceFrom.
      rewrite Hsnip. destruct after; cbn [span_start span_end orEmpty];
        by rewrite drop_0, Nat.sub_0_r. }
    by rewrite Hensure.
  - unfold updated. rewrite take_app_length' by done.
    rewrite app_assoc, drop_app_length'
      by (rewrite length_app; lia).
    apply take_drop.
  - unfold slice, updated.
    rewrite drop_app_length' by done.
    replace (at_ + length snippet - at_) with (length snippet) by lia.
    by rewrite take_app_length.
Qed.

Lemma insert_at_first_occurrence_witness :
  let updated := take (0 + 2) (js "ab ab") ++ js "X" ++ drop (0 + 2) (js "ab ab") in
  take (0 + 2) updated ++ drop (0 + 2 + 1) updated = js "ab ab"
  /\ slice updated (0 + 2) (0 + 2 + 1) = js "X".
Proof.
  intros updated.
  pose (anchor := {| anchor_exact := Some (js "ab"); anchor_regex := None;
                     anchor_description := None |}).
  pose (action := {| action_type := ModifyFile; action_path := js "a.txt";
                     action_content := None; action_patch := None;
                     action_patches := None; action_mode := None;
                     action_anchor := Some anchor; action_replacement := None;
                     action_snippet := Some (js "X"); action_ensure := None |}).
  exact (proj2 (@insert_at_first_occurrence Reference.LiteralRegExp
                  (js "ab ab") (js "ab") (js "X") anchor action 0 [3] true
                  eq_refl ltac:(discriminate) eq_refl eq_refl eq_refl eq_refl
                  eq_refl)).
Defined.

(** A line feed of the text does not follow a carriage return
    ([prev] is the character before the text). *)
Fixpoint loneLFAfter (prev : N) (s : str) : bool :=
  match s with
  | c :: s' => (N.eqb c LF && negb (N.eqb prev CR)) || loneLFAfter c s'
  | [] => false
  end.

Lemma crlfToLf_lfToCrlf (u : str) : crlfToLf (lfToCrlf u) = u.
Proof.
  induction u as [|c u IH]; [done|]. cbn [lfToCrlf].
  destruct (N.eqb_spec c LF) as [->|Hc].
  - change (crlfToLf (CR :: LF :: lfToCrlf u)) with (LF :: crlfToLf (lfToCrlf u)).
    by rewrite IH.
  - destruct (lfToCrlf u) as [|d w] eqn:E.
    + destruct u as [|x u]; [done|]. simpl in E. by destruct (N.eqb x LF).
    + change (crlfToLf (c :: d :: w))
        with (if N.eqb c CR && N.eqb d LF then LF :: crlfToLf w
              else c :: crlfToLf (d :: w)).
      assert (N.eqb c CR && N.eqb d LF = false) as ->.
      { destruct (N.eqb_spec c CR) as [->|_]; [|done].
        destruct u as [|x u]; [done|]. simpl in E.
        destruct (N.eqb_spec x LF) as [->|Hx].
        - by injection E as <- _.
        - injection E as <- _. by apply N.eqb_neq in Hx as ->. }
      by rewrite IH.
Qed.

Lemma loneLFAfter_prev (p q : N) (s : str) :
  N.eqb p CR = N.eqb q CR -> loneLFAfter p s = loneLFAfter q s.
Proof. intros H. destruct s as [|c s]; [done|]. simpl. by rewrite H. Qed.

Lemma lfToCrlf_crlfToLf (s : str) :
  loneLFAfter 0 s = false -> lfToCrlf (crlfToLf s) = s.
Proof.
  assert (forall n s, length s <= n -> loneLFAfter 0 s = false ->
            lfToCrlf (crlfToLf s) = s) as H.
  { clear s. induction n as [|n IH]; intros s Hlen Hs.
    - destruct s; [done|simpl in Hlen; lia].
    - destruct s as [|c [|d s]]; [done| |].
      + simpl in Hs. simpl. rewrite orb_false_r, andb_true_r in Hs. by rewrite Hs.
      + change (crlfToLf (c :: d :: s))
          with (if N.eqb c CR && N.eqb d LF then LF :: crlfToLf s
                else c :: crlfToLf (d :: s)).
        simpl in Hlen.
        change (loneLFAfter 0 (c :: d :: s))
          with ((N.eqb c LF && true) || ((N.eqb d LF && negb (N.eqb c CR))
                                         || loneLFAfter d s)) in Hs.
        rewrite andb_true_r in Hs.
        apply orb_false_iff in Hs as [Hc Hs].
        apply orb_false_iff in Hs as [Hd Hs].
        destruct (N.eqb_spec c CR) as [->|Hcr]; destruct (N.eqb_spec d LF) as [->|Hlf];
          cbn [andb].
        * cbn [lfToCrlf]. rewrite N.eqb_refl. f_equal. f_equal.
          apply IH; [lia|]. by rewrite (loneLFAfter_prev 0 LF).
        * cbn [lfToCrlf]. rewrite Hc. f_equal.
          apply IH; [simpl; lia|]. simpl.
          apply N.eqb_neq in Hlf. by rewrite Hlf.
        * vm_compute in Hd. done.
        * cbn [lfToCrlf]. rewrite Hc. f_equal.
          apply IH; [simpl; lia|]. simpl.
          apply N.eqb_neq in Hlf. by rewrite Hlf. }
  by apply (H (length s)).
Qed.

Lemma lfToCrlf_app (a b : str) : lfToCrlf (a ++ b) = lfToCrlf a ++ lfToCrlf b.
Proof.
  induction a as [|c a IH]; [done|]. simpl.
  destruct (N.eqb c LF); simpl; by rewrite IH.
Qed.

(** An anchored replace changes the anchor and nothing else, also in a
    file with CRLF line ends. For a file without CRLF, or all of whose
    line feeds follow a carriage return, and an anchor found by its
    [exact] text: the file is some text, the anchor, and some text, and
    what is written is the same two texts, byte for byte, around the
    replacement; in the CRLF file the anchor and the replacement have
    their line feeds as CRLF. *)
Theorem replace_keeps_the_rest {re : RegExpEngine}
    (cwd : str) (fsTool : FileSystemTool) (fs : FS)
    (raw exact replacement : str) (anchor : AnchorSpec)
    (action : ImplementationAction) (i : nat) (later : list nat) :
  hasCRLF raw = false \/ loneLFAfter 0 raw = false ->
  let content := if hasCRLF raw then crlfToLf raw else raw in
  let conv := fun text : str => if hasCRLF raw then lfToCrlf text else text in
  FileSystemTool.read cwd fsTool (action_path action) fs = (Return raw, fs) ->
  action_anchor action = Some anchor ->
  anchor_exact anchor = Some exact -> exact <> [] ->
  Anchor.locateByRegex content anchor = None ->
  occurrences content exact = i :: later ->
  ImplementerAgent.modeOf action = Replace ->
  action_replacement action = Some replacement ->
  action_ensure action = None ->
  exists pre post,
    raw = pre ++ conv exact ++ post
    /\ ImplementerAgent.applyAnchoredModification cwd fsTool action fs
       = FileSystemTool.write cwd fsTool (action_path action)
           (pre ++ conv replacement ++ post) fs.
Proof.
  intros Hends content conv Hread Hanchor He Hne Hre Hocc Hmode Hrep Hensure.
  assert (i ∈ occurrences content exact) as Hi by (rewrite Hocc; left).
  apply occurrences_elem in Hi as [Hlen Hslice].
  assert (content = take i content ++ exact ++ drop (i + length exact) content)
    as Hsplit.
  { unfold slice in Hslice.
    replace (i + length exact - i) with (length exact) in Hslice by lia.
    rewrite <- (take_drop i content) at 1. f_equal.
    rewrite <- (take_drop (length exact) (drop i content)) at 1.
    by rewrite drop_drop, Hslice. }
  assert (conv content = raw) as Hraw.
  { unfold conv, content. destruct (hasCRLF raw) eqn:E; [|done].
    apply lfToCrlf_crlfToLf. by destruct Hends. }
  assert (forall a b, conv (a ++ b) = conv a ++ conv b) as Hconv.
  { intros a b. unfold conv. destruct (hasCRLF raw); [apply lfToCrlf_app|done]. }
  exists (conv (take i content)), (conv (drop (i + length exact) content)).
  split.
  - by rewrite <- !Hconv, <- Hsplit.
  - unfold ImplementerAgent.applyAnchoredModification.
    rewrite Hanchor, Hmode, Hrep.
    cbn [ImplementerAgent.isReplace isString negb andb].
    unfold mbind at 1. unfold IO_bind. rewrite Hread. fold content.
    assert (Anchor.locateAnchor content anchor
            = Some {| span_start := i; span_end := i + length exact |}) as ->.
    { unfold Anchor.locateAnchor. rewrite Hre.
      by apply (locateByExact_first content anchor exact i later). }
    unfold mbind, IO_bind, liftOutcome, ImplementerAgent.editAt.
    rewrite Hrep, Hensure. cbn [span_start span_end orEmpty truthy andb].
    unfold slice, sliceFrom. rewrite drop_0, Nat.sub_0_r.
    f_equal. rewrite <- !Hconv. unfold conv. by destruct (hasCRLF raw).
Qed.

Lemma replace_keeps_the_rest_witness :
  let raw := js "a" ++ [CR; LF] ++ js "b" ++ [CR; LF] in
  let fs : FS := {[ [js "w"; js "a.txt"] := raw ]} in
  let anchor := {| anchor_exact := Some (js "b"); anchor_regex := None;
                   anchor_description := None |} in
  let action := {| action_type := ModifyFile; action_path := js "a.txt";
                   action_content := None; action_patch := None;
                   action_patches := None; action_mode := Some Replace;
                   action_anchor := Some anchor;
                   action_replacement := Some (js "c" ++ [LF] ++ js "d");
                   action_snippet := None; action_ensure := None |} in
  exists pre post,
    raw = pre ++ lfToCrlf (js "b") ++ post
    /\ ImplementerAgent.applyAnchoredModification (re := Reference.LiteralRegExp)
         (js "/") ws action fs
       = FileSystemTool.write (js "/") ws (js "a.txt")
           (pre ++ lfToCrlf (js "c" ++ [LF] ++ js "d") ++ post) fs.
Proof.
  intros raw fs anchor action.
  apply (replace_keeps_the_rest (re := Reference.LiteralRegExp) (js "/") ws fs raw
           (js "b") (js "c" ++ [LF] ++ js "d") anchor action 2 []).
  - right. reflexivity.
  - vm_compute. reflexivity.
  - reflexivity.
  - reflexivity.
  - discriminate.
  - reflexivity.
  - reflexivity.
  - reflexivity.
  - reflexivity.
  - reflexivity.
Defined.
(** ** The Diff Applier *)

(** The patch [applyUnifiedDiff] works on: trimmed, with a file header
    put in front when it has none, and sanitized. *)
Definition preparedPatch (patch pathLabel : str) : str :=
  let trimmed := trim patch in
  Text.sanitizePatchArtifacts
    (if startsWith trimmed (js "---") then trimmed
     else js "--- " ++ pathLabel ++ [LF] ++ js "+++ " ++ pathLabel ++ [LF]
          ++ trimmed).

Lemma runAttempts_never {diff : DiffLibrary} attempts lastError :
  (forall source p fuzz, exists r,
     applyPatchString source p fuzz = r /\ forall text, r <> Patched text) ->
  (forall source p fuzz text, applyPatchObject source p fuzz <> Patched text) ->
  exists e, DiffApplier.runAttempts attempts lastError = inr e.
Proof.
  intros Hs Ho. revert lastError.
  induction attempts as [|attempt attempts IH]; intros lastError; [by eexists|].
  simpl.
  destruct (attempt_patchString attempt) as [[|c p]|].
  - destruct (attempt_patchObjects attempt) as [[|o os]|]; try apply IH.
    destruct (applyPatchObject (attempt_source attempt) o (attempt_fuzz attempt))
      as [text| |message] eqn:E; [by apply Ho in E| |]; apply IH.
  - destruct (Hs (attempt_source attempt) (c :: p) (attempt_fuzz attempt))
      as (r & -> & Hr).
    destruct r as [text| |message]; [by destruct (Hr text)| |]; apply IH.
  - destruct (attempt_patchObjects attempt) as [[|o os]|]; try apply IH.
    destruct (applyPatchObject (attempt_source attempt) o (attempt_fuzz attempt))
      as [text| |message] eqn:E; [by apply Ho in E| |]; apply IH.
Qed.

(** A patch that parses is always applied: when [parsePatch] returns
    hunks for the prepared patch, [applyUnifiedDiff] returns a text,
    whatever [applyPatch] of the library does. When the library applies
    nothing, the text is the one manual splicing yields, with the line
    ends of the file restored; the failure that would list manual
    instructions is never reached. *)
Theorem patch_that_parses_is_applied {diff : DiffLibrary}
    (original patch pathLabel : str) (first : ParsedDiff) (others : list ParsedDiff) :
  let prepared := preparedPatch patch pathLabel in
  let source := if hasCRLF original then crlfToLf original else original in
  parsePatch (if hasCRLF prepared then crlfToLf prepared else prepared)
    = Some (first :: others) ->
  (exists text,
     DiffApplier.applyUnifiedDiff original patch pathLabel = Return text)
  /\ ((forall source p fuzz text, applyPatchString source p fuzz <> Patched text) ->
      (forall source p fuzz text, applyPatchObject source p fuzz <> Patched text) ->
      exists manual log,
        ManualPatch.applyPatchManually source (first :: others) = (Some manual, log)
        /\ DiffApplier.applyUnifiedDiff original patch pathLabel
           = Return (DiffApplier.restore (hasCRLF original) manual)).
Proof.
  intros prepared source Hparse.
  set (base := if startsWith (trim patch) (js "---") then trim patch
               else js "--- " ++ pathLabel ++ [LF] ++ js "+++ " ++ pathLabel
                    ++ [LF] ++ trim patch).
  assert (prepared = Text.sanitizePatchArtifacts base) as Hprep by done.
  assert (DiffApplier.lastParsed
            (if eqb (Text.sanitizePatchArtifacts base) base then [base]
             else [base; Text.sanitizePatchArtifacts base])
          = Some (first :: others)) as Hlast.
  { unfold DiffApplier.lastParsed.
    assert (DiffApplier.parsedObjects
              (if hasCRLF prepared then crlfToLf prepared else prepared)
            = Some (first :: others)) as Hobj
      by (unfold DiffApplier.parsedObjects; by rewrite Hparse).
    destruct (eqb (Text.sanitizePatchArtifacts base) base) eqn:E.
    - apply eqb_true in E. rewrite Hprep, E in Hobj. simpl. by rewrite Hobj.
    - rewrite Hprep in Hobj. cbn [omap list_omap].
      rewrite Hobj.
      by destruct (DiffApplier.parsedObjects (if hasCRLF base then _ else _)). }
  assert (exists manual log,
            ManualPatch.applyPatchManually source (first :: others)
            = (Some manual, log)) as (manual & log & Hmanual)
    by (unfold ManualPatch.applyPatchManually; by eexists _, _).
  split.
  - unfold DiffApplier.applyUnifiedDiff. fold base. fold source.
    destruct (DiffApplier.runAttempts _ None) as [text|lastError]; [by eexists|].
    rewrite Hlast, Hmanual. by eexists.
  - intros Hs Ho. exists manual, log. split; [done|].
    unfold DiffApplier.applyUnifiedDiff. fold base. fold source.
    match goal with
    | |- context [DiffApplier.runAttempts ?a None] =>
        destruct (runAttempts_never a None) as (e & ->)
    end.
    + intros s p f. eexists. split; [done|]. intros text. apply Hs.
    + done.
    + by rewrite Hlast, Hmanual.
Qed.

Lemma patch_that_parses_is_applied_witness :
  let parsed :=
    [ {| oldFileName := None; newFileName := None;
         hunks := [ {| oldStart := 1; oldLines := 1; newStart := 1; newLines := 1;
                       lines := [js "-a"; js "+b"] |} ] |} ] in
  let lib := {| applyPatchString := fun _ _ _ => PatchRejected;
                applyPatchObject := fun _ _ _ => PatchRejected;
                parsePatch := fun _ => Some parsed |} in
  DiffApplier.applyUnifiedDiff (diff := lib) (js "a")
    (js "@@ -1 +1 @@" ++ [LF] ++ js "-a" ++ [LF] ++ js "+b") (js "f.txt")
  = Return (js "b").
Proof.
  intros parsed lib.
  destruct (patch_that_parses_is_applied (diff := lib) (js "a")
              (js "@@ -1 +1 @@" ++ [LF] ++ js "-a" ++ [LF] ++ js "+b") (js "f.txt")
              _ _ eq_refl) as [_ H].
  destruct H as (manual & log & Hmanual & ->); [done|done|].
  injection Hmanual as <- _. reflexivity.
Defined.
(** ** Manual hunk splicing *)

(** The loop that collects the candidate indices never stops early and
    reaches every line of the file. *)
Lemma candidateLoop_spec rounds delta approx len cands :
  approx <= len ->
  length cands = (Nat.min (approx + delta) len - approx) + Nat.min (delta - 1) approx ->
  (forall j, j ∈ cands <->
     j < len /\ ((approx <= j /\ j < approx + delta)
                 \/ (j < approx /\ approx < j + delta))) ->
  forall j, j ∈ candidateLoop rounds delta approx len cands <->
    j < len /\ ((approx <= j /\ j < approx + delta + rounds)
                \/ (j < approx /\ approx < j + delta + rounds)).
Proof.
  intros Happrox. revert delta cands.
  induction rounds as [|rounds IH]; intros delta cands Hlen Hmem j.
  - simpl. rewrite Hmem. rewrite !Nat.add_0_r. done.
  - cbn [candidateLoop].
    set (c1 := if approx + delta <? len then cands ++ [approx + delta] else cands).
    set (c2 := if negb (delta =? 0) && (delta <=? approx)
               then c1 ++ [approx - delta] else c1).
    assert (length c2 = (Nat.min (approx + S delta) len - approx)
                        + Nat.min (S delta - 1) approx) as Hlen2.
    { unfold c2, c1.
      destruct (Nat.ltb_spec (approx + delta) len);
        destruct (Nat.eqb_spec delta 0); destruct (Nat.leb_spec delta approx);
        cbn [negb andb]; rewrite ?length_app; simpl; lia. }
    assert (forall j, j ∈ c2 <->
              j < len /\ ((approx <= j /\ j < approx + S delta)
                          \/ (j < approx /\ approx < j + S delta))) as Hmem2.
    { intros k. unfold c2, c1.
      destruct (Nat.ltb_spec (approx + delta) len);
        destruct (Nat.eqb_spec delta 0); destruct (Nat.leb_spec delta approx);
        cbn [negb andb]; rewrite ?elem_of_app, ?list_elem_of_singleton, Hmem; lia. }
    assert ((len <? length c2) = false) as -> by (apply Nat.ltb_ge; lia).
    rewrite (IH (S delta) c2 Hlen2 Hmem2).
    replace (approx + S delta + rounds) with (approx + delta + S rounds) by lia.
    replace (j + S delta + rounds) with (j + delta + S rounds) by lia. done.
Qed.

Lemma candidateIndices_complete approx len j :
  approx <= len -> j < len -> j ∈ candidateIndices approx len.
Proof.
  intros Ha Hj. unfold candidateIndices.
  apply (candidateLoop_spec (S len) 0 approx len [] Ha).
  - simpl. lia.
  - intros k. rewrite elem_of_nil. lia.
  - lia.
Qed.

(** Lines that match exactly at an index are the lines there. *)
Lemma matchesAt_exact haystack needle c :
  matchesAt haystack needle c false = true ->
  c + length needle <= length haystack
  /\ take (length needle) (drop c haystack) = needle.
Proof.
  unfold matchesAt. destruct (Nat.ltb_spec (length haystack) (c + length needle));
    [done|].
  intros Hall. split; [done|].
  assert (length needle <= length (drop c haystack)) as Hlen
    by (rewrite length_drop; lia).
  revert Hall Hlen. generalize (drop c haystack) as hay. clear.
  induction needle as [|n needle IH]; intros hay Hall Hlen; [done|].
  destruct hay as [|h hay]; [simpl in Hlen; lia|].
  simpl in Hall. apply andb_true_iff in Hall as [Hh Hall].
  apply eqb_true in Hh as ->. simpl. f_equal. apply IH; [done|]. simpl in Hlen. lia.
Qed.

(** Target lines that stand somewhere in the file are found: when the
    lines a hunk removes or keeps occur verbatim in the file, wherever
    the hunk says they are, the hunk is spliced over such an occurrence
    and not at its declared position, the lines before and after it are
    left as they were, and nothing is logged. *)
Theorem exact_window_is_used (st : ManualState) (hunk : Hunk) (j : nat) :
  targetLinesOf hunk <> [] ->
  matchesAt (working st) (targetLinesOf hunk) j false = true ->
  exists c,
    working st
    = take c (working st) ++ targetLinesOf hunk
      ++ drop (c + length (targetLinesOf hunk)) (working st)
    /\ applyHunk st hunk
       = {| working := take c (working st) ++ replacementLinesOf hunk
                       ++ drop (c + length (targetLinesOf hunk)) (working st);
            offset := offset st + Z.of_nat (length (replacementLinesOf hunk))
                      - Z.of_nat (length (targetLinesOf hunk));
            logged := logged st |}.
Proof.
  intros Htarget Hj.
  pose proof (matchesAt_exact _ _ _ Hj) as [Hjlen _].
  assert (j < length (working st)) as Hjlt.
  { destruct (targetLinesOf hunk); [done|]. simpl in Hjlen. lia. }
  set (approx := clampIndex (length (working st)) (oldStart hunk - 1 + offset st)).
  assert (j ∈ candidateIndices approx (length (working st))) as Hcand
    by (apply candidateIndices_complete; [apply clampIndex_le|done]).
  destruct (find (fun c => matchesAt (working st) (targetLinesOf hunk) c false)
              (candidateIndices approx (length (working st)))) as [c|] eqn:Hfind.
  - apply find_some in Hfind as Hc. destruct Hc as [_ Hc].
    pose proof (matchesAt_exact _ _ _ Hc) as [Hclen Hctake].
    exists c. split.
    + rewrite <- (take_drop c (working st)) at 1. f_equal.
      rewrite <- (take_drop (length (targetLinesOf hunk)) (drop c (working st)))
        at 1.
      by rewrite Hctake, drop_drop.
    + unfold applyHunk, findBestSequenceIndex. fold approx. rewrite Hfind.
      destruct (targetLinesOf hunk) eqn:E; [done|].
      by rewrite app_nil_r.
  - apply list_elem_of_In in Hcand.
    pose proof (find_none _ _ Hfind _ Hcand) as Hno. simpl in Hno. congruence.
Qed.

Lemma exact_window_is_used_witness :
  let st := {| working := [js "a"; js "b"; js "c"]; offset := 0; logged := [] |} in
  let hunk := {| oldStart := 1; oldLines := 1; newStart := 1; newLines := 1;
                 lines := [js "-c"; js "+d"] |} in
  exists c,
    working st
    = take c (working st) ++ targetLinesOf hunk
      ++ drop (c + length (targetLinesOf hunk)) (working st)
    /\ applyHunk st hunk
       = {| working := take c (working st) ++ replacementLinesOf hunk
                       ++ drop (c + length (targetLinesOf hunk)) (working st);
            offset := offset st + Z.of_nat (length (replacementLinesOf hunk))
                      - Z.of_nat (length (targetLinesOf hunk));
            logged := logged st |}.
Proof.
  intros st hunk.
  apply (exact_window_is_used st hunk 2); [discriminate|reflexivity].
Defined.
(** ** The test generator *)





(** The test files are outside the rollback: the result of the test
    generator carries no mutations, so the rollback after a failed
    validation is the one computed from the other results, and the
    files the test generator wrote are not among what it undoes. *)
Theorem test_files_are_not_rolled_back cwd wr t payload fs
    (dry : bool) (earlier later : list AgentResult) fs0 :
  let run := TestGeneratorAgent.runFromPayload cwd t payload fs in
  result_mutations run.1 = None
  /\ Rollback.rollbackAfterValidation cwd wr dry (earlier ++ run.1 :: later) fs0
     = Rollback.rollbackAfterValidation cwd wr dry (earlier ++ later) fs0.
Proof.
  intros run.
  assert (run.1 = {| result_agent := js "test-generator";
                     result_status := Success;
                     result_summary :=
                       inr (js "Generated " ++ decimal (length (tests payload))
                            ++ js " test file(s): " ++ summary payload);
                     result_mutations := None |}) as ->.
  { unfold run, TestGeneratorAgent.runFromPayload.
    by destruct (TestGeneratorAgent.writeTests cwd t (tests payload) fs). }
  split; [done|].
  unfold Rollback.rollbackAfterValidation. destruct dry; [done|].
  assert (forall f (xs ys : list AgentResult) x,
            f x = false -> find f (xs ++ x :: ys) = find f (xs ++ ys)) as Hfind.
  { intros f xs ys x Hx. induction xs as [|y xs IH]; simpl; [by rewrite Hx|].
    by rewrite IH. }
  rewrite Hfind by done.
  destruct (find _ (earlier ++ later)); [|done].
  by rewrite !flat_map_app.
Qed.
(** ** Patch sanitation *)

Lemma no_LF_no_CRLF s : LF ∉ s -> hasCRLF s = false.
Proof.
  induction s as [|c s IH]; [done|]. intros Hc.
  destruct s as [|d s]; [done|].
  change (hasCRLF (c :: d :: s))
    with ((N.eqb c CR && N.eqb d LF) || hasCRLF (d :: s)).
  rewrite IH by (intros H; apply Hc; by right).
  destruct (N.eqb_spec d LF) as [->|_]; [|by rewrite andb_false_r].
  exfalso. apply Hc. right. left.
Qed.

Lemma normalizeJsonText_line line :
  Forall (fun c => rewritten c = false) line -> LF ∉ line ->
  Text.normalizeJsonText line false = line.
Proof.
  intros Hchars Hlf. unfold Text.normalizeJsonText.
  assert (forall f : N -> bool,
            (forall c, rewritten c = false -> f c = false) ->
            Forall (fun c => f c = false) line) as Hnone.
  { intros f Hf. eapply Forall_impl; [done|]. apply Hf. }
  unfold rewritten in Hnone.
  rewrite (replaceChar_id Text.isDoubleQuoteMark)
    by (apply Hnone; intros c; rewrite !orb_false_iff; tauto).
  rewrite (replaceChar_id Text.isSingleQuoteMark)
    by (apply Hnone; intros c; rewrite !orb_false_iff; tauto).
  rewrite (replaceChar_id Text.isDash)
    by (apply Hnone; intros c; rewrite !orb_false_iff; tauto).
  rewrite crlfToLf_id by (by apply no_LF_no_CRLF).
  rewrite (removeChars_id Text.isZeroWidth)
    by (apply Hnone; intros c; rewrite !orb_false_iff; tauto).
  rewrite (removeChars_id Text.isControl)
    by (apply Hnone; intros c; rewrite !orb_false_iff; tauto).
  rewrite (replaceChar_id (N.eqb 9))
    by (apply Hnone; intros c; rewrite !orb_false_iff; tauto).
  by rewrite (replaceChar_id (N.eqb 160))
    by (apply Hnone; intros c; rewrite !orb_false_iff; tauto).
Qed.

(** A line of a unified diff as the sanitizer expects it: empty, or
    beginning with a diff marker or a header prefix, without a
    character that normalisation rewrites, not made of JSON punctuation
    only, and beginning with a space when it is blank. *)
Definition diffLine (line : str) : Prop :=
  line = []
  \/ (Forall (fun c => rewritten c = false) line
      /\ (LF ∉ line)
      /\ Text.isJsonDebris (trim line) = false
      /\ match line with
         | c :: _ =>
             if eqb (trim line) [] then c = 32%N
             else Text.isDiffMarker c = true \/ Text.hasHeaderPrefix line = true
         | [] => True
         end).

(** A line that holds nothing but JSON punctuation, white space
    apart. *)
Definition debrisLine (line : str) : Prop :=
  Forall (fun c => rewritten c = false) line
  /\ (LF ∉ line)
  /\ Text.isJsonDebris (trim line) = true.

Lemma sanitizeLine_diffLine line : diffLine line -> Text.sanitizeLine line = Some line.
Proof.
  intros [-> | (Hchars & Hlf & Hdebris & Hshape)]; [done|].
  destruct line as [|c r]; [done|].
  unfold Text.sanitizeLine. rewrite normalizeJsonText_line by done.
  cbv beta iota zeta. rewrite Hdebris.
  assert (eqb (trim (c :: r)) [34%N] = false) as ->.
  { apply eqb_false. intros H. by rewrite H in Hdebris. }
  assert (eqb (trim (c :: r)) (js "',") = false) as ->.
  { apply eqb_false. intros H. by rewrite H in Hdebris. }
  assert (eqb (trim (c :: r)) (jq "',") = false) as ->.
  { apply eqb_false. intros H. by rewrite H in Hdebris. }
  cbn [orb].
  destruct (eqb (trim (c :: r)) []).
  - by subst c.
  - unfold sliceFrom.
    destruct (Text.isDiffMarker c); [done|].
    destruct Hshape as [Hm | ->]; done.
Qed.

Lemma sanitizeLine_debris line : debrisLine line -> Text.sanitizeLine line = None.
Proof.
  intros (Hchars & Hlf & Hdebris).
  destruct line as [|c r]; [done|].
  unfold Text.sanitizeLine. rewrite normalizeJsonText_line by done.
  cbv beta iota zeta. by rewrite Hdebris.
Qed.

Lemma omap_sanitize_diffLines lines :
  Forall diffLine lines -> omap Text.sanitizeLine lines = lines.
Proof.
  induction 1 as [|l lines Hl _ IH]; [done|].
  cbn [omap list_omap]. rewrite sanitizeLine_diffLine by done.
  fold (omap Text.sanitizeLine lines). by rewrite IH.
Qed.

Lemma diffLine_no_LF lines : Forall diffLine lines -> Forall (fun l => LF ∉ l) lines.
Proof.
  intros H. eapply Forall_impl; [done|].
  intros l [-> | (_ & Hlf & _)]; [apply not_elem_of_nil|done].
Qed.

(** Patch sanitation leaves a clean diff as it is, and takes out of it
    a line that holds JSON punctuation only: also a context line of the
    diff that consists of a brace or a bracket. *)
Theorem sanitizePatchArtifacts_on_diff (before after : list str) :
  Forall diffLine (before ++ after) ->
  (before ++ after <> [] ->
   Text.sanitizePatchArtifacts (join [LF] (before ++ after))
   = join [LF] (before ++ after))
  /\ forall debris,
       debrisLine debris ->
       Text.sanitizePatchArtifacts (join [LF] (before ++ debris :: after))
       = join [LF] (before ++ after).
Proof.
  intros Hlines. pose proof (diffLine_no_LF _ Hlines) as Hnolf.
  pose proof Hlines as Hl. apply Forall_app in Hl as [Hb Ha].
  pose proof Hnolf as Hn. apply Forall_app in Hn as [Hnb Hna].
  split.
  - intros Hne. unfold Text.sanitizePatchArtifacts.
    rewrite split_join by done.
    assert (existsb
              (fun line => match Text.sanitizeLine line with
                           | Some kept => negb (eqb kept line)
                           | None => true
                           end) (before ++ after) = false) as ->; [|done].
    apply not_true_iff_false. intros H. apply existsb_exists in H as (l & Hin & Hl).
    apply list_elem_of_In in Hin. rewrite Forall_forall in Hlines.
    rewrite (sanitizeLine_diffLine l (Hlines l Hin)), eqb_refl in Hl. done.
  - intros debris Hdebris. unfold Text.sanitizePatchArtifacts.
    rewrite split_join; [|by destruct before|].
    + assert (existsb
                (fun line => match Text.sanitizeLine line with
                             | Some kept => negb (eqb kept line)
                             | None => true
                             end) (before ++ debris :: after) = true) as ->.
      { apply existsb_exists. exists debris. split.
        - apply in_or_app. right. by left.
        - by rewrite sanitizeLine_debris. }
      rewrite omap_app. cbn [omap list_omap].
      rewrite sanitizeLine_debris by done.
      fold (omap Text.sanitizeLine after).
      by rewrite !omap_sanitize_diffLines.
    + apply Forall_app. split; [done|]. constructor; [|done].
      by destruct Hdebris as (_ & ? & _).
Qed.

Lemma sanitizePatchArtifacts_on_diff_witness :
  Text.sanitizePatchArtifacts
    (join [LF] ([js "@@ -1,3 +1,3 @@"; js " if (x) {"; js "-  a();"; js "+  b();"]
                ++ js " }" :: []))
  = join [LF] ([js "@@ -1,3 +1,3 @@"; js " if (x) {"; js "-  a();"; js "+  b();"]
               ++ []).
Proof.
  refine (proj2 (sanitizePatchArtifacts_on_diff
                   [js "@@ -1,3 +1,3 @@"; js " if (x) {"; js "-  a();"; js "+  b();"]
                   [] _) (js " }") _).
  - assert (forall (c : N) (s : str), bool_decide (c ∈ s) = false -> c ∉ s) as Hnotin.
    { intros c s H. by apply bool_decide_eq_false in H. }
    rewrite app_nil_r.
    do 4 (constructor;
          [right; split; [repeat constructor|]; split; [by apply Hnotin|];
           split; [reflexivity|]; vm_compute; by left|]).
    constructor.
  - assert (forall (c : N) (s : str), bool_decide (c ∈ s) = false -> c ∉ s) as Hnotin.
    { intros c s H. by apply bool_decide_eq_false in H. }
    split; [repeat constructor|]. split; [by apply Hnotin|reflexivity].
Defined.
